(** * oceanmesh.inpoly: the crossing-number point-in-polygon query

    A shallow embedding of [src/oceanmesh/inpoly.py] ([inpoly] and the
    kernel [_inpoly]) and the properties of it that the specification
    states.

    - The coordinate arrays are [float64] arrays: a coordinate is an IEEE
      binary64 value (Rocq's primitive [float]), and the comparisons, NaN
      included, are the ones the Python code performs.
    - An edge index is an integer ([Z]): NumPy takes a negative index and
      wraps it.
    - A Python exception is a [Raise] result of a small error monad.
    - The kernel is compiled by Numba: its reads of [node] are not
      checked, and its two calls of [np.searchsorted] search all keys in one
      pass that keeps the bounds from key to key.  Both are modelled as
      they are, and a statement about the kernel that depends on them
      carries the condition it needs: y-sorted query points, edge indices
      in [-M, M).  [inpoly] passes the kernel nothing else.
    - An array is a list; the only array of the caller that the function
      writes into is the edge array, whose final contents a call returns
      next to its result ([edge_buffer]). *)

From Stdlib Require Import ZArith Floats Lia Sorted.
From stdpp Require Import base list.

#[local] Open Scope float_scope.

#[export] Instance float_inhabited : Inhabited float := populate 0.

(** ** Python exceptions

    [inpoly] raises nothing itself; [ValueError] and [IndexError] are the
    exceptions the NumPy calls in it raise.  [Unchecked] is no exception of
    Python: it stands for a read outside an array in the kernel, which
    Numba compiles without bounds checks.  What the program does after such
    a read is not fixed by its source, and the embedding gives the run no
    result. *)

Inductive exn := ValueError | IndexError | Unchecked.

Inductive result (A : Type) : Type :=
  | Ok (a : A)
  | Raise (e : exn).
Arguments Ok {A} a.
Arguments Raise {A} e.

#[export] Instance result_ret : MRet result := @Ok.
#[export] Instance result_bind : MBind result :=
  λ A B f m, match m with Ok a => f a | Raise e => Raise e end.
#[export] Instance result_fmap : FMap result :=
  λ A B f m, match m with Ok a => Ok (f a) | Raise e => Raise e end.

(** A run that raises an exception of Python, and a run without a result. *)
Definition raises {A} (m : result A) : Prop :=
  m = Raise ValueError ∨ m = Raise IndexError.

Definition fails {A} (m : result A) : Prop := ∃ e, m = Raise e.

(** ** The NumPy operations the module calls *)

(** A row of an N-by-2 coordinate array: column 0, column 1. *)
Abbreviation point := (float * float)%type.

Definition swap_xy (p : point) : point := (p.2, p.1).

(** Integer indexing of an axis of length [len]: indices in [-len, 0) wrap,
    anything else out of [0, len) is an [IndexError]. *)
Definition py_index (len : nat) (k : Z) : result nat :=
  if decide (0 ≤ k < Z.of_nat len)%Z then Ok (Z.to_nat k)
  else if decide (- Z.of_nat len ≤ k < 0)%Z then Ok (Z.to_nat (k + Z.of_nat len))
  else Raise IndexError.

Definition node_at (node : list point) (k : Z) : result point :=
  i ← py_index (length node) k; Ok (node !!! i).

(** [np.fmin]/[np.fmax] skip a NaN operand, [np.minimum]/[np.maximum]
    propagate it. *)
Definition np_fmin (a b : float) : float :=
  if is_nan b then a else if is_nan a then b else if a <=? b then a else b.
Definition np_fmax (a b : float) : float :=
  if is_nan b then a else if is_nan a then b else if b <=? a then a else b.
Definition np_minimum (a b : float) : float :=
  if is_nan a then a else if is_nan b then b else if a <=? b then a else b.
Definition np_maximum (a b : float) : float :=
  if is_nan a then a else if is_nan b then b else if b <=? a then a else b.

(** A reduction without identity: [ValueError] on a zero-size array. *)
Definition reduce (f : float → float → float) (l : list float) : result float :=
  match l with
  | [] => Raise ValueError
  | x :: l' => Ok (foldl f x l')
  end.

Definition nanmin := reduce np_fmin.
Definition nanmax := reduce np_fmax.
Definition amin := reduce np_minimum.
Definition amax := reduce np_maximum.

(** The order NumPy sorts and searches binary64 values by: NaN is larger
    than everything else. *)
Definition np_less (a b : float) : bool :=
  (a <? b) || (is_nan b && negb (is_nan a)).

(** [np.searchsorted].  The loop [while (min_idx < max_idx)] of NumPy's
    [binsearch], which Numba's implementation copies; [go_right] is the
    comparison of the element at [mid_idx] with the key.  The interval
    shrinks at every step, so that [length arr] steps end the loop; the
    result is the pair [(min_idx, max_idx)] the loop ends with. *)
Fixpoint binsearch (go_right : float → bool) (arr : list float)
    (fuel min_idx max_idx : nat) : nat * nat :=
  match fuel with
  | O => (min_idx, max_idx)
  | S fuel' =>
      if decide (min_idx < max_idx)%nat then
        let mid_idx := (min_idx + (max_idx - min_idx) / 2)%nat in
        if go_right (arr !!! mid_idx)
        then binsearch go_right arr fuel' (mid_idx + 1)%nat max_idx
        else binsearch go_right arr fuel' min_idx mid_idx
      else (min_idx, max_idx)
  end.

(** The comparison of an element with a key: [<] for [side="left"], [<=]
    for [side="right"], in the order that puts NaN last. *)
Inductive side := side_left | side_right.

Definition side_cmp (s : side) (a b : float) : bool :=
  match s with
  | side_left => np_less a b
  | side_right => negb (np_less b a)
  end.

(** The search for an array of keys.  The bounds are not reset from one key
    to the next: a key that compares above the last one keeps [min_idx],
    any other key keeps [max_idx + 1].  On a sorted array this changes
    nothing in the result (lemma [searchsorted_scratch] below); on an array
    that is not sorted it can. *)
Fixpoint searchsorted_keys (s : side) (arr : list float)
    (last_key_val : float) (min_idx max_idx : nat) (keys : list float)
    : list nat :=
  match keys with
  | [] => []
  | key_val :: keys' =>
      let '(min_idx, max_idx) :=
        if side_cmp s last_key_val key_val then (min_idx, length arr)
        else (0%nat, if decide (max_idx < length arr)%nat
                     then (max_idx + 1)%nat else length arr) in
      let '(min_idx, max_idx) :=
        binsearch (λ v, side_cmp s v key_val) arr (length arr)
          min_idx max_idx in
      min_idx :: searchsorted_keys s arr key_val min_idx max_idx keys'
  end.

Definition searchsorted (s : side) (arr keys : list float) : list nat :=
  match keys with
  | [] => []
  | key_val :: _ => searchsorted_keys s arr key_val 0 (length arr) keys
  end.

(** The search for one key, from the full interval. *)
Definition searchsorted_one (s : side) (arr : list float) (key : float)
    : nat :=
  (binsearch (λ v, side_cmp s v key) arr (length arr) 0 (length arr)).1.

Definition searchsorted_left (arr : list float) (key : float) : nat :=
  searchsorted_one side_left arr key.

Definition searchsorted_right (arr : list float) (key : float) : nat :=
  searchsorted_one side_right arr key.

(** [np.argsort]: the indices in the order of their keys.  NumPy's default
    sort is not stable; the order chosen here among equal keys is by index. *)
Fixpoint insert_index (key : nat → float) (i : nat) (l : list nat) : list nat :=
  match l with
  | [] => [i]
  | j :: l' =>
      if np_less (key j) (key i) then j :: insert_index key i l' else i :: l
  end.

Definition argsort (ys : list float) : list nat :=
  foldr (insert_index (λ i, ys !!! i)) [] (seq 0 (length ys)).

(** Boolean-mask selection [a[mask]] and assignment [dst[mask] = vals]. *)
Fixpoint compress {A} (mask : list bool) (l : list A) : list A :=
  match mask, l with
  | b :: mask', x :: l' =>
      if b then x :: compress mask' l' else compress mask' l'
  | _, _ => []
  end.

Fixpoint put_mask {A} (mask : list bool) (vals dst : list A) : list A :=
  match mask, dst with
  | true :: mask', d :: dst' =>
      match vals with
      | v :: vals' => v :: put_mask mask' vals' dst'
      | [] => d :: put_mask mask' [] dst'
      end
  | false :: mask', d :: dst' => d :: put_mask mask' vals dst'
  | _, _ => dst
  end.

(** Index-array assignment [dst[idx] = vals]. *)
Definition put_index {A} (idx : list nat) (vals dst : list A) : list A :=
  foldl (λ d iv, <[iv.1 := iv.2]> d) dst (zip idx vals).

(** A value stored into an [int32] array. *)
Definition wrap32 (z : Z) : Z := ((z + 2 ^ 31) `mod` 2 ^ 32 - 2 ^ 31)%Z.

(** ** The crossing-number kernel [_inpoly]

    What the kernel precomputes for one row of [edge]: the entries at
    position [epos] of the arrays [XONE], [XTWO], [YONE], [YTWO], [XMIN],
    [XMAX], [YDEL], [XDEL], [ione] and [itwo]. *)
Record edge_row : Type := {
  xone : float; xtwo : float; yone : float; ytwo : float;
  xmin : float; xmax : float;
  ydel : float; xdel : float;
  ione : nat; itwo : nat
}.

(** A read of [node] in the kernel.  An index in [-M, 0) counts from the
    end, as in NumPy; an index outside [-M, M) is not checked and reads
    outside the array. *)
Definition node_unchecked (node : list point) (k : Z) : result point :=
  match py_index (length node) k with
  | Ok i => Ok (node !!! i)
  | Raise _ => Raise Unchecked
  end.

(** Lines 147-163: the arrays, and the row of their entries at each
    position [epos] of [range(edge.shape[0])]. *)
Definition kernel_rows (vert node : list point) (veps : float)
    (edge : list (Z * Z)) : result (list edge_row) :=
  ONE ← mapM (λ e : Z * Z, node_unchecked node e.1) edge;
  TWO ← mapM (λ e : Z * Z, node_unchecked node e.2) edge;
  let XONE := ONE.*1 in
  let XTWO := TWO.*1 in
  let YONE := ONE.*2 in
  let YTWO := TWO.*2 in
  let XMIN := zip_with np_minimum XONE XTWO in
  let XMAX := zip_with np_maximum XONE XTWO in
  let XMAX := (λ x, x + veps) <$> XMAX in
  let YMIN := (λ y, y - veps) <$> YONE in
  let YMAX := (λ y, y + veps) <$> YTWO in
  let YDEL := zip_with (λ a b, a - b) YTWO YONE in
  let XDEL := zip_with (λ a b, a - b) XTWO XONE in
  let ione := searchsorted side_left vert.*2 YMIN in
  let itwo := searchsorted side_right vert.*2 YMAX in
  Ok ((λ epos,
         {| xone := XONE !!! epos; xtwo := XTWO !!! epos;
            yone := YONE !!! epos; ytwo := YTWO !!! epos;
            xmin := XMIN !!! epos; xmax := XMAX !!! epos;
            ydel := YDEL !!! epos; xdel := XDEL !!! epos;
            ione := ione !!! epos; itwo := itwo !!! epos |})
      <$> seq 0 (length edge)).

(** The row of one edge on its own, its window searched from the full
    interval.  On y-sorted query points these are the rows of the kernel
    (lemma [kernel_rows_rowwise] below). *)
Definition make_row (vert node : list point) (veps : float) (e : Z * Z)
    : result edge_row :=
  one ← node_unchecked node e.1;
  two ← node_unchecked node e.2;
  Ok {| xone := one.1; xtwo := two.1; yone := one.2; ytwo := two.2;
        xmin := np_minimum one.1 two.1;
        xmax := np_maximum one.1 two.1 + veps;
        ydel := two.2 - one.2;
        xdel := two.1 - one.1;
        ione := searchsorted_left vert.*2 (one.2 - veps);
        itwo := searchsorted_right vert.*2 (two.2 + veps) |}.

(** The indices the inner loop runs over: [range(ione[epos], itwo[epos])]. *)
Definition candidates (r : edge_row) : list nat :=
  seq (ione r) (itwo r - ione r).

(** The body of the inner loop, at index [jpos]. *)
Definition test_point (feps : float) (vert : list point) (r : edge_row)
    (st : list bool * list bool) (jpos : nat) : list bool * list bool :=
  let stat : list bool := st.1 in
  let bnds : list bool := st.2 in
  if (bnds !!! jpos : bool) then st
  else
    let xpos := (vert !!! jpos).1 in
    let ypos := (vert !!! jpos).2 in
    if xmin r <=? xpos then
      if xpos <=? xmax r then
        let mul1 := ydel r * (xpos - xone r) in
        let mul2 := xdel r * (ypos - yone r) in
        if abs (mul2 - mul1) <=? feps then
          (<[jpos := true]> stat, <[jpos := true]> bnds)
        else if (ypos =? yone r) && (xpos =? xone r) then
          (<[jpos := true]> stat, <[jpos := true]> bnds)
        else if (ypos =? ytwo r) && (xpos =? xtwo r) then
          (<[jpos := true]> stat, <[jpos := true]> bnds)
        else if (mul1 <? mul2) && (yone r <=? ypos) && (ypos <? ytwo r) then
          (<[jpos := negb (stat !!! jpos)]> stat, bnds)
        else st
      else st
    else if (yone r <=? ypos) && (ypos <? ytwo r) then
      (<[jpos := negb (stat !!! jpos)]> stat, bnds)
    else st.

(** The body of the loop over the edges. *)
Definition edge_loop (feps : float) (vert : list point)
    (st : list bool * list bool) (r : edge_row) : list bool * list bool :=
  foldl (test_point feps vert r) st (candidates r).

(** The kernel.  [lbar ** +2] has a literal exponent, which Numba unrolls
    to the product [lbar * lbar], and [lbar ** +1] is [lbar].  Every call
    [inpoly] makes passes y-sorted query points and indices that NumPy has
    accepted at line 107. *)
Definition _inpoly (vert node : list point) (edge : list (Z * Z))
    (ftol lbar : float) : result (list bool * list bool) :=
  let feps := ftol * (lbar * lbar) in
  let veps := ftol * lbar in
  let stat := replicate (length vert) false in
  let bnds := replicate (length vert) false in
  rows ← kernel_rows vert node veps edge;
  Ok (foldl (edge_loop feps vert) (stat, bnds) rows).

(** ** The driver [inpoly] *)

(** The edge array built when [edge] is omitted. *)
Definition default_edge (M : nat) : result (list (Z * Z)) :=
  let indx := seqZ 0 (Z.of_nat M - 1) in
  let edge := replicate M (0, 0)%Z in
  let head := take (M - 1) edge in
  let last := drop (M - 1) edge in
  let head := zip_with (λ v (row : Z * Z), (wrap32 (v + 0), row.2)) indx head in
  let head := zip_with (λ v (row : Z * Z), (row.1, wrap32 (v + 1))) indx head in
  let edge := head ++ last in
  k ← py_index M (-1);
  Ok (<[k := (wrap32 (Z.of_nat M - 1), (edge !!! k).2)]> edge).

(** The bounding box of the polygon nodes and the mask of the query points
    in it. *)
Definition node_bbox (node : list point)
    : result (float * float * float * float) :=
  x0 ← nanmin node.*1;
  y0 ← nanmin node.*2;
  x1 ← nanmax node.*1;
  y1 ← nanmax node.*2;
  Ok (x0, y0, x1, y1).

Definition in_bbox (bb : float * float * float * float) (p : point) : bool :=
  let '(x0, y0, x1, y1) := bb in
  (x0 <=? p.1) && (y0 <=? p.2) && (p.1 <=? x1) && (p.2 <=? y1).

(** What the preprocessing hands to the kernel and to the reassembly. *)
Record prepared : Type := {
  p_mask : list bool;
  p_ivec : list nat;
  p_vert : list point;
  p_node : list point;
  p_edge : list (Z * Z);
  p_lbar : float
}.

(** Lines 65-112 of [inpoly].  [edge = Some e] is an integer ndarray the
    caller passes: [np.asarray] returns it as it is, so that the edge array
    the function works on, [p_edge], is the caller's. *)
Definition preprocess (vert node : list point) (edge : option (list (Z * Z)))
    : result prepared :=
  edge ← match edge with
         | None => default_edge (length node)
         | Some e => Ok e
         end;
  bb ← node_bbox node;
  let mask := in_bbox bb <$> vert in
  let vert := compress mask vert in
  vmin0 ← amin vert.*1;
  vmin1 ← amin vert.*2;
  vmax0 ← amax vert.*1;
  vmax1 ← amax vert.*2;
  let ddxy := (vmax0 - vmin0, vmax1 - vmin1) in
  let lbar := (ddxy.1 + ddxy.2) / 2 in
  let flip := ddxy.2 <? ddxy.1 in
  let vert := if flip then swap_xy <$> vert else vert in
  let node := if flip then swap_xy <$> node else node in
  ytwo ← mapM (λ e : Z * Z, snd <$> node_at node e.2) edge;
  yone ← mapM (λ e : Z * Z, snd <$> node_at node e.1) edge;
  let swap := zip_with ltb ytwo yone in
  let edge := zip_with (λ (s : bool) (e : Z * Z), if s then (e.2, e.1) else e)
                swap edge in
  let ivec := argsort vert.*2 in
  let vert := (λ i, vert !!! i) <$> ivec in
  Ok {| p_mask := mask; p_ivec := ivec; p_vert := vert; p_node := node;
        p_edge := edge; p_lbar := lbar |}.

(** Lines 118-125: undo the sort, then the pruning. *)
Definition assemble (N : nat) (p : prepared) (stmp btmp : list bool)
    : list bool * list bool :=
  let stat := put_index (p_ivec p) stmp (replicate (length (p_vert p)) false) in
  let bnds := put_index (p_ivec p) btmp (replicate (length (p_vert p)) false) in
  (put_mask (p_mask p) stat (replicate N false),
   put_mask (p_mask p) bnds (replicate N false)).

(** A call that returns: the pair [STAT, BNDS], and the contents of the
    edge array after the call. *)
Record outcome : Type := {
  returned : list bool * list bool;
  edge_buffer : list (Z * Z)
}.

Definition inpoly_run (vert node : list point) (edge : option (list (Z * Z)))
    (ftol : float) : result outcome :=
  p ← preprocess vert node edge;
  sb ← _inpoly (p_vert p) (p_node p) (p_edge p) ftol (p_lbar p);
  Ok {| returned := assemble (length vert) p sb.1 sb.2;
        edge_buffer := p_edge p |}.

Definition inpoly (vert node : list point) (edge : option (list (Z * Z)))
    (ftol : float) : result (list bool * list bool) :=
  returned <$> inpoly_run vert node edge ftol.

(** The default tolerance, [5.0e-14] rounded to binary64. *)
Definition ftol_default : float := 0x1.c25c268497682p-45.

(** The polygon and the queries of the unit-square example. *)
Definition unit_square : list point := [(0, 0); (1, 0); (1, 1); (0, 1)].
Definition unit_square_queries : list point :=
  [(0.5, 0.5); (0, 0.5); (2, 2); (0, 0)].

(** The query index behind each kernel position: position [k] of the
    pruned, sorted array holds the query point of index [origin p !!! k]. *)
Definition mask_indices (mask : list bool) : list nat :=
  compress mask (seq 0 (length mask)).

Definition origin (p : prepared) : list nat :=
  (λ k, mask_indices (p_mask p) !!! k) <$> p_ivec p.

(** The closed chain of the specification, [(0,1), ..., (M-2,M-1), (M-1,0)]. *)
Definition cyclic_chain (M : nat) : list (Z * Z) :=
  (λ i, (Z.of_nat i, Z.of_nat ((i + 1) `mod` M))) <$> seq 0 M.

(** The three query points of the example that the kernel sees, sorted. *)
Definition unit_square_sorted : list point := [(0, 0); (0.5, 0.5); (0, 0.5)].


#[local] Close Scope float_scope.

(** * oceanmesh.clean: the cell-to-cell table

    [src/oceanmesh/clean.py].  A mesh connectivity table is an array of
    rows of three vertex numbers; the other arrays hold pairs of vertex or
    cell numbers. *)

(** [np.argsort] of integer keys.  The stable sort ([kind="mergesort"]) has
    one result, the one below.  The default sort is not stable: which of
    the orders that sort the keys it returns is not fixed, and the functions
    below take it as the argument [sort1] or [sort2]; [sorts keys idx] says
    that [idx] is such an order. *)
Fixpoint insert_key (key : nat → Z) (i : nat) (l : list nat) : list nat :=
  match l with
  | [] => [i]
  | j :: l' => if (key j <? key i)%Z then j :: insert_key key i l' else i :: l
  end.

Definition argsort_stable (keys : list Z) : list nat :=
  foldr (insert_key (λ i, keys !!! i)) [] (seq 0 (length keys)).

(** The order of the stable sort: by key, equal keys by position. *)
Definition stable_order (key : nat → Z) (a b : nat) : Prop :=
  (key a < key b)%Z ∨ (key a = key b ∧ a < b).

Definition ascending {A} (R : A → A → Prop) (l : list A) : Prop :=
  ∀ x y a b, x < y → l !! x = Some a → l !! y = Some b → R a b.

Definition sorts (keys : list Z) (idx : list nat) : Prop :=
  idx ≡ₚ seq 0 (length keys) ∧
  ascending (λ a b, (keys !!! a ≤ keys !!! b)%Z) idx.

(** The order of MATLAB's [sortrows] on rows of two. *)
Definition lex_le (p q : Z * Z) : Prop :=
  (p.1 < q.1)%Z ∨ (p.1 = q.1 ∧ (p.2 ≤ q.2)%Z).

(** [_arg_sortrows]: sort on column 1, then stably on column 0. *)
Definition _arg_sortrows (sort1 : list Z → list nat) (arr : list (Z * Z))
    : list nat :=
  let i := sort1 arr.*2 in
  let j := argsort_stable ((λ k, (arr !!! k).1) <$> i) in
  (λ k, i !!! k) <$> j.

(** [np.sort(t, axis=1)] on a row of three. *)
Definition sort_row (r : Z * Z * Z) : Z * Z * Z :=
  let '(a, b, c) := r in
  let '(a, b) := if (b <? a)%Z then (b, a) else (a, b) in
  let '(b, c) := if (c <? b)%Z then (c, b) else (b, c) in
  let '(a, b) := if (b <? a)%Z then (b, a) else (a, b) in
  (a, b, c).

(** The positions [r] at which two consecutive entries satisfy [P]:
    [np.argwhere] over an [np.diff]. *)
Definition adjacent_where `{Inhabited A} (P : A → A → bool) (l : list A)
    : list nat :=
  filter (λ r, P (l !!! r) (l !!! (r + 1)) = true) (seq 0 (length l - 1)).

Definition pair_eqb (a b : Z * Z) : bool :=
  (a.1 =? b.1)%Z && (a.2 =? b.2)%Z.

Definition cell_to_cell (sort1 sort2 : list Z → list nat)
    (t : list (Z * Z * Z)) : list (nat * nat) * list nat :=
  let nt := length t in
  let t := sort_row <$> t in
  let e := ((λ r : Z * Z * Z, (r.1.1, r.1.2)) <$> t)
           ++ ((λ r : Z * Z * Z, (r.1.1, r.2)) <$> t)
           ++ ((λ r : Z * Z * Z, (r.1.2, r.2)) <$> t) in
  let trinum := seq 0 nt ++ seq 0 nt ++ seq 0 nt in
  let j := _arg_sortrows sort1 e in
  let e := (λ k, e !!! k) <$> j in
  let trinum := (λ k, trinum !!! k) <$> j in
  let k := adjacent_where pair_eqb e in
  let ctoc := (λ r, (trinum !!! r, trinum !!! (r + 1))) <$> k in
  let ctoc := ctoc ++ ((λ c : nat * nat, (c.2, c.1)) <$> ctoc) in
  let ctoc := (λ k, ctoc !!! k) <$> sort2 (Z.of_nat <$> ctoc.*1) in
  let idx := adjacent_where (λ a b : nat * nat, negb (a.1 =? b.1))
               ctoc in
  let idx := 0 :: idx in
  let idx := idx ++ [length ctoc] in
  (ctoc, idx).

(** The three edges of a sorted row, and a row of three different vertices. *)
Definition row_edges (r : Z * Z * Z) : list (Z * Z) :=
  [(r.1.1, r.1.2); (r.1.1, r.2); (r.1.2, r.2)].

Definition slot (s : nat) (r : Z * Z * Z) : Z * Z :=
  match s with
  | 0 => (r.1.1, r.1.2)
  | 1 => (r.1.1, r.2)
  | _ => (r.1.2, r.2)
  end.

Definition proper_cell (r : Z * Z * Z) : Prop :=
  r.1.1 ≠ r.1.2 ∧ r.1.1 ≠ r.2 ∧ r.1.2 ≠ r.2.

(** Two triangles with the common edge (1, 2), and a third one apart. *)
Definition two_triangles : list (Z * Z * Z) :=
  [(0, 1, 2); (2, 1, 3); (7, 8, 9)]%Z.

#[local] Open Scope float_scope.

(** ** The kernel seen from one query point

    What an edge does to a query point depends on the coordinates of the
    two, not on the flags: it latches the point on the boundary, toggles
    its parity, or leaves it.  [classify] is the chain of tests of the inner
    loop, and [apply_action] what the body does to the two flags of the
    point. *)

Inductive action := Latch | Toggle | Leave.

Definition classify (feps : float) (r : edge_row) (p : point) : action :=
  let xpos := p.1 in
  let ypos := p.2 in
  if xmin r <=? xpos then
    if xpos <=? xmax r then
      let mul1 := ydel r * (xpos - xone r) in
      let mul2 := xdel r * (ypos - yone r) in
      if abs (mul2 - mul1) <=? feps then Latch
      else if (ypos =? yone r) && (xpos =? xone r) then Latch
      else if (ypos =? ytwo r) && (xpos =? xtwo r) then Latch
      else if (mul1 <? mul2) && (yone r <=? ypos) && (ypos <? ytwo r) then Toggle
      else Leave
    else Leave
  else if (yone r <=? ypos) && (ypos <? ytwo r) then Toggle
  else Leave.

(** The flags of a point are the pair (inside, on the boundary). *)
Definition apply_action (a : action) (c : bool * bool) : bool * bool :=
  if c.2 then c
  else match a with
       | Latch => (true, true)
       | Toggle => (negb c.1, c.2)
       | Leave => c
       end.

Definition cell (st : list bool * list bool) (j : nat) : bool * bool :=
  (st.1 !!! j, st.2 !!! j).

Definition in_window (r : edge_row) (j : nat) : bool :=
  bool_decide (ione r ≤ j < itwo r)%nat.

Definition point_step (feps : float) (p : point) (j : nat)
    (c : bool * bool) (r : edge_row) : bool * bool :=
  if in_window r j then apply_action (classify feps r p) c else c.

(** The keys [np.argsort] leaves in [vert[:, 1]]: ascending, none a NaN. *)
Fixpoint y_sorted (ys : list float) : bool :=
  match ys with
  | [] => true
  | a :: ys' => (a <=? a) && forallb (λ b, a <=? b) ys' && y_sorted ys'
  end.

(** Strictly outside the bounding box, on one side at least. *)
Definition strictly_outside (bb : float * float * float * float) (p : point)
    : bool :=
  let '(x0, y0, x1, y1) := bb in
  (p.1 <? x0) || (p.2 <? y0) || (x1 <? p.1) || (y1 <? p.2).

(** The inputs the specification has rejected: fewer than two nodes, an
    edge index out of [0, M), no query point or no node. *)
Definition spec_invalid (vert node : list point)
    (edge : option (list (Z * Z))) : Prop :=
  (length node < 2)%nat ∨
  (∃ es e, edge = Some es ∧ e ∈ es ∧
     ¬ ((0 ≤ e.1 < Z.of_nat (length node))%Z ∧
        (0 ≤ e.2 < Z.of_nat (length node))%Z)) ∨
  length vert = 0%nat ∨ length node = 0%nat.

(** An index that NumPy takes: in [-M, M). *)
Definition index_ok (M : nat) (k : Z) : Prop :=
  (- Z.of_nat M ≤ k < Z.of_nat M)%Z.


(** ** The flags of a query point in closed form

    The band of y-values an edge reaches, and the flags a point ends with
    after a set of edges: latched by any edge of its band that qualifies,
    otherwise the parity of the crossings. *)

Definition y_window (veps : float) (r : edge_row) (y : float) : bool :=
  (yone r - veps <=? y) && negb (ytwo r + veps <? y).

Definition is_latch (a : action) : bool :=
  match a with Latch => true | _ => false end.

Definition is_toggle (a : action) : bool :=
  match a with Toggle => true | _ => false end.

Definition point_flags (feps veps : float) (rows : list edge_row) (p : point)
    : bool * bool :=
  if existsb (λ r, y_window veps r p.2 && is_latch (classify feps r p)) rows
  then (true, true)
  else
    (Nat.odd (length (filter
       (λ r, y_window veps r p.2 && is_toggle (classify feps r p) = true)
       rows)),
     false).

(** ** The crossing-number rule on coordinates

    The rule the kernel implements, stated on the coordinates of a query
    point [q] and of the two endpoints of an edge, [s = (one, two)], with no
    reference to the arrays of the kernel.  [q] is within reach of the edge
    when its y lies in the band from [yone - veps] to [ytwo + veps], and
    within its span when its x lies between the smaller x of the endpoints
    and the larger one plus [veps].  It touches the edge when, within reach
    and span, it is on the line of the edge up to [feps] or equal to an
    endpoint.  It crosses the edge when, within reach and not touching,
    [yone <= y < ytwo] and either its x is not at least the smaller x of
    the endpoints, or it is within the span with [mul1 < mul2]: the edge
    passes on its right. *)
Definition endpoints (node : list point) (e : Z * Z)
    : result (point * point) :=
  one ← node_at node e.1; two ← node_at node e.2; Ok (one, two).

Definition in_band (veps : float) (s : point * point) (q : point) : bool :=
  (s.1.2 - veps <=? q.2) && negb (s.2.2 + veps <? q.2).

Definition in_span (veps : float) (s : point * point) (q : point) : bool :=
  (np_minimum s.1.1 s.2.1 <=? q.1) && (q.1 <=? np_maximum s.1.1 s.2.1 + veps).

Definition mul1 (s : point * point) (q : point) : float :=
  (s.2.2 - s.1.2) * (q.1 - s.1.1).

Definition mul2 (s : point * point) (q : point) : float :=
  (s.2.1 - s.1.1) * (q.2 - s.1.2).

Definition at_point (q p : point) : bool := (q.2 =? p.2) && (q.1 =? p.1).

Definition touches (feps veps : float) (s : point * point) (q : point)
    : bool :=
  in_band veps s q && in_span veps s q &&
  ((abs (mul2 s q - mul1 s q) <=? feps) || at_point q s.1 || at_point q s.2).

Definition crosses (feps veps : float) (s : point * point) (q : point)
    : bool :=
  in_band veps s q && negb (touches feps veps s q) &&
  (s.1.2 <=? q.2) && (q.2 <? s.2.2) &&
  (if np_minimum s.1.1 s.2.1 <=? q.1
   then (q.1 <=? np_maximum s.1.1 s.2.1 + veps) && (mul1 s q <? mul2 s q)
   else true).

(** A point that touches an edge is inside and on the boundary; any other
    point is inside when it crosses an odd number of edges. *)
Definition crossing_flags (feps veps : float) (segs : list (point * point))
    (q : point) : bool * bool :=
  if existsb (λ s, touches feps veps s q) segs then (true, true)
  else
    (Nat.odd (length (filter (λ s, crosses feps veps s q = true) segs)),
     false).

(** An edge with its endpoints in the order the kernel wants them: the
    second endpoint is not below the first. *)
Definition oriented (s : point * point) : point * point :=
  if s.2.2 <? s.1.2 then (s.2, s.1) else s.

(** ** The orientation of the edges (lines 107-109) on its own *)

Definition orient_rows (node : list point) (edge : list (Z * Z))
    : result (list (Z * Z)) :=
  ytwo ← mapM (λ e : Z * Z, snd <$> node_at node e.2) edge;
  yone ← mapM (λ e : Z * Z, snd <$> node_at node e.1) edge;
  Ok (zip_with (λ (s : bool) (e : Z * Z), if s then (e.2, e.1) else e)
        (zip_with ltb ytwo yone) edge).

Definition set_edge (p : prepared) (edge : list (Z * Z)) : prepared :=
  {| p_mask := p_mask p; p_ivec := p_ivec p; p_vert := p_vert p;
     p_node := p_node p; p_edge := edge; p_lbar := p_lbar p |}.

(** An index in [-M, 0) written as the index in [0, M) it stands for. *)
Definition norm_index (M : nat) (k : Z) : Z :=
  if decide (- Z.of_nat M ≤ k < 0)%Z then (k + Z.of_nat M)%Z else k.

Definition norm_row (M : nat) (e : Z * Z) : Z * Z :=
  (norm_index M e.1, norm_index M e.2).

(** ** [inpoly] with the sort left open

    NumPy's default sort is not stable, so that the order [np.argsort]
    gives to query points of equal y is not fixed.  [preprocess_with] and
    [inpoly_with] are [preprocess] and [inpoly] with the sort as an
    argument; [sorts_floats sorter] says that [sorter] returns an order of
    the indices that sorts NaN-free keys. *)
Definition preprocess_with (sorter : list float → list nat)
    (vert node : list point) (edge : option (list (Z * Z))) : result prepared :=
  edge ← match edge with
         | None => default_edge (length node)
         | Some e => Ok e
         end;
  bb ← node_bbox node;
  let mask := in_bbox bb <$> vert in
  let vert := compress mask vert in
  vmin0 ← amin vert.*1;
  vmin1 ← amin vert.*2;
  vmax0 ← amax vert.*1;
  vmax1 ← amax vert.*2;
  let ddxy := (vmax0 - vmin0, vmax1 - vmin1) in
  let lbar := (ddxy.1 + ddxy.2) / 2 in
  let flip := ddxy.2 <? ddxy.1 in
  let vert := if flip then swap_xy <$> vert else vert in
  let node := if flip then swap_xy <$> node else node in
  ytwo ← mapM (λ e : Z * Z, snd <$> node_at node e.2) edge;
  yone ← mapM (λ e : Z * Z, snd <$> node_at node e.1) edge;
  let swap := zip_with ltb ytwo yone in
  let edge := zip_with (λ (s : bool) (e : Z * Z), if s then (e.2, e.1) else e)
                swap edge in
  let ivec := sorter vert.*2 in
  let vert := (λ i, vert !!! i) <$> ivec in
  Ok {| p_mask := mask; p_ivec := ivec; p_vert := vert; p_node := node;
        p_edge := edge; p_lbar := lbar |}.

Definition inpoly_with (sorter : list float → list nat)
    (vert node : list point) (edge : option (list (Z * Z))) (ftol : float)
    : result (list bool * list bool) :=
  p ← preprocess_with sorter vert node edge;
  sb ← _inpoly (p_vert p) (p_node p) (p_edge p) ftol (p_lbar p);
  Ok (assemble (length vert) p sb.1 sb.2).

Definition sorts_floats (sorter : list float → list nat) : Prop :=
  ∀ ys, (∀ y, y ∈ ys → is_nan y = false) →
    sorter ys ≡ₚ seq 0 (length ys) ∧
    y_sorted ((λ i, ys !!! i) <$> sorter ys) = true.

(** A sort that puts later indices first among equal keys. *)
Fixpoint insert_index_last (key : nat → float) (i : nat) (l : list nat)
    : list nat :=
  match l with
  | [] => [i]
  | j :: l' =>
      if np_less (key i) (key j) then i :: l
      else j :: insert_index_last key i l'
  end.

Definition argsort_last (ys : list float) : list nat :=
  foldr (insert_index_last (λ i, ys !!! i)) [] (seq 0 (length ys)).

#[local] Close Scope float_scope.

(** ** Comparisons of binary64 values

    The primitive comparisons are specified by [SFcompare] on [spec_float]
    (the [FloatAxioms] of the standard library).  The facts below are the
    order properties the development uses. *)

Module FloatOrder.
#[local] Open Scope float_scope.

Ltac sf_cases :=
  change (Pos.compare_cont Eq) with Pos.compare;
  repeat match goal with
    | |- context [Z.compare ?a ?b] => destruct (Z.compare_spec a b)
    | H : context [Z.compare ?a ?b] |- _ => destruct (Z.compare_spec a b)
    end;
  simpl in *; try congruence; try lia;
  repeat match goal with
    | |- context [Pos.compare ?a ?b] => destruct (Pos.compare_spec a b)
    | H : context [Pos.compare ?a ?b] |- _ => destruct (Pos.compare_spec a b)
    end;
  simpl in *; try congruence; try lia.

Lemma SF_lt_le_trans x y z :
  SFltb x y = true → SFleb y z = true → SFltb x z = true.
Proof.
  unfold SFltb, SFleb, SFcompare.
  destruct x as [[]|[]| |[] m1 e1], y as [[]|[]| |[] m2 e2],
           z as [[]|[]| |[] m3 e3]; simpl; try congruence; sf_cases.
Qed.

Lemma SF_le_lt_trans x y z :
  SFleb x y = true → SFltb y z = true → SFltb x z = true.
Proof.
  unfold SFltb, SFleb, SFcompare.
  destruct x as [[]|[]| |[] m1 e1], y as [[]|[]| |[] m2 e2],
           z as [[]|[]| |[] m3 e3]; simpl; try congruence; sf_cases.
Qed.

Lemma SF_le_trans x y z :
  SFleb x y = true → SFleb y z = true → SFleb x z = true.
Proof.
  unfold SFleb, SFcompare.
  destruct x as [[]|[]| |[] m1 e1], y as [[]|[]| |[] m2 e2],
           z as [[]|[]| |[] m3 e3]; simpl; try congruence; sf_cases.
Qed.

Lemma SF_lt_not_le x y : SFltb x y = true → SFleb y x = false.
Proof.
  unfold SFltb, SFleb, SFcompare.
  destruct x as [[]|[]| |[] m1 e1], y as [[]|[]| |[] m2 e2];
    simpl; try congruence; sf_cases.
Qed.

Lemma SF_total x y :
  SFeqb x x = true → SFeqb y y = true → SFltb x y = negb (SFleb y x).
Proof.
  unfold SFltb, SFleb, SFeqb, SFcompare.
  destruct x as [[]|[]| |[] m1 e1], y as [[]|[]| |[] m2 e2];
    simpl; try congruence; sf_cases.
Qed.

Lemma SF_le_refl_l x y : SFleb x y = true → SFeqb x x = true.
Proof.
  unfold SFleb, SFeqb, SFcompare.
  destruct x as [[]|[]| |[] m1 e1], y as [[]|[]| |[] m2 e2];
    simpl; try congruence; sf_cases.
Qed.

Lemma SF_le_refl_r x y : SFleb x y = true → SFeqb y y = true.
Proof.
  unfold SFleb, SFeqb, SFcompare.
  destruct x as [[]|[]| |[] m1 e1], y as [[]|[]| |[] m2 e2];
    simpl; try congruence; sf_cases.
Qed.

Lemma SF_lt_not_eq x y : SFltb x y = true → SFeqb x y = false.
Proof.
  unfold SFltb, SFeqb. destruct (SFcompare x y) as [[]|]; congruence.
Qed.

Lemma SF_lt_le x y : SFltb x y = true → SFleb x y = true.
Proof.
  unfold SFltb, SFleb. destruct (SFcompare x y) as [[]|]; congruence.
Qed.

Lemma SF_le_refl x : SFeqb x x = true → SFleb x x = true.
Proof.
  unfold SFleb, SFeqb. destruct (SFcompare x x) as [[]|]; congruence.
Qed.

(** The same facts on the primitive comparisons. *)

Lemma ltb_leb_trans x y z : (x <? y) = true → (y <=? z) = true → (x <? z) = true.
Proof. rewrite !FloatAxioms.ltb_spec, FloatAxioms.leb_spec. apply SF_lt_le_trans. Qed.

Lemma leb_ltb_trans x y z : (x <=? y) = true → (y <? z) = true → (x <? z) = true.
Proof. rewrite !FloatAxioms.ltb_spec, FloatAxioms.leb_spec. apply SF_le_lt_trans. Qed.

Lemma leb_trans x y z : (x <=? y) = true → (y <=? z) = true → (x <=? z) = true.
Proof. rewrite !FloatAxioms.leb_spec. apply SF_le_trans. Qed.

Lemma ltb_not_leb x y : (x <? y) = true → (y <=? x) = false.
Proof. rewrite FloatAxioms.ltb_spec, FloatAxioms.leb_spec. apply SF_lt_not_le. Qed.

Lemma ltb_not_eqb x y : (x <? y) = true → (x =? y) = false.
Proof.
  rewrite FloatAxioms.ltb_spec, FloatAxioms.eqb_spec. apply SF_lt_not_eq.
Qed.

Lemma ltb_leb x y : (x <? y) = true → (x <=? y) = true.
Proof. rewrite FloatAxioms.ltb_spec, FloatAxioms.leb_spec. apply SF_lt_le. Qed.

Lemma leb_not_ltb x y : (x <=? y) = true → (y <? x) = false.
Proof.
  intros H. destruct (y <? x) eqn:E; [|done].
  apply ltb_not_leb in E. congruence.
Qed.

Lemma is_nan_false x : is_nan x = false ↔ (x =? x) = true.
Proof. unfold is_nan. destruct (x =? x); simpl; split; congruence. Qed.

Lemma ltb_negb_leb x y :
  is_nan x = false → is_nan y = false → (x <? y) = negb (y <=? x).
Proof.
  intros Hx%is_nan_false Hy%is_nan_false. rewrite FloatAxioms.eqb_spec in Hx, Hy.
  rewrite FloatAxioms.ltb_spec, FloatAxioms.leb_spec. by apply SF_total.
Qed.

Lemma leb_refl x : is_nan x = false → (x <=? x) = true.
Proof.
  intros Hx%is_nan_false. rewrite FloatAxioms.eqb_spec in Hx.
  rewrite FloatAxioms.leb_spec. by apply SF_le_refl.
Qed.

Lemma leb_not_nan_l x y : (x <=? y) = true → is_nan x = false.
Proof.
  rewrite FloatAxioms.leb_spec. intros H%SF_le_refl_l.
  apply is_nan_false. by rewrite FloatAxioms.eqb_spec.
Qed.

Lemma leb_not_nan_r x y : (x <=? y) = true → is_nan y = false.
Proof.
  rewrite FloatAxioms.leb_spec. intros H%SF_le_refl_r.
  apply is_nan_false. by rewrite FloatAxioms.eqb_spec.
Qed.

(** No value lies in the half-open interval between two equal bounds. *)
Lemma empty_crossing_range a b y :
  a = b ∨ (a =? b) = true → (a <=? y) && (y <? b) = false.
Proof.
  intros Hab. destruct (a <=? y) eqn:H1; [|done].
  destruct (y <? b) eqn:H2; [|done]. exfalso. destruct Hab as [->|Hab].
  - apply leb_not_ltb in H1. congruence.
  - pose proof (leb_ltb_trans _ _ _ H1 H2) as H%ltb_not_eqb. congruence.
Qed.

End FloatOrder.

(** ** Masks, index arrays and the error monad *)

Section list_facts.
Context {A : Type}.
Implicit Types (l vals dst : list A) (mask : list bool) (idx : list nat).

Lemma compress_length_eq {B} mask l (k : list B) :
  length l = length k → length (compress mask l) = length (compress mask k).
Proof.
  revert l k. induction mask as [|b mask IH]; intros [|x l] [|y k]; simpl;
    try done.
  intros [=]. destruct b; simpl; auto.
Qed.

Lemma compress_elem mask l i x :
  length mask = length l →
  mask !! i = Some true → l !! i = Some x → x ∈ compress mask l.
Proof.
  revert l i. induction mask as [|b mask IH]; intros [|y l] [|i]; simpl;
    try done.
  - intros _ [= ->] [= ->]. left.
  - intros [=] Hm Hl. destruct b; [right|]; eauto.
Qed.

Lemma compress_seq_elem mask s n i :
  i ∈ compress mask (seq s n) → s ≤ i ∧ mask !! (i - s) = Some true.
Proof.
  revert s n. induction mask as [|b mask IH]; intros s [|n]; simpl;
    try by inversion 1.
  destruct b.
  - intros [->|H]%elem_of_cons.
    + by rewrite Nat.sub_diag.
    + apply IH in H as [? ?]. split; [lia|].
      by replace (i - s) with (S (i - S s)) by lia.
  - intros H. apply IH in H as [? ?]. split; [lia|].
    by replace (i - s) with (S (i - S s)) by lia.
Qed.

Lemma compress_seq_NoDup mask s n : NoDup (compress mask (seq s n)).
Proof.
  revert s n. induction mask as [|b mask IH]; intros s [|n]; simpl;
    try by constructor.
  destruct b; [|done]. constructor; [|done].
  intros H%compress_seq_elem. lia.
Qed.

Lemma put_mask_length mask vals dst :
  length (put_mask mask vals dst) = length dst.
Proof.
  revert vals dst. induction mask as [|b mask IH]; intros vals [|d dst];
    simpl; try done.
  - by destruct b.
  - destruct b; [destruct vals|]; simpl; by rewrite IH.
Qed.

Lemma put_mask_lookup_false mask vals dst i :
  mask !! i ≠ Some true → put_mask mask vals dst !! i = dst !! i.
Proof.
  revert vals dst i. induction mask as [|b mask IH]; intros vals [|d dst] i;
    simpl; try done.
  - by destruct b.
  - destruct b, i as [|i]; simpl; try done; [destruct vals|]; simpl; auto.
Qed.

Lemma put_mask_lookup_true mask vals dst s j i :
  length mask = length dst →
  compress mask (seq s (length mask)) !! j = Some i →
  j < length vals →
  put_mask mask vals dst !! (i - s) = vals !! j.
Proof.
  revert vals dst s j. induction mask as [|b mask IH];
    intros vals [|d dst] s j; simpl; try done.
  intros [= Hlen] Hj Hv. destruct b.
  - destruct j as [|j]; simpl in Hj.
    + injection Hj as ->. rewrite Nat.sub_diag.
      destruct vals; simpl in *; [lia|done].
    + assert (S s ≤ i) as Hi.
      { apply list_elem_of_lookup_2, compress_seq_elem in Hj. lia. }
      replace (i - s) with (S (i - S s)) by lia.
      destruct vals as [|v vals]; simpl in *; [lia|].
      apply IH; [done..|lia].
  - assert (S s ≤ i) as Hi.
    { apply list_elem_of_lookup_2, compress_seq_elem in Hj. lia. }
    replace (i - s) with (S (i - S s)) by lia. simpl.
    by apply IH.
Qed.

Lemma put_index_length idx vals dst :
  length (put_index idx vals dst) = length dst.
Proof.
  unfold put_index. revert vals dst.
  induction idx as [|i idx IH]; intros [|v vals] dst; simpl; try done.
  by rewrite IH, length_insert.
Qed.

Lemma put_index_lookup_notin idx vals dst i :
  i ∉ idx → put_index idx vals dst !! i = dst !! i.
Proof.
  unfold put_index. revert vals dst.
  induction idx as [|i0 idx IH]; intros [|v vals] dst; simpl; try done.
  intros [Hne Hin]%not_elem_of_cons.
  rewrite IH by done. by apply list_lookup_insert_ne.
Qed.

Lemma put_index_lookup idx vals dst k i :
  NoDup idx → length idx = length vals →
  idx !! k = Some i → i < length dst →
  put_index idx vals dst !! i = vals !! k.
Proof.
  revert vals dst k.
  induction idx as [|i0 idx IH]; intros [|v vals] dst k; simpl; try done.
  intros [Hnotin Hnd]%NoDup_cons [= Hlen] Hk Hi.
  destruct k as [|k]; simpl in *.
  - injection Hk as ->.
    change (put_index (i :: idx) (v :: vals) dst)
      with (put_index idx vals (<[i:=v]> dst)).
    rewrite put_index_lookup_notin by done.
    by apply list_lookup_insert_eq.
  - change (put_index (i0 :: idx) (v :: vals) dst)
      with (put_index idx vals (<[i0:=v]> dst)).
    apply IH; try done. by rewrite length_insert.
Qed.
End list_facts.

Lemma compress_filter {A} (f : A → bool) (l : list A) :
  compress (f <$> l) l = filter (λ x, f x = true) l.
Proof.
  induction l as [|x l IH]; [done|].
  rewrite fmap_cons. cbn [compress]. rewrite filter_cons, IH.
  destruct (f x); [by rewrite decide_True|by rewrite decide_False].
Qed.

Section result_facts.
Context {A B : Type} (f : A → result B).

Lemma mapM_cons_Ok x l k :
  mapM f (x :: l) = Ok k ↔
  ∃ y k', f x = Ok y ∧ mapM f l = Ok k' ∧ k = y :: k'.
Proof.
  simpl. destruct (f x) as [y|e]; simpl.
  - destruct (mapM f l) as [k'|e]; simpl; split.
    + intros [= <-]. by exists y, k'.
    + by intros (? & ? & [= <-] & [= <-] & ->).
    + done.
    + by intros (? & ? & _ & [=] & _).
  - split; [done|]. by intros (? & ? & [=] & _).
Qed.

Lemma mapM_Ok_Forall2 l k :
  mapM f l = Ok k ↔ Forall2 (λ x y, f x = Ok y) l k.
Proof.
  revert k. induction l as [|x l IH]; intros k.
  - simpl. split; [by intros [= <-]|by inversion 1].
  - rewrite mapM_cons_Ok. split.
    + intros (y & k' & Hy & Hk & ->). constructor; [done|by apply IH].
    + inversion 1 as [|? y ? k' Hy Hk]; subst.
      exists y, k'. by rewrite IH.
Qed.

Lemma mapM_Ok_length l k : mapM f l = Ok k → length k = length l.
Proof. intros H%mapM_Ok_Forall2. symmetry. by eapply Forall2_length. Qed.

Lemma mapM_total l :
  (∀ x, x ∈ l → ∃ y, f x = Ok y) → ∃ k, mapM f l = Ok k.
Proof.
  induction l as [|x l IH]; intros H; [by exists []|].
  destruct (H x) as [y Hy]; [left|].
  destruct IH as [k Hk]; [intros; apply H; by right|].
  exists (y :: k). apply mapM_cons_Ok. eauto.
Qed.

Lemma mapM_Raise_inv l e :
  mapM f l = Raise e → ∃ x, x ∈ l ∧ f x = Raise e.
Proof.
  induction l as [|x l IH]; simpl; [done|].
  destruct (f x) as [y|e'] eqn:Hx; simpl.
  - destruct (mapM f l) as [k|e'']; simpl; [done|].
    intros [= ->]. destruct IH as (x' & ? & ?); [done|].
    exists x'. split; [by right|done].
  - intros [= ->]. exists x. split; [left|done].
Qed.

Lemma mapM_fails l x : x ∈ l → fails (f x) → fails (mapM f l).
Proof.
  intros Hin [e He]. destruct (mapM f l) as [k|e'] eqn:Hk; [|by eexists].
  apply mapM_Ok_Forall2 in Hk.
  apply list_elem_of_lookup in Hin as [i Hi].
  destruct (Forall2_lookup_l _ _ _ _ _ Hk Hi) as (y & _ & Hy). congruence.
Qed.

Lemma mapM_Permutation l l' k :
  l ≡ₚ l' → mapM f l = Ok k → ∃ k', mapM f l' = Ok k' ∧ k ≡ₚ k'.
Proof.
  intros Hp. revert k.
  induction Hp as [|x l l' _ IH|x y l|l1 l2 l3 _ IH1 _ IH2]; intros k.
  - eauto.
  - intros (y & k0 & Hy & Hk & ->)%mapM_cons_Ok.
    destruct (IH _ Hk) as (k0' & Hk' & Hp').
    exists (y :: k0'). split; [|by constructor].
    apply mapM_cons_Ok. eauto.
  - intros (y' & k0 & Hy & (x' & k1 & Hx & Hk & ->)%mapM_cons_Ok & ->)
      %mapM_cons_Ok.
    exists (x' :: y' :: k1). split; [|by constructor].
    apply mapM_cons_Ok. eexists _, _. split; [done|]. split; [|done].
    apply mapM_cons_Ok. eauto.
  - intros Hk. destruct (IH1 _ Hk) as (k2 & Hk2 & Hp2).
    destruct (IH2 _ Hk2) as (k3 & Hk3 & Hp3).
    exists k3. split; [done|by etrans].
Qed.
End result_facts.

(** ** The binary search *)

Lemma y_sorted_lookup ys i j a b :
  y_sorted ys = true → i ≤ j → ys !! i = Some a → ys !! j = Some b →
  (a <=? b)%float = true.
Proof.
  revert i j. induction ys as [|y ys IH]; intros i j Hs Hij Hi Hj; [done|].
  simpl in Hs. apply andb_prop in Hs as [[Hy Hall]%andb_prop Hs].
  destruct i as [|i], j as [|j]; simpl in *; try lia.
  - by simplify_eq.
  - injection Hi as <-. rewrite forallb_forall in Hall.
    apply Hall, list_elem_of_In. by eapply list_elem_of_lookup_2.
  - apply (IH i j); [done|lia|done..].
Qed.

Lemma midpoint_between lo hi : lo < hi → lo ≤ lo + (hi - lo) / 2 < hi.
Proof.
  intros Hlt. pose proof (Nat.div_mod_eq (hi - lo) 2).
  pose proof (Nat.mod_upper_bound (hi - lo) 2). lia.
Qed.

(** The loop keeps [min_idx <= max_idx] within the interval it starts from,
    whatever the array holds. *)
Lemma binsearch_bounds go_right arr fuel lo hi :
  lo ≤ hi →
  lo ≤ (binsearch go_right arr fuel lo hi).1 ∧
  (binsearch go_right arr fuel lo hi).1 ≤ (binsearch go_right arr fuel lo hi).2 ∧
  (binsearch go_right arr fuel lo hi).2 ≤ hi.
Proof.
  revert lo hi. induction fuel as [|fuel IH]; intros lo hi Hle;
    cbn [binsearch]; [simpl; lia|].
  case_decide as Hlt; [|simpl; lia].
  pose proof (midpoint_between lo hi Hlt) as Hmid.
  set (mid := lo + (hi - lo) / 2) in *. clearbody mid.
  destruct (go_right _).
  - specialize (IH (mid + 1) hi). lia.
  - specialize (IH lo mid). lia.
Qed.

(** [length arr] steps are enough: the loop has ended. *)
Lemma binsearch_ends go_right arr fuel lo hi :
  lo ≤ hi → hi - lo ≤ fuel →
  (binsearch go_right arr fuel lo hi).2 = (binsearch go_right arr fuel lo hi).1.
Proof.
  revert lo hi. induction fuel as [|fuel IH]; intros lo hi Hle Hfuel;
    cbn [binsearch]; [simpl; lia|].
  case_decide as Hlt; [|simpl; lia].
  pose proof (midpoint_between lo hi Hlt) as Hmid.
  set (mid := lo + (hi - lo) / 2) in *. clearbody mid.
  destruct (go_right _); apply IH; lia.
Qed.

Section bisection.
Variables (go_right : float → bool) (arr : list float).
Hypothesis go_right_prefix : ∀ i j a b,
  i ≤ j → arr !! i = Some a → arr !! j = Some b →
  go_right b = true → go_right a = true.

Lemma binsearch_spec fuel lo hi :
  lo ≤ hi → hi ≤ length arr → hi - lo ≤ fuel →
  (∀ i a, i < lo → arr !! i = Some a → go_right a = true) →
  (∀ i a, hi ≤ i → arr !! i = Some a → go_right a = false) →
  lo ≤ (binsearch go_right arr fuel lo hi).1 ≤ hi ∧
  ∀ i a, arr !! i = Some a →
    (i < (binsearch go_right arr fuel lo hi).1 ↔ go_right a = true).
Proof.
  revert lo hi. induction fuel as [|fuel IH]; intros lo hi Hle Hhi Hfuel Hlo Hup.
  - simpl. assert (lo = hi) as -> by lia. split; [lia|].
    intros i a Hi. split; [by eauto|].
    intros Ha. destruct (decide (i < hi)); [done|].
    rewrite (Hup i a) in Ha by (done || lia). done.
  - cbn [binsearch]. case_decide as Hlt.
    + pose proof (midpoint_between lo hi Hlt) as Hmid.
      set (mid := lo + (hi - lo) / 2) in *. clearbody mid.
      destruct (lookup_lt_is_Some_2 arr mid) as [m Hm]; [lia|].
      rewrite (list_lookup_total_correct _ _ _ Hm).
      destruct (go_right m) eqn:Hgo.
      * destruct (IH (mid + 1) hi) as [? ?]; try lia; [|done|].
        { intros i a Hi Ha. eapply (go_right_prefix i mid); eauto with lia. }
        split; [lia|done].
      * destruct (IH lo mid) as [? ?]; try lia; [done| |].
        { intros i a Hi Ha. destruct (go_right a) eqn:Hga; [|done].
          rewrite (go_right_prefix mid i m a) in Hgo; eauto. }
        split; [lia|done].
    + simpl. assert (lo = hi) as -> by lia. split; [lia|].
      intros i a Hi. split; [by eauto|].
      intros Ha. destruct (decide (i < hi)); [done|].
      rewrite (Hup i a) in Ha by (done || lia). done.
Qed.

(** The index a search ends with is the only one that splits the array. *)
Lemma split_point_unique r r' :
  r ≤ length arr → r' ≤ length arr →
  (∀ i a, arr !! i = Some a → (i < r ↔ go_right a = true)) →
  (∀ i a, arr !! i = Some a → (i < r' ↔ go_right a = true)) →
  r = r'.
Proof.
  intros Hr Hr' H H'.
  destruct (Nat.lt_trichotomy r r') as [Hlt|[->|Hlt]]; [|done|].
  - destruct (lookup_lt_is_Some_2 arr r) as [a Ha]; [lia|].
    apply (H' r a Ha), (H r a Ha) in Hlt. lia.
  - destruct (lookup_lt_is_Some_2 arr r') as [a Ha]; [lia|].
    apply (H r' a Ha), (H' r' a Ha) in Hlt. lia.
Qed.
End bisection.

(** The order of NumPy on binary64 values is a strict weak order. *)
Lemma ltb_not_nan x y :
  (x <? y)%float = true → is_nan x = false ∧ is_nan y = false.
Proof.
  intros H%FloatOrder.ltb_leb. split.
  - by eapply FloatOrder.leb_not_nan_l.
  - by eapply FloatOrder.leb_not_nan_r.
Qed.

Lemma np_less_trans a b c :
  np_less a b = true → np_less b c = true → np_less a c = true.
Proof.
  unfold np_less. intros H1 H2.
  destruct (is_nan b) eqn:Nb.
  - rewrite andb_false_r, orb_false_r in H2.
    apply ltb_not_nan in H2 as [? _]. congruence.
  - rewrite orb_false_r in H1. destruct (ltb_not_nan _ _ H1) as [Na _].
    rewrite Na. simpl in H2. rewrite andb_true_r in H2.
    apply orb_prop in H2 as [H2| ->]; [|by rewrite orb_true_r].
    rewrite (FloatOrder.ltb_leb_trans a b c); [done..|].
    by apply FloatOrder.ltb_leb.
Qed.

Lemma np_less_neg_trans a b c :
  np_less a b = false → np_less b c = false → np_less a c = false.
Proof.
  intros H1 H2. destruct (np_less a c) eqn:H3; [|done].
  unfold np_less in *.
  assert (is_nan a = false) as Na.
  { apply orb_prop in H3 as [[? _]%ltb_not_nan|H3]; [done|].
    apply andb_prop in H3 as [_ H3]. by destruct (is_nan a). }
  rewrite Na in H1, H3.
  destruct (is_nan b) eqn:Nb; [by rewrite orb_true_r in H1|].
  destruct (is_nan c) eqn:Nc; [by rewrite orb_true_r in H2|].
  rewrite orb_false_r in H1, H2, H3.
  rewrite FloatOrder.ltb_negb_leb in H1 by done.
  rewrite (FloatOrder.leb_ltb_trans b a c) in H2; [done| |done].
  by destruct (b <=? a)%float.
Qed.

Lemma y_sorted_np_sorted ys i j a b :
  y_sorted ys = true → i ≤ j → ys !! i = Some a → ys !! j = Some b →
  np_less b a = false.
Proof.
  intros Hs Hij Hi Hj. pose proof (y_sorted_lookup ys i j a b Hs Hij Hi Hj) as H.
  unfold np_less.
  rewrite (FloatOrder.leb_not_ltb _ _ H), (FloatOrder.leb_not_nan_l _ _ H).
  done.
Qed.

(** ** The search for an array of keys *)

Lemma searchsorted_keys_length s arr keys last lo hi :
  length (searchsorted_keys s arr last lo hi keys) = length keys.
Proof.
  revert last lo hi. induction keys as [|key keys IH]; intros last lo hi;
    cbn [searchsorted_keys]; [done|].
  destruct (if side_cmp s last key then _ else _) as [lo' hi'].
  destruct (binsearch _ arr _ lo' hi') as [r1 r2]. simpl. by rewrite IH.
Qed.

Lemma searchsorted_length s arr keys :
  length (searchsorted s arr keys) = length keys.
Proof.
  destruct keys as [|key keys]; [done|]. apply searchsorted_keys_length.
Qed.

(** Whatever the array and the keys hold, an index returned is at most the
    length of the array. *)
Lemma searchsorted_keys_bounds s arr keys last lo hi :
  lo ≤ length arr →
  Forall (λ r, r ≤ length arr) (searchsorted_keys s arr last lo hi keys).
Proof.
  revert last lo hi. induction keys as [|key keys IH]; intros last lo hi Hlo;
    cbn [searchsorted_keys]; [done|].
  assert (∃ lo' hi', (if side_cmp s last key then (lo, length arr)
             else (0, if decide (hi < length arr) then hi + 1 else length arr))
            = (lo', hi') ∧ lo' ≤ hi' ∧ hi' ≤ length arr)
    as (lo' & hi' & -> & Hle & Hhi).
  { destruct (side_cmp s last key); [by eexists _, _|].
    eexists _, _. split; [done|]. case_decide; lia. }
  pose proof (binsearch_bounds (λ v, side_cmp s v key) arr (length arr)
                lo' hi' Hle) as Hb.
  destruct (binsearch _ arr _ lo' hi') as [r1 r2]. simpl in Hb.
  constructor; [lia|]. apply IH. lia.
Qed.

Lemma searchsorted_bounds s arr keys :
  Forall (λ r, r ≤ length arr) (searchsorted s arr keys).
Proof.
  destruct keys as [|key keys]; [done|].
  apply searchsorted_keys_bounds. lia.
Qed.

Section carried_bounds.
Variables (s : side) (arr : list float).
Hypothesis arr_sorted : ∀ i j a b,
  i ≤ j → arr !! i = Some a → arr !! j = Some b → np_less b a = false.

Lemma side_cmp_prefix key i j a b :
  i ≤ j → arr !! i = Some a → arr !! j = Some b →
  side_cmp s b key = true → side_cmp s a key = true.
Proof.
  intros Hij Hi Hj. pose proof (arr_sorted i j a b Hij Hi Hj) as Hba.
  destruct s; simpl.
  - intros Hb. destruct (np_less a key) eqn:Ha; [done|].
    by rewrite (np_less_neg_trans b a key) in Hb.
  - intros Hb%negb_true_iff. by rewrite (np_less_neg_trans key b a).
Qed.

Lemma side_cmp_up k1 k2 a :
  side_cmp s k1 k2 = true → side_cmp s a k1 = true → side_cmp s a k2 = true.
Proof.
  destruct s; simpl.
  - intros H1 H2. by eapply np_less_trans.
  - intros H1%negb_true_iff H2%negb_true_iff.
    by rewrite (np_less_neg_trans k2 k1 a).
Qed.

Lemma side_cmp_down k1 k2 a :
  side_cmp s k1 k2 = false → side_cmp s a k1 = false →
  side_cmp s a k2 = false.
Proof.
  destruct s; simpl.
  - intros H1 H2. by eapply np_less_neg_trans.
  - intros H1%negb_false_iff H2%negb_false_iff.
    by rewrite (np_less_trans k2 k1 a).
Qed.

Lemma searchsorted_one_spec key :
  searchsorted_one s arr key ≤ length arr ∧
  ∀ i a, arr !! i = Some a →
    (i < searchsorted_one s arr key ↔ side_cmp s a key = true).
Proof.
  unfold searchsorted_one.
  destruct (binsearch_spec (λ v, side_cmp s v key) arr) with
    (fuel := length arr) (lo := 0) (hi := length arr) as [Hb Hi]; try lia.
  - intros i j a b. apply side_cmp_prefix.
  - intros i a Hi Ha%lookup_lt_Some. lia.
  - split; [lia|done].
Qed.

(** On a sorted array the bounds kept from the key before do not change
    the result. *)
Lemma searchsorted_keys_scratch keys last lo hi :
  lo ≤ length arr →
  (∀ i a, i < lo → arr !! i = Some a → side_cmp s a last = true) →
  (∀ i a, hi ≤ i → arr !! i = Some a → side_cmp s a last = false) →
  searchsorted_keys s arr last lo hi keys = searchsorted_one s arr <$> keys.
Proof.
  revert last lo hi.
  induction keys as [|key keys IH]; intros last lo hi Hlo Hbelow Habove;
    cbn [searchsorted_keys]; [done|].
  assert (∃ lo' hi', (if side_cmp s last key then (lo, length arr)
             else (0, if decide (hi < length arr) then hi + 1 else length arr))
            = (lo', hi') ∧ lo' ≤ hi' ∧ hi' ≤ length arr ∧
            (∀ i a, i < lo' → arr !! i = Some a → side_cmp s a key = true) ∧
            (∀ i a, hi' ≤ i → arr !! i = Some a → side_cmp s a key = false))
    as (lo' & hi' & -> & Hle & Hhi & Hb' & Ha').
  { destruct (side_cmp s last key) eqn:Hc.
    - eexists _, _. split; [done|]. split; [done|]. split; [done|]. split.
      + intros i a Hi Ha. eapply side_cmp_up; eauto.
      + intros i a Hi Ha%lookup_lt_Some. lia.
    - eexists _, _. split; [done|].
      split; [lia|]. split; [case_decide; lia|]. split; [intros; lia|].
      intros i a Hi Ha. eapply side_cmp_down; [done|].
      pose proof (lookup_lt_Some _ _ _ Ha).
      apply (Habove i a); [|done]. case_decide; lia. }
  destruct (binsearch_spec (λ v, side_cmp s v key) arr) with
    (fuel := length arr) (lo := lo') (hi := hi') as [Hb Hi]; try done; try lia.
  { intros i j a b. apply side_cmp_prefix. }
  pose proof (binsearch_ends (λ v, side_cmp s v key) arr (length arr) lo' hi')
    as Hend.
  destruct (binsearch _ arr _ lo' hi') as [r1 r2]. simpl in *.
  rewrite Hend by lia. clear Hend.
  destruct (searchsorted_one_spec key) as [Hone Hsplit].
  f_equal.
  - apply (split_point_unique (λ v, side_cmp s v key) arr); try done; lia.
  - apply IH; [lia| |].
    + intros i a Hlt Ha. by apply (Hi i a Ha).
    + intros i a Hge Ha. destruct (side_cmp s a key) eqn:E; [|done].
      apply (Hi i a Ha) in E. lia.
Qed.

Lemma searchsorted_scratch keys :
  searchsorted s arr keys = searchsorted_one s arr <$> keys.
Proof.
  destruct keys as [|key keys]; [done|]. unfold searchsorted.
  apply searchsorted_keys_scratch; [lia|intros; lia|].
  intros i a Hi Ha%lookup_lt_Some. lia.
Qed.
End carried_bounds.

Lemma searchsorted_left_spec ys key :
  y_sorted ys = true →
  searchsorted_left ys key ≤ length ys ∧
  ∀ j y, ys !! j = Some y →
    (searchsorted_left ys key ≤ j ↔ (key <=? y)%float = true).
Proof.
  intros Hs.
  destruct (searchsorted_one_spec side_left ys) with (key := key) as [Hb Hi].
  { intros i j a b. by apply y_sorted_np_sorted. }
  split; [done|]. intros j y Hj.
  fold (searchsorted_left ys key) in Hi.
  rewrite <- Nat.nlt_ge, (Hi j y Hj). simpl. unfold np_less.
  assert (is_nan y = false) as Hy.
  { eapply FloatOrder.leb_not_nan_l, (y_sorted_lookup ys j j); eauto. }
  rewrite Hy. simpl. destruct (is_nan key) eqn:Hk.
  - rewrite orb_true_r. split; [done|].
    intros E%FloatOrder.leb_not_nan_l. congruence.
  - rewrite orb_false_r, FloatOrder.ltb_negb_leb by done.
    destruct (key <=? y)%float; simpl; split; done.
Qed.

Lemma searchsorted_right_spec ys key :
  y_sorted ys = true →
  searchsorted_right ys key ≤ length ys ∧
  ∀ j y, ys !! j = Some y →
    (searchsorted_right ys key ≤ j ↔ (key <? y)%float = true).
Proof.
  intros Hs.
  destruct (searchsorted_one_spec side_right ys) with (key := key) as [Hb Hi].
  { intros i j a b. by apply y_sorted_np_sorted. }
  split; [done|]. intros j y Hj.
  fold (searchsorted_right ys key) in Hi.
  rewrite <- Nat.nlt_ge, (Hi j y Hj). simpl. unfold np_less.
  assert (is_nan y = false) as Hy.
  { eapply FloatOrder.leb_not_nan_l, (y_sorted_lookup ys j j); eauto. }
  rewrite Hy. simpl. rewrite orb_false_r.
  destruct (key <? y)%float; simpl; split; done.
Qed.

(** ** The rows of the kernel *)

Lemma node_unchecked_Ok node k p :
  node_unchecked node k = Ok p ↔ node_at node k = Ok p.
Proof.
  unfold node_unchecked, node_at. by destruct (py_index _ k).
Qed.

Lemma node_unchecked_Raise node k e :
  node_unchecked node k = Raise e → e = Unchecked.
Proof.
  unfold node_unchecked. destruct (py_index _ k); [done|]. by intros [= <-].
Qed.

Lemma make_row_Raise vert node veps ed e :
  make_row vert node veps ed = Raise e → e = Unchecked.
Proof.
  unfold make_row. destruct (node_unchecked node ed.1) eqn:H1; simpl.
  - destruct (node_unchecked node ed.2) eqn:H2; simpl; [done|].
    intros [= <-]. by eapply node_unchecked_Raise.
  - intros [= <-]. by eapply node_unchecked_Raise.
Qed.

Lemma make_row_Ok vert node veps e r :
  make_row vert node veps e = Ok r →
  ∃ one two, node_at node e.1 = Ok one ∧ node_at node e.2 = Ok two ∧
    xone r = one.1 ∧ xtwo r = two.1 ∧ yone r = one.2 ∧ ytwo r = two.2 ∧
    ione r = searchsorted_left vert.*2 (one.2 - veps)%float ∧
    itwo r = searchsorted_right vert.*2 (two.2 + veps)%float.
Proof.
  unfold make_row.
  destruct (node_unchecked node e.1) as [one|] eqn:H1; simpl; [|done].
  destruct (node_unchecked node e.2) as [two|] eqn:H2; simpl; [|done].
  apply node_unchecked_Ok in H1, H2.
  intros [= <-]. exists one, two. done.
Qed.

Lemma kernel_rows_inv vert node veps edge rows :
  kernel_rows vert node veps edge = Ok rows →
  ∃ ONE TWO,
    mapM (λ e : Z * Z, node_unchecked node e.1) edge = Ok ONE ∧
    mapM (λ e : Z * Z, node_unchecked node e.2) edge = Ok TWO ∧
    length rows = length edge ∧
    ∀ k one two, ONE !! k = Some one → TWO !! k = Some two →
      rows !! k = Some
        {| xone := one.1; xtwo := two.1; yone := one.2; ytwo := two.2;
           xmin := np_minimum one.1 two.1;
           xmax := np_maximum one.1 two.1 + veps;
           ydel := two.2 - one.2;
           xdel := two.1 - one.1;
           ione := searchsorted side_left vert.*2
                     ((λ y, y - veps)%float <$> ONE.*2) !!! k;
           itwo := searchsorted side_right vert.*2
                     ((λ y, y + veps)%float <$> TWO.*2) !!! k |}.
Proof.
  unfold kernel_rows.
  destruct (mapM (λ e : Z * Z, node_unchecked node e.1) edge) as [ONE|]
    eqn:H1; simpl; [|done].
  destruct (mapM (λ e : Z * Z, node_unchecked node e.2) edge) as [TWO|]
    eqn:H2; simpl; [|done].
  intros [= <-]. exists ONE, TWO. split; [done|]. split; [done|].
  split; [by rewrite length_fmap, length_seq|].
  intros k one two Hone Htwo.
  assert (k < length edge) as Hk.
  { rewrite <- (mapM_Ok_length _ _ _ H1). by eapply lookup_lt_Some. }
  rewrite list_lookup_fmap, lookup_seq_lt by done. simpl. f_equal.
  assert (ONE.*1 !! k = Some one.1) as X1 by (by rewrite list_lookup_fmap, Hone).
  assert (ONE.*2 !! k = Some one.2) as Y1 by (by rewrite list_lookup_fmap, Hone).
  assert (TWO.*1 !! k = Some two.1) as X2 by (by rewrite list_lookup_fmap, Htwo).
  assert (TWO.*2 !! k = Some two.2) as Y2 by (by rewrite list_lookup_fmap, Htwo).
  f_equal; apply list_lookup_total_correct; try done.
  - by rewrite lookup_zip_with, X1, X2.
  - by rewrite list_lookup_fmap, lookup_zip_with, X1, X2.
  - by rewrite lookup_zip_with, Y2, Y1.
  - by rewrite lookup_zip_with, X2, X1.
Qed.

Lemma kernel_rows_Raise vert node veps edge e :
  kernel_rows vert node veps edge = Raise e →
  e = Unchecked ∧
  ∃ ed, ed ∈ edge ∧
    (node_unchecked node ed.1 = Raise Unchecked ∨
     node_unchecked node ed.2 = Raise Unchecked).
Proof.
  unfold kernel_rows.
  destruct (mapM (λ e : Z * Z, node_unchecked node e.1) edge) as [ONE|e1]
    eqn:H1; simpl.
  - destruct (mapM (λ e : Z * Z, node_unchecked node e.2) edge) as [TWO|e2]
      eqn:H2; simpl; [done|].
    intros [= <-]. apply mapM_Raise_inv in H2 as (ed & Hin & Hed).
    pose proof (node_unchecked_Raise _ _ _ Hed) as ->. eauto.
  - intros [= <-]. apply mapM_Raise_inv in H1 as (ed & Hin & Hed).
    pose proof (node_unchecked_Raise _ _ _ Hed) as ->. eauto.
Qed.

(** The kernel returns when every index is in [-M, M). *)
Lemma node_unchecked_in node k :
  index_ok (length node) k → ∃ p, node_unchecked node k = Ok p.
Proof.
  unfold index_ok, node_unchecked, py_index. intros Hk.
  repeat case_decide; eauto; lia.
Qed.

Lemma node_unchecked_out node k :
  ¬ index_ok (length node) k → node_unchecked node k = Raise Unchecked.
Proof.
  unfold index_ok, node_unchecked, py_index. intros Hk.
  repeat case_decide; try done; lia.
Qed.

Lemma kernel_rows_returns vert node veps edge :
  (∀ e, e ∈ edge →
     index_ok (length node) e.1 ∧ index_ok (length node) e.2) →
  ∃ rows, kernel_rows vert node veps edge = Ok rows.
Proof.
  intros Hok.
  destruct (kernel_rows vert node veps edge) as [rows|e] eqn:Hk; [eauto|].
  apply kernel_rows_Raise in Hk as (_ & ed & Hin & Hed).
  destruct (Hok ed Hin) as [[? H1]%(node_unchecked_in node)
                              [? H2]%(node_unchecked_in node)].
  destruct Hed; congruence.
Qed.

(** The entries of a row are those of its edge, and its window lies within
    the query array, whatever this array holds. *)
Lemma kernel_rows_lookup vert node veps edge rows k e :
  kernel_rows vert node veps edge = Ok rows →
  edge !! k = Some e →
  ∃ one two r,
    node_at node e.1 = Ok one ∧ node_at node e.2 = Ok two ∧
    rows !! k = Some r ∧
    xone r = one.1 ∧ xtwo r = two.1 ∧ yone r = one.2 ∧ ytwo r = two.2 ∧
    xmin r = np_minimum one.1 two.1 ∧
    xmax r = (np_maximum one.1 two.1 + veps)%float ∧
    ydel r = (two.2 - one.2)%float ∧ xdel r = (two.1 - one.1)%float ∧
    ione r ≤ length vert ∧ itwo r ≤ length vert.
Proof.
  intros (ONE & TWO & H1 & H2 & Hlen & Hrow)%kernel_rows_inv He.
  pose proof (mapM_Ok_length _ _ _ H1) as L1.
  pose proof (mapM_Ok_length _ _ _ H2) as L2.
  apply mapM_Ok_Forall2 in H1, H2.
  destruct (Forall2_lookup_l _ _ _ _ _ H1 He) as (one & Hone & E1).
  destruct (Forall2_lookup_l _ _ _ _ _ H2 He) as (two & Htwo & E2).
  apply node_unchecked_Ok in E1, E2.
  eexists one, two, _. split; [done|]. split; [done|].
  split; [exact (Hrow k one two Hone Htwo)|]. simpl.
  assert (k < length edge) as Hk by (by eapply lookup_lt_Some).
  repeat (split; [done|]).
  split.
  - pose proof (searchsorted_bounds side_left vert.*2
                  ((λ y, y - veps)%float <$> ONE.*2)) as Hb.
    rewrite Forall_forall in Hb. rewrite <- (length_fmap snd vert).
    apply Hb, list_elem_of_lookup_total_2.
    by rewrite searchsorted_length, !length_fmap, L1.
  - pose proof (searchsorted_bounds side_right vert.*2
                  ((λ y, y + veps)%float <$> TWO.*2)) as Hb.
    rewrite Forall_forall in Hb. rewrite <- (length_fmap snd vert).
    apply Hb, list_elem_of_lookup_total_2.
    by rewrite searchsorted_length, !length_fmap, L2.
Qed.

Lemma kernel_rows_lookup_inv vert node veps edge rows k r :
  kernel_rows vert node veps edge = Ok rows →
  rows !! k = Some r → ∃ e, edge !! k = Some e.
Proof.
  intros (_ & _ & _ & _ & Hlen & _)%kernel_rows_inv Hr%lookup_lt_Some.
  apply lookup_lt_is_Some_2. lia.
Qed.

(** On y-sorted query points the rows of the kernel are the rows of the
    edges, each on its own. *)
Lemma kernel_rows_rowwise vert node veps edge :
  y_sorted vert.*2 = true →
  kernel_rows vert node veps edge = mapM (make_row vert node veps) edge.
Proof.
  intros Hs.
  assert (∀ i j a b, i ≤ j → vert.*2 !! i = Some a → vert.*2 !! j = Some b →
            np_less b a = false) as Hnp.
  { intros i j a b. by apply y_sorted_np_sorted. }
  destruct (kernel_rows vert node veps edge) as [rows|e] eqn:Hk.
  - symmetry. apply mapM_Ok_Forall2.
    apply kernel_rows_inv in Hk as (ONE & TWO & H1 & H2 & Hlen & Hrow).
    apply mapM_Ok_Forall2 in H1, H2.
    pose proof (Forall2_length _ _ _ H1) as L1.
    pose proof (Forall2_length _ _ _ H2) as L2.
    apply Forall2_same_length_lookup. split; [done|].
    intros k ed r Hed Hr.
    destruct (Forall2_lookup_l _ _ _ _ _ H1 Hed) as (one & Hone & E1).
    destruct (Forall2_lookup_l _ _ _ _ _ H2 Hed) as (two & Htwo & E2).
    rewrite (Hrow k one two Hone Htwo) in Hr. injection Hr as <-.
    unfold make_row. rewrite E1, E2. simpl. do 2 f_equal.
    + rewrite (searchsorted_scratch side_left vert.*2 Hnp). symmetry.
      apply list_lookup_total_correct.
      by rewrite !list_lookup_fmap, Hone.
    + rewrite (searchsorted_scratch side_right vert.*2 Hnp). symmetry.
      apply list_lookup_total_correct.
      by rewrite !list_lookup_fmap, Htwo.
  - apply kernel_rows_Raise in Hk as (-> & ed & Hin & Hed).
    destruct (mapM (make_row vert node veps) edge) as [rows|e] eqn:Hm.
    + apply mapM_Ok_Forall2 in Hm.
      apply list_elem_of_lookup in Hin as [k Hk].
      destruct (Forall2_lookup_l _ _ _ _ _ Hm Hk) as (r & _ & Hr).
      unfold make_row in Hr.
      destruct Hed as [Hed|Hed]; rewrite Hed in Hr; simpl in Hr; [done|].
      by destruct (node_unchecked node ed.1).
    + apply mapM_Raise_inv in Hm as (? & _ & Hm).
      by rewrite (make_row_Raise _ _ _ _ _ Hm).
Qed.

Lemma _inpoly_rowwise vert node edge ftol lbar :
  y_sorted vert.*2 = true →
  _inpoly vert node edge ftol lbar
  = (rows ← mapM (make_row vert node (ftol * lbar)%float) edge;
     Ok (foldl (edge_loop (ftol * (lbar * lbar))%float vert)
           (replicate (length vert) false, replicate (length vert) false)
           rows)).
Proof.
  intros Hs. unfold _inpoly. by rewrite (kernel_rows_rowwise _ _ _ _ Hs).
Qed.

(** ** The kernel, one query point at a time *)

Section kernel_cells.
Variables (feps : float) (vert : list point).
Implicit Types (st : list bool * list bool) (r : edge_row).

Lemma test_point_length r st jpos :
  length (test_point feps vert r st jpos).1 = length st.1 ∧
  length (test_point feps vert r st jpos).2 = length st.2.
Proof.
  unfold test_point.
  repeat match goal with
    | |- context [if ?c then _ else _] => destruct c
    end; simpl; by rewrite ?length_insert.
Qed.

Lemma test_point_cell r st jpos j :
  j < length st.1 → j < length st.2 →
  cell (test_point feps vert r st jpos) j =
    if decide (j = jpos)
    then apply_action (classify feps r (vert !!! j)) (cell st j)
    else cell st j.
Proof.
  intros H1 H2. unfold test_point, classify, apply_action, cell.
  destruct st as [stat bnds]; simpl in *.
  destruct (decide (j = jpos)) as [->|Hne].
  - repeat match goal with
      | |- context [if ?c then _ else _] => destruct c eqn:?
      end; simpl;
      rewrite ?list_lookup_total_insert_eq by done; congruence.
  - repeat match goal with
      | |- context [if ?c then _ else _] => destruct c eqn:?
      end; simpl;
      by rewrite ?list_lookup_total_insert_ne by done.
Qed.

Lemma test_points_length r st js :
  length (foldl (test_point feps vert r) st js).1 = length st.1 ∧
  length (foldl (test_point feps vert r) st js).2 = length st.2.
Proof.
  revert st. induction js as [|j js IH]; intros st; simpl; [done|].
  destruct (IH (test_point feps vert r st j)) as [-> ->].
  apply test_point_length.
Qed.

Lemma test_points_cell r st js j :
  NoDup js → j < length st.1 → j < length st.2 →
  cell (foldl (test_point feps vert r) st js) j =
    if bool_decide (j ∈ js)
    then apply_action (classify feps r (vert !!! j)) (cell st j)
    else cell st j.
Proof.
  revert st. induction js as [|j0 js IH]; intros st Hnd H1 H2; cbn [foldl].
  { by rewrite bool_decide_eq_false_2 by apply not_elem_of_nil. }
  apply NoDup_cons in Hnd as [Hnotin Hnd].
  destruct (test_point_length r st j0) as [L1 L2].
  rewrite IH by (done || lia). rewrite test_point_cell by done.
  destruct (decide (j = j0)) as [->|Hne].
  - rewrite (bool_decide_eq_false_2 _ Hnotin).
    by rewrite bool_decide_eq_true_2 by left.
  - destruct (decide (j ∈ js)) as [Hin|Hin].
    + rewrite !bool_decide_eq_true_2; [done|by right|done].
    + rewrite !bool_decide_eq_false_2; [done| |done].
      by intros [?|?]%elem_of_cons.
Qed.

Lemma edge_loop_length r st :
  length (edge_loop feps vert st r).1 = length st.1 ∧
  length (edge_loop feps vert st r).2 = length st.2.
Proof. apply test_points_length. Qed.

Lemma edge_loop_cell r st j :
  j < length st.1 → j < length st.2 →
  cell (edge_loop feps vert st r) j =
    point_step feps (vert !!! j) j (cell st j) r.
Proof.
  intros H1 H2. unfold edge_loop, candidates, point_step, in_window.
  rewrite test_points_cell by (done || apply NoDup_seq).
  destruct (decide (ione r ≤ j < itwo r)) as [Hw|Hw].
  - rewrite !bool_decide_eq_true_2; [done..|]. apply elem_of_seq. lia.
  - rewrite !bool_decide_eq_false_2; [done..|]. rewrite elem_of_seq. lia.
Qed.

Lemma edge_loops_length rows st :
  length (foldl (edge_loop feps vert) st rows).1 = length st.1 ∧
  length (foldl (edge_loop feps vert) st rows).2 = length st.2.
Proof.
  revert st. induction rows as [|r rows IH]; intros st; simpl; [done|].
  destruct (IH (edge_loop feps vert st r)) as [-> ->].
  apply edge_loop_length.
Qed.

Lemma edge_loops_cell rows st j :
  j < length st.1 → j < length st.2 →
  cell (foldl (edge_loop feps vert) st rows) j =
    foldl (point_step feps (vert !!! j) j) (cell st j) rows.
Proof.
  revert st. induction rows as [|r rows IH]; intros st H1 H2; simpl; [done|].
  destruct (edge_loop_length r st) as [L1 L2].
  rewrite IH by lia. by rewrite edge_loop_cell.
Qed.
End kernel_cells.

(** The flags of a point after any sequence of edges: latched by the first
    edge that qualifies, otherwise the parity of the crossings. *)
Lemma apply_action_comm a1 a2 c :
  apply_action a1 (apply_action a2 c) = apply_action a2 (apply_action a1 c).
Proof. by destruct a1, a2, c as [[] []]. Qed.

Lemma point_step_comm feps p j c r1 r2 :
  point_step feps p j (point_step feps p j c r1) r2 =
  point_step feps p j (point_step feps p j c r2) r1.
Proof.
  unfold point_step. destruct (in_window r1 j), (in_window r2 j); try done.
  apply apply_action_comm.
Qed.

Lemma foldl_comm_Permutation {A B} (f : B → A → B) (l1 l2 : list A) :
  (∀ b x y, f (f b x) y = f (f b y) x) →
  l1 ≡ₚ l2 → ∀ b, foldl f b l1 = foldl f b l2.
Proof.
  intros Hf. induction 1 as [|x l1 l2 _ IH|x y l|l1 l2 l3 _ IH1 _ IH2];
    intros b; simpl.
  - done.
  - apply IH.
  - by rewrite Hf.
  - by rewrite IH1.
Qed.

Lemma apply_action_invariant a c : (c.2 = true → c.1 = true) →
  (apply_action a c).2 = true → (apply_action a c).1 = true.
Proof. destruct a, c as [[] []]; simpl; auto. Qed.

Lemma point_steps_invariant feps p j rows c : (c.2 = true → c.1 = true) →
  (foldl (point_step feps p j) c rows).2 = true →
  (foldl (point_step feps p j) c rows).1 = true.
Proof.
  revert c. induction rows as [|r rows IH]; intros c Hc; simpl; [done|].
  apply IH. unfold point_step. destruct (in_window r j); [|done].
  by apply apply_action_invariant.
Qed.

Lemma state_eq_cells (st1 st2 : list bool * list bool) n :
  length st1.1 = n → length st1.2 = n → length st2.1 = n → length st2.2 = n →
  (∀ j, j < n → cell st1 j = cell st2 j) → st1 = st2.
Proof.
  destruct st1 as [s1 b1], st2 as [s2 b2]; simpl. intros L1 L2 L3 L4 H.
  f_equal; apply (list_eq_same_length _ _ n); try done; intros j x y Hj Hx Hy.
  - specialize (H j Hj). unfold cell in H; simpl in H.
    rewrite (list_lookup_total_correct _ _ _ Hx) in H.
    rewrite (list_lookup_total_correct _ _ _ Hy) in H. congruence.
  - specialize (H j Hj). unfold cell in H; simpl in H.
    rewrite (list_lookup_total_correct _ _ _ Hx) in H.
    rewrite (list_lookup_total_correct _ _ _ Hy) in H. congruence.
Qed.

Lemma py_index_Raise len k e : py_index len k = Raise e → e = IndexError.
Proof. unfold py_index. repeat case_decide; congruence. Qed.

Lemma node_at_Raise node k e : node_at node k = Raise e → e = IndexError.
Proof.
  unfold node_at. destruct (py_index _ k) eqn:H; simpl; [done|].
  intros [= <-]. by eapply py_index_Raise.
Qed.

Lemma point_steps_latched feps p j rows r c :
  (c.2 = true → c.1 = true) →
  r ∈ rows → in_window r j = true → classify feps r p = Latch →
  foldl (point_step feps p j) c rows = (true, true).
Proof.
  intros Hc Hin Hw Hl. revert c Hc.
  induction rows as [|r0 rows IH]; intros c Hc; [by inversion Hin|].
  assert (∀ rs, foldl (point_step feps p j) (true, true) rs = (true, true))
    as Hfix.
  { induction rs as [|r1 rs IHrs]; simpl; [done|].
    unfold point_step at 2. destruct (in_window r1 j); simpl; done. }
  apply elem_of_cons in Hin as [<-|Hin]; simpl.
  - unfold point_step at 2. rewrite Hw, Hl.
    destruct c as [[] []]; simpl in *; try apply Hfix.
    by discriminate Hc.
  - apply IH; [done|]. unfold point_step. destruct (in_window r0 j); [|done].
    by apply apply_action_invariant.
Qed.

(** Query points that are not y-sorted are outside what [inpoly] passes:
    the search keeps its bounds from one key to the next, and the order of
    the rows then shows in the result. *)
Lemma unsorted_queries_edge_order_matters :
  let vert := [(-0.5, 0); (0.5, 1); (-0.5, 0.5)]%float in
  let node := [(0, 0); (0.5, 0.5)]%float in
  y_sorted vert.*2 = false ∧
  _inpoly vert node [(0, 1); (1, 1)]%Z ftol_default 0.5
    = Ok ([true; true; false], [false; true; false]) ∧
  _inpoly vert node [(1, 1); (0, 1)]%Z ftol_default 0.5
    = Ok ([true; false; false], [false; false; false]).
Proof. repeat split; by vm_compute. Qed.

(** C8: on the inputs [inpoly] prepares (y-sorted query points, edge
    indices in [-M, M)), the kernel's result does not depend on the order of
    the rows of [edge].  The kernel returns, and permuting the rows leaves
    both arrays as they are; and a point that some edge of the array
    qualifies to latch ends with both flags set, whichever edge reached it
    first. *)
Theorem kernel_edge_order_independent
    (vert node : list point) (edge edge' : list (Z * Z)) (ftol lbar : float) :
  y_sorted vert.*2 = true →
  (∀ e, e ∈ edge →
     index_ok (length node) e.1 ∧ index_ok (length node) e.2) →
  edge ≡ₚ edge' →
  (∃ stat bnds,
     _inpoly vert node edge ftol lbar = Ok (stat, bnds) ∧
     _inpoly vert node edge' ftol lbar = Ok (stat, bnds)) ∧
  (∀ stat bnds rows r j,
     _inpoly vert node edge ftol lbar = Ok (stat, bnds) →
     kernel_rows vert node (ftol * lbar)%float edge = Ok rows →
     r ∈ rows →
     j < length vert → in_window r j = true →
     classify (ftol * (lbar * lbar))%float r (vert !!! j) = Latch →
     stat !! j = Some true ∧ bnds !! j = Some true).
Proof.
  intros Hs Hok Hp.
  destruct (kernel_rows_returns vert node (ftol * lbar)%float edge Hok)
    as [rows Hrows].
  unfold _inpoly. rewrite Hrows.
  pose proof Hrows as Hm. rewrite (kernel_rows_rowwise _ _ _ _ Hs) in Hm.
  destruct (mapM_Permutation _ _ _ _ Hp Hm) as (rows' & Hm' & Hp').
  rewrite <- (kernel_rows_rowwise _ _ _ _ Hs) in Hm'. rewrite Hm'. simpl.
  set (feps := (ftol * (lbar * lbar))%float).
  set (st := (replicate (length vert) false, replicate (length vert) false)).
  destruct (edge_loops_length feps vert rows st) as [L1 L2].
  destruct (edge_loops_length feps vert rows' st) as [L3 L4].
  split.
  - eexists _, _. split; [by rewrite <- surjective_pairing|].
    rewrite <- surjective_pairing. f_equal. symmetry.
    subst st; simpl in *. rewrite length_replicate in *.
    apply (state_eq_cells _ _ (length vert)); try done. intros j Hj.
    rewrite !edge_loops_cell by (simpl; by rewrite length_replicate).
    apply foldl_comm_Permutation; [|done].
    intros; apply point_step_comm.
  - intros stat bnds rows0 r j [= Hk] [= <-] Hin Hj Hw Hl.
    pose proof (edge_loops_cell feps vert rows st j) as Hc.
    rewrite Hk in Hc, L1, L2. subst st; simpl in *.
    rewrite length_replicate in *.
    rewrite (point_steps_latched _ _ _ _ r) in Hc; try done.
    specialize (Hc Hj Hj). unfold cell in Hc; simpl in Hc.
    injection Hc as Hs' Hb.
    split; [rewrite <- Hs'|rewrite <- Hb];
      apply list_lookup_lookup_total_lt; lia.
Qed.

Lemma kernel_edge_order_independent_witness :
  ∃ stat bnds,
    _inpoly unit_square_sorted unit_square [(0, 1); (1, 2)]%Z ftol_default 0.5
    = Ok (stat, bnds) ∧
    _inpoly unit_square_sorted unit_square [(1, 2); (0, 1)]%Z ftol_default 0.5
    = Ok (stat, bnds).
Proof.
  refine (proj1 (kernel_edge_order_independent unit_square_sorted unit_square
                   [(0, 1); (1, 2)]%Z [(1, 2); (0, 1)]%Z ftol_default 0.5
                   _ _ _)).
  - reflexivity.
  - intros e He. unfold index_ok.
    repeat (apply elem_of_cons in He as [->|He]; [simpl; lia|]).
    by apply elem_of_nil in He.
  - apply perm_swap.
Defined.

(** ** The candidate window *)



(** ** Zero-length edges *)

Lemma classify_degenerate feps r q :
  yone r = ytwo r ∨ (yone r =? ytwo r)%float = true →
  classify feps r q ≠ Toggle.
Proof.
  intros H. pose proof (FloatOrder.empty_crossing_range _ _ q.2 H) as Hq.
  unfold classify.
  repeat match goal with
    | |- context [if ?c then _ else _] => destruct c eqn:?
    end; try done.
  rewrite <- andb_assoc, Hq, andb_false_r in *. done.
Qed.

(** C10: an edge whose two endpoints have the same coordinates (as values,
    or as numbers: [0.0] and [-0.0]) toggles no inside flag.  The crossing
    tests [yone <= y < ytwo] fail at every point, so that the row the kernel
    builds for the edge leaves each point as it is, or latches it on the
    boundary; this holds whatever the query array holds. *)
Theorem degenerate_edge_never_toggles
    (vert node : list point) (veps feps : float) (edge : list (Z * Z))
    (rows : list edge_row) (k : nat) (e : Z * Z) (r : edge_row)
    (one two : point) :
  kernel_rows vert node veps edge = Ok rows →
  edge !! k = Some e → rows !! k = Some r →
  node_at node e.1 = Ok one →
  node_at node e.2 = Ok two →
  one = two ∨ ((one.1 =? two.1) && (one.2 =? two.2))%float = true →
  (∀ q, classify feps r q ≠ Toggle) ∧
  (∀ st j, j < length st.1 → j < length st.2 →
     cell (edge_loop feps vert st r) j = cell st j ∨
     (st.2 !!! j = false ∧ cell (edge_loop feps vert st r) j = (true, true))).
Proof.
  intros Hrows He Hr H1 H2 Hsame.
  destruct (kernel_rows_lookup _ _ _ _ _ _ _ Hrows He)
    as (one' & two' & r' & H1' & H2' & Hr' & _ & _ & Hy1 & Hy2 & _).
  assert (r' = r) as -> by congruence.
  assert (one' = one) as -> by congruence.
  assert (two' = two) as -> by congruence.
  assert (yone r = ytwo r ∨ (yone r =? ytwo r)%float = true) as Hy.
  { rewrite Hy1, Hy2. destruct Hsame as [->|[_ ?]%andb_prop]; auto. }
  split; [intros q; by apply classify_degenerate|].
  intros st j L1 L2. rewrite edge_loop_cell by done.
  unfold point_step. destruct (in_window r j); [|by left].
  pose proof (classify_degenerate feps r (vert !!! j) Hy) as Hc.
  unfold apply_action, cell. simpl.
  destruct (st.2 !!! j) eqn:Hb; [by left|].
  destruct (classify feps r (vert !!! j)); [by right|done|by left].
Qed.

Lemma degenerate_edge_never_toggles_witness :
  ∃ rows r,
    kernel_rows unit_square_sorted unit_square 0.25 [(0, 1); (0, 0)]%Z
      = Ok rows ∧
    rows !! 1 = Some r ∧
    ∀ q, classify 0.0625 r q ≠ Toggle.
Proof.
  eexists _, _. split; [by vm_compute|]. split; [reflexivity|].
  refine (proj1 (degenerate_edge_never_toggles unit_square_sorted unit_square
                   0.25 0.0625 [(0, 1); (0, 0)]%Z _ 1 (0, 0)%Z _
                   (0, 0)%float (0, 0)%float _ _ _ _ _ _)).
  - by vm_compute.
  - reflexivity.
  - reflexivity.
  - reflexivity.
  - reflexivity.
  - by left.
Defined.

(** ** The default edge array *)

Lemma wrap32_small z : (- 2 ^ 31 ≤ z < 2 ^ 31)%Z → wrap32 z = z.
Proof. intros H. unfold wrap32. rewrite Z.mod_small; lia. Qed.

Lemma py_index_last M : 1 ≤ M → py_index M (-1) = Ok (M - 1).
Proof.
  intros HM. unfold py_index.
  rewrite decide_False by lia. rewrite decide_True by lia.
  f_equal. lia.
Qed.

Lemma cyclic_chain_lookup M i :
  i < M →
  cyclic_chain M !! i = Some (Z.of_nat i, Z.of_nat ((i + 1) `mod` M)).
Proof.
  intros Hi. unfold cyclic_chain.
  by rewrite list_lookup_fmap, (lookup_seq_lt _ _ _ Hi).
Qed.

Lemma default_edge_chain (M : nat) :
  1 ≤ M → (Z.of_nat M ≤ 2 ^ 31)%Z → default_edge M = Ok (cyclic_chain M).
Proof.
  intros HM H32. pose proof (cyclic_chain_lookup M) as Hc.
  unfold default_edge. rewrite py_index_last by done. simpl. f_equal.
  apply list_eq. intros i.
  set (indx := seqZ 0 (Z.of_nat M - 1)).
  set (zeros := replicate M (0%Z, 0%Z)).
  set (head1 := zip_with _ indx (take (M - 1) zeros)).
  set (head2 := zip_with _ indx head1).
  assert (length indx = M - 1) as Lindx.
  { subst indx. rewrite length_seqZ. lia. }
  assert (length head1 = M - 1) as L1.
  { subst head1 zeros. rewrite length_zip_with, length_take, length_replicate.
    lia. }
  assert (length head2 = M - 1) as L2.
  { subst head2. rewrite length_zip_with. lia. }
  assert (∀ i, i < M - 1 →
            head2 !! i = Some (Z.of_nat i, (Z.of_nat i + 1)%Z)) as Hhead.
  { intros k Hk. subst head2 head1 zeros indx.
    rewrite !lookup_zip_with, lookup_seqZ_lt by lia. simpl.
    rewrite lookup_take_lt, lookup_replicate_2 by lia. simpl.
    rewrite !wrap32_small by lia. do 2 f_equal. lia. }
  destruct (decide (i < M - 1)) as [Hlt|Hge].
  - rewrite list_lookup_insert_ne by lia.
    rewrite lookup_app_l by lia. rewrite Hhead, Hc by lia.
    rewrite Nat.mod_small by lia. do 2 f_equal. lia.
  - destruct (decide (i = M - 1)) as [->|Hne].
    + rewrite list_lookup_insert_eq
        by (rewrite length_app, L2; subst zeros;
            rewrite length_drop, length_replicate; lia).
      rewrite Hc by lia. replace (M - 1 + 1) with M by lia.
      rewrite Nat.Div0.mod_same.
      rewrite wrap32_small by lia.
      do 2 f_equal; [lia|].
      rewrite (list_lookup_total_correct _ _ (0%Z, 0%Z)); [done|].
      rewrite lookup_app_r by lia. rewrite L2, Nat.sub_diag.
      subst zeros. rewrite lookup_drop, lookup_replicate_2 by lia. done.
    + rewrite list_lookup_insert_ne by lia.
      rewrite !lookup_ge_None_2; [done| |].
      * unfold cyclic_chain. rewrite length_fmap, length_seq. lia.
      * rewrite length_app, L2. subst zeros.
         rewrite length_drop, length_replicate. lia.
Qed.

(** C7: with [M] nodes ([1 <= M], and [M] within the [int32] range of the
    array) and no [edge] argument, the edge array built is the closed chain
    [(0,1), (1,2), ..., (M-2,M-1), (M-1,0)]. *)
Theorem default_edge_is_cyclic_chain (M : nat) :
  1 ≤ M → (Z.of_nat M ≤ 2 ^ 31)%Z →
  default_edge M = Ok (cyclic_chain M) ∧
  length (cyclic_chain M) = M ∧
  (∀ i, i < M - 1 →
     cyclic_chain M !! i = Some (Z.of_nat i, Z.of_nat (i + 1))) ∧
  cyclic_chain M !! (M - 1) = Some (Z.of_nat (M - 1), 0%Z).
Proof.
  intros HM H32. split; [by apply default_edge_chain|].
  split; [|split].
  - unfold cyclic_chain. by rewrite length_fmap, length_seq.
  - intros i Hi. rewrite cyclic_chain_lookup by lia.
    by rewrite Nat.mod_small by lia.
  - rewrite cyclic_chain_lookup by lia. replace (M - 1 + 1) with M by lia.
    by rewrite Nat.Div0.mod_same.
Qed.

Lemma default_edge_chain_witness :
  default_edge 4 = Ok [(0, 1); (1, 2); (2, 3); (3, 0)]%Z.
Proof.
  refine (proj1 (default_edge_is_cyclic_chain 4 _ _)); [lia|done].
Defined.

(** ** Sorting, pruning and the reassembly of the result *)

Lemma insert_index_perm key i l : insert_index key i l ≡ₚ i :: l.
Proof.
  induction l as [|j l IH]; simpl; [done|].
  destruct (np_less _ _); [|done].
  rewrite IH. apply perm_swap.
Qed.

Lemma argsort_perm ys : argsort ys ≡ₚ seq 0 (length ys).
Proof.
  unfold argsort. generalize (seq 0 (length ys)) as l.
  induction l as [|i l IH]; simpl; [done|].
  by rewrite insert_index_perm, IH.
Qed.

Lemma argsort_elem ys k : k ∈ argsort ys ↔ k < length ys.
Proof. rewrite argsort_perm, elem_of_seq. lia. Qed.

Lemma fmap_lookup_total_seq `{Inhabited A} (l : list A) :
  (λ k, l !!! k) <$> seq 0 (length l) = l.
Proof.
  apply list_eq. intros i. rewrite list_lookup_fmap.
  destruct (decide (i < length l)) as [Hi|Hi].
  - rewrite lookup_seq_lt by done. simpl.
    symmetry. by apply list_lookup_lookup_total_lt.
  - rewrite lookup_seq_ge by lia. symmetry. apply lookup_ge_None_2. lia.
Qed.

Lemma compress_lookup_index {A} mask (l : list A) s k i :
  length mask = length l →
  compress mask (seq s (length mask)) !! k = Some i →
  compress mask l !! k = l !! (i - s).
Proof.
  revert l s k. induction mask as [|b mask IH]; intros [|x l] s k; simpl;
    try done.
  intros [= Hlen] Hk.
  assert (b = true ∧ k = 0 ∧ i = s ∨ S s ≤ i) as Hi.
  { destruct b; [destruct k as [|k]|]; simpl in Hk.
    - left. by injection Hk as ->.
    - right. apply list_elem_of_lookup_2, compress_seq_elem in Hk. lia.
    - right. apply list_elem_of_lookup_2, compress_seq_elem in Hk. lia. }
  destruct Hi as [(-> & -> & ->)|Hi].
  - by rewrite Nat.sub_diag.
  - replace (i - s) with (S (i - S s)) by lia. simpl.
    destruct b; [destruct k as [|k]|]; simpl in Hk.
    + injection Hk as ->. lia.
    + by apply IH.
    + by apply IH.
Qed.

Lemma mask_indices_elem mask i :
  i ∈ mask_indices mask ↔ mask !! i = Some true.
Proof.
  unfold mask_indices. split.
  - intros [_ H]%compress_seq_elem. by rewrite Nat.sub_0_r in H.
  - intros H. apply (compress_elem mask (seq 0 (length mask)) i).
    + by rewrite length_seq.
    + done.
    + apply lookup_seq_lt. by eapply lookup_lt_Some.
Qed.

Lemma mask_indices_length {A} mask (l : list A) :
  length mask = length l →
  length (mask_indices mask) = length (compress mask l).
Proof.
  intros H. unfold mask_indices. apply compress_length_eq.
  by rewrite length_seq.
Qed.

(** What the kernel returns. *)
Lemma _inpoly_Ok vert node edge ftol lbar stat bnds :
  _inpoly vert node edge ftol lbar = Ok (stat, bnds) →
  length stat = length vert ∧ length bnds = length vert ∧
  ∀ j, bnds !! j = Some true → stat !! j = Some true.
Proof.
  unfold _inpoly. destruct (kernel_rows _ _ _ edge) as [rows|] eqn:Hrows;
    simpl; [|done].
  intros [= Hk].
  set (feps := (ftol * (lbar * lbar))%float) in *.
  set (st := (replicate (length vert) false, replicate (length vert) false))
    in *.
  destruct (edge_loops_length feps vert rows st) as [L1 L2].
  rewrite Hk in L1, L2. simpl in L1, L2. rewrite length_replicate in L1, L2.
  split; [done|]. split; [done|]. intros j Hj.
  assert (j < length vert) as Hlt.
  { rewrite <- L2. by eapply lookup_lt_Some. }
  pose proof (edge_loops_cell feps vert rows st j) as Hc.
  rewrite Hk in Hc. unfold st at 1 2 in Hc. simpl length in Hc.
  rewrite !length_replicate in Hc. specialize (Hc Hlt Hlt).
  pose proof (point_steps_invariant feps (vert !!! j) j rows (cell st j)) as Hi.
  rewrite <- Hc in Hi. unfold cell, st in Hi. simpl in Hi.
  rewrite (list_lookup_total_correct _ _ _ Hj) in Hi.
  rewrite lookup_total_replicate_2 in Hi by done.
  rewrite <- Hi; [apply list_lookup_lookup_total_lt; lia|done..].
Qed.

(** What the preprocessing returns. *)
Lemma preprocess_Ok vert node edge p :
  preprocess vert node edge = Ok p →
  ∃ bb edge0 (flip : bool),
    node_bbox node = Ok bb ∧
    match edge with
    | None => default_edge (length node)
    | Some e => Ok e
    end = Ok edge0 ∧
    let cv := compress (in_bbox bb <$> vert) vert in
    let pv := if flip then swap_xy <$> cv else cv in
    cv ≠ [] ∧
    p_mask p = in_bbox bb <$> vert ∧
    p_ivec p = argsort pv.*2 ∧
    p_vert p = (λ i, pv !!! i) <$> argsort pv.*2 ∧
    p_node p = (if flip then swap_xy <$> node else node) ∧
    length (p_edge p) = length edge0 ∧
    (∀ k e, p_edge p !! k = Some e →
       edge0 !! k = Some e ∨ edge0 !! k = Some (e.2, e.1)) ∧
    (∃ vmin0 vmin1 vmax0 vmax1,
       amin cv.*1 = Ok vmin0 ∧ amin cv.*2 = Ok vmin1 ∧
       amax cv.*1 = Ok vmax0 ∧ amax cv.*2 = Ok vmax1 ∧
       flip = (vmax1 - vmin1 <? vmax0 - vmin0)%float ∧
       p_lbar p = ((vmax0 - vmin0 + (vmax1 - vmin1)) / 2)%float) ∧
    orient_rows (p_node p) edge0 = Ok (p_edge p).
Proof.
  unfold preprocess, orient_rows.
  destruct (match edge with None => _ | Some e => _ end) as [edge0|];
    simpl; [|done].
  destruct (node_bbox node) as [bb|]; simpl; [|done].
  set (cv := compress (in_bbox bb <$> vert) vert).
  destruct (amin cv.*1) as [vmin0|] eqn:Hmin; simpl; [|done].
  destruct (amin cv.*2) as [vmin1|] eqn:Hmin1; simpl; [|done].
  destruct (amax cv.*1) as [vmax0|] eqn:Hmax0; simpl; [|done].
  destruct (amax cv.*2) as [vmax1|] eqn:Hmax1; simpl; [|done].
  set (flip := (vmax1 - vmin1 <? vmax0 - vmin0)%float).
  destruct (mapM (λ e : Z * Z, snd <$> node_at _ e.2) edge0) as [ytwo|] eqn:H2;
    simpl; [|done].
  destruct (mapM (λ e : Z * Z, snd <$> node_at _ e.1) edge0) as [yone|] eqn:H1;
    simpl; [|done].
  intros [= <-]. exists bb, edge0, flip. simpl.
  split; [done|]. split; [done|].
  split. { intros Hcv. unfold cv in Hmin. by rewrite Hcv in Hmin. }
  do 4 (split; [done|]).
  split; [|split; [|split]].
  { apply mapM_Ok_length in H1, H2. rewrite !length_zip_with. lia. }
  2:{ by exists vmin0, vmin1, vmax0, vmax1. }
  2:{ fold flip. rewrite H2. simpl. by rewrite H1. }
  intros k e. rewrite !lookup_zip_with.
  destruct (ytwo !! k) as [y2|]; simpl; [|done].
  destruct (yone !! k) as [y1|]; simpl; [|done].
  destruct (edge0 !! k) as [[a b]|]; simpl; [|done].
  destruct (y2 <? y1)%float; intros [= <-]; simpl; auto.
Qed.

Lemma inpoly_Ok vert node edge ftol STAT BNDS :
  inpoly vert node edge ftol = Ok (STAT, BNDS) →
  ∃ p stmp btmp,
    preprocess vert node edge = Ok p ∧
    _inpoly (p_vert p) (p_node p) (p_edge p) ftol (p_lbar p) = Ok (stmp, btmp) ∧
    (STAT, BNDS) = assemble (length vert) p stmp btmp.
Proof.
  unfold inpoly, inpoly_run.
  destruct (preprocess vert node edge) as [p|] eqn:Hp; simpl; [|done].
  destruct (_inpoly _ _ _ _ _) as [[stmp btmp]|] eqn:Hk; simpl; [|done].
  intros H. exists p, stmp, btmp. split; [done|]. split; [done|].
  unfold assemble in *. congruence.
Qed.

(** The kernel positions and the query indices they stand for. *)
Section origin.
Variables (vert node : list point) (edge : option (list (Z * Z))).
Variable p : prepared.
Hypothesis Hp : preprocess vert node edge = Ok p.

Lemma mask_length : length (p_mask p) = length vert.
Proof.
  destruct (preprocess_Ok _ _ _ _ Hp) as (bb & ? & ? & _ & _ & H).
  destruct H as (_ & -> & _). by rewrite length_fmap.
Qed.

Lemma ivec_perm : p_ivec p ≡ₚ seq 0 (length (mask_indices (p_mask p))).
Proof.
  destruct (preprocess_Ok _ _ _ _ Hp) as (bb & ? & flip & _ & _ & H).
  destruct H as (_ & Hm & -> & _). rewrite argsort_perm.
  rewrite (mask_indices_length _ vert) by apply mask_length.
  rewrite Hm. destruct flip; by rewrite !length_fmap.
Qed.

Lemma vert_length : length (p_vert p) = length (p_ivec p).
Proof.
  destruct (preprocess_Ok _ _ _ _ Hp) as (bb & ? & flip & _ & _ & H).
  destruct H as (_ & _ & -> & -> & _). by rewrite length_fmap.
Qed.

Lemma origin_perm : origin p ≡ₚ mask_indices (p_mask p).
Proof.
  unfold origin. rewrite ivec_perm. by rewrite fmap_lookup_total_seq.
Qed.

Lemma origin_length : length (origin p) = length (p_vert p).
Proof. unfold origin. by rewrite length_fmap, vert_length. Qed.

Lemma origin_NoDup : NoDup (origin p).
Proof. rewrite origin_perm. apply compress_seq_NoDup. Qed.

Lemma origin_elem i : i ∈ origin p ↔ p_mask p !! i = Some true.
Proof. rewrite origin_perm. apply mask_indices_elem. Qed.

Lemma origin_lookup k i :
  origin p !! k = Some i →
  ∃ k', p_ivec p !! k = Some k' ∧ mask_indices (p_mask p) !! k' = Some i.
Proof.
  unfold origin. rewrite list_lookup_fmap.
  destruct (p_ivec p !! k) as [k'|] eqn:Hk; simpl; [|done].
  intros [= <-]. exists k'. split; [done|].
  apply list_lookup_lookup_total_lt.
  apply list_elem_of_lookup_2 in Hk. rewrite ivec_perm in Hk.
  apply elem_of_seq in Hk. lia.
Qed.

Lemma origin_vert k i :
  origin p !! k = Some i →
  ∃ q, vert !! i = Some q ∧
    (p_vert p !! k = Some q ∨ p_vert p !! k = Some (swap_xy q)).
Proof.
  intros (k' & Hk & Hi)%origin_lookup.
  destruct (preprocess_Ok _ _ _ _ Hp) as (bb & ? & flip & _ & _ & H).
  destruct H as (_ & Hm & Hiv & Hv & _).
  set (cv := compress (in_bbox bb <$> vert) vert) in *.
  assert (cv !! k' = vert !! i) as Hcv.
  { unfold cv. rewrite <- Hm.
    rewrite (compress_lookup_index _ _ 0 k' i), Nat.sub_0_r;
      [done|apply mask_length|done]. }
  assert (k' < length cv) as Hlt.
  { unfold cv. rewrite <- Hm, <- (mask_indices_length _ vert)
      by apply mask_length. by eapply lookup_lt_Some. }
  destruct (lookup_lt_is_Some_2 cv k' Hlt) as [q Hq].
  exists q. split; [congruence|].
  rewrite Hv, <- Hiv, list_lookup_fmap, Hk. simpl.
  destruct flip; [right|left]; f_equal.
  - apply list_lookup_total_correct. by rewrite list_lookup_fmap, Hq.
  - by apply list_lookup_total_correct.
Qed.

(** One of the two result arrays: [dst[ivec] = tmp], then
    [DST[mask] = dst]. *)
Lemma scatter_length (tmp : list bool) :
  length (put_mask (p_mask p)
            (put_index (p_ivec p) tmp (replicate (length (p_vert p)) false))
            (replicate (length vert) false)) = length vert.
Proof. by rewrite put_mask_length, length_replicate. Qed.

Lemma scatter_lookup (tmp : list bool) k i :
  length tmp = length (p_vert p) →
  origin p !! k = Some i →
  put_mask (p_mask p)
    (put_index (p_ivec p) tmp (replicate (length (p_vert p)) false))
    (replicate (length vert) false) !! i = tmp !! k.
Proof.
  intros Htmp (k' & Hk & Hi)%origin_lookup.
  assert (k' < length (p_vert p)) as Hlt.
  { rewrite vert_length, (Permutation_length ivec_perm), length_seq.
    by eapply lookup_lt_Some. }
  rewrite <- (Nat.sub_0_r i).
  rewrite (put_mask_lookup_true _ _ _ 0 k').
  - apply put_index_lookup; try done.
    + rewrite ivec_perm. apply NoDup_seq.
    + by rewrite <- vert_length.
    + by rewrite length_replicate.
  - by rewrite length_replicate, mask_length.
  - done.
  - by rewrite put_index_length, length_replicate.
Qed.

Lemma scatter_lookup_pruned (tmp : list bool) i :
  i < length vert → i ∉ origin p →
  put_mask (p_mask p)
    (put_index (p_ivec p) tmp (replicate (length (p_vert p)) false))
    (replicate (length vert) false) !! i = Some false.
Proof.
  intros Hi Hnot. rewrite put_mask_lookup_false.
  - by apply lookup_replicate_2.
  - by rewrite <- origin_elem.
Qed.
End origin.

(** ** The result of a call *)

(** C2: when [inpoly] returns, both arrays have the length of the query
    array and every point on the boundary is inside.  The arrays follow the
    order of the queries: the point the kernel sees at position [k] is the
    query of index [origin p !!! k] (its coordinates exchanged when the axes
    were flipped), the two flags of that query are the kernel's at [k], no
    two positions stand for one query, and a query behind no position has
    both flags false. *)
Theorem inpoly_result_aligned
    (vert node : list point) (edge : option (list (Z * Z))) (ftol : float)
    (STAT BNDS : list bool) :
  inpoly vert node edge ftol = Ok (STAT, BNDS) →
  length STAT = length vert ∧ length BNDS = length vert ∧
  (∀ i, BNDS !! i = Some true → STAT !! i = Some true) ∧
  ∃ p stmp btmp,
    preprocess vert node edge = Ok p ∧
    _inpoly (p_vert p) (p_node p) (p_edge p) ftol (p_lbar p)
      = Ok (stmp, btmp) ∧
    NoDup (origin p) ∧ length (origin p) = length (p_vert p) ∧
    (∀ k i, origin p !! k = Some i →
       (∃ q, vert !! i = Some q ∧
          (p_vert p !! k = Some q ∨ p_vert p !! k = Some (swap_xy q))) ∧
       STAT !! i = stmp !! k ∧ BNDS !! i = btmp !! k) ∧
    (∀ i, i < length vert → i ∉ origin p →
       STAT !! i = Some false ∧ BNDS !! i = Some false).
Proof.
  intros (p & stmp & btmp & Hp & Hk & Hres)%inpoly_Ok.
  destruct (_inpoly_Ok _ _ _ _ _ _ _ Hk) as (Ls & Lb & Hinv).
  unfold assemble in Hres. injection Hres as -> ->.
  pose proof (scatter_lookup _ _ _ _ Hp stmp) as Hs.
  pose proof (scatter_lookup _ _ _ _ Hp btmp) as Hb.
  pose proof (scatter_lookup_pruned _ _ _ _ Hp stmp) as Hs0.
  pose proof (scatter_lookup_pruned _ _ _ _ Hp btmp) as Hb0.
  split; [apply scatter_length|]. split; [apply scatter_length|].
  split.
  - intros i Hi.
    assert (i < length vert) as Hlt.
    { apply lookup_lt_Some in Hi. by rewrite scatter_length in Hi. }
    destruct (decide (i ∈ origin p)) as [Hin|Hout].
    + apply list_elem_of_lookup in Hin as [k Hin].
      rewrite (Hb k i Lb Hin) in Hi. rewrite (Hs k i Ls Hin). by apply Hinv.
    + rewrite (Hb0 i Hlt Hout) in Hi. done.
  - exists p, stmp, btmp. split; [done|]. split; [done|].
    split; [by eapply origin_NoDup|]. split; [by eapply origin_length|].
    split.
    + intros k i Hin. split; [by eapply origin_vert|]. split; auto.
    + intros i Hlt Hout. split; auto.
Qed.

Lemma inpoly_result_aligned_witness :
  length [true; true; false; true] = length unit_square_queries ∧
  length [false; true; false; true] = length unit_square_queries ∧
  ∀ i, [false; true; false; true] !! i = Some true →
       [true; true; false; true] !! i = Some true.
Proof.
  assert (inpoly unit_square_queries unit_square None ftol_default
          = Ok ([true; true; false; true], [false; true; false; true])) as H
    by (by vm_compute).
  destruct (inpoly_result_aligned _ _ _ _ _ _ H) as (H1 & H2 & H3 & _).
  exact (conj H1 (conj H2 H3)).
Defined.

Lemma strictly_outside_not_in_bbox bb q :
  strictly_outside bb q = true → in_bbox bb q = false.
Proof.
  destruct bb as [[[x0 y0] x1] y1]. unfold strictly_outside, in_bbox.
  intros H. repeat apply orb_prop in H as [H|H];
    apply FloatOrder.ltb_not_leb in H; rewrite H;
    by rewrite ?andb_false_r, ?andb_false_l.
Qed.

(** The pruning, for a call that returns: a query point strictly outside
    the bounding box of the nodes (and any other point one of the four
    comparisons rejects) is not handed to the kernel and has both flags
    false; a point the four inclusive comparisons accept, the sides of the
    box included, is handed to the kernel. *)
Lemma bbox_pruning
    (vert node : list point) (edge : option (list (Z * Z))) (ftol : float)
    (STAT BNDS : list bool) :
  inpoly vert node edge ftol = Ok (STAT, BNDS) →
  ∃ x0 y0 x1 y1 p,
    node_bbox node = Ok (x0, y0, x1, y1) ∧
    preprocess vert node edge = Ok p ∧
    ∀ i q, vert !! i = Some q →
      (strictly_outside (x0, y0, x1, y1) q = true →
         in_bbox (x0, y0, x1, y1) q = false) ∧
      (in_bbox (x0, y0, x1, y1) q = false →
         STAT !! i = Some false ∧ BNDS !! i = Some false ∧ i ∉ origin p) ∧
      ((x0 <=? q.1)%float = true → (y0 <=? q.2)%float = true →
       (q.1 <=? x1)%float = true → (q.2 <=? y1)%float = true →
         i ∈ origin p).
Proof.
  intros (p & stmp & btmp & Hp & Hk & Hres)%inpoly_Ok.
  unfold assemble in Hres. injection Hres as -> ->.
  destruct (preprocess_Ok _ _ _ _ Hp) as ([[[x0 y0] x1] y1] & ? & ? & Hbb & _ & H).
  destruct H as (_ & Hm & _).
  exists x0, y0, x1, y1, p. split; [done|]. split; [done|].
  intros i q Hq.
  assert (p_mask p !! i = Some (in_bbox (x0, y0, x1, y1) q)) as Hmi.
  { by rewrite Hm, list_lookup_fmap, Hq. }
  split; [apply strictly_outside_not_in_bbox|]. split.
  - intros Hout.
    assert (i ∉ origin p) as Hnot.
    { rewrite (origin_elem _ _ _ _ Hp). congruence. }
    apply lookup_lt_Some in Hq.
    split; [|split; [|done]]; by eapply scatter_lookup_pruned.
  - intros H1 H2 H3 H4. rewrite (origin_elem _ _ _ _ Hp), Hmi.
    unfold in_bbox. by rewrite H1, H2, H3, H4.
Qed.

Lemma bbox_pruning_witness :
  [true; true; false; true] !! 2 = Some false ∧
  [false; true; false; true] !! 2 = Some false.
Proof.
  assert (inpoly unit_square_queries unit_square None ftol_default
          = Ok ([true; true; false; true], [false; true; false; true])) as H
    by (by vm_compute).
  destruct (bbox_pruning _ _ _ _ _ _ H)
    as (x0 & y0 & x1 & y1 & p & Hbb & _ & Hq).
  vm_compute in Hbb. injection Hbb as <- <- <- <-.
  destruct (Hq 2 (2, 2)%float eq_refl) as (_ & Hout & _).
  destruct Hout as (HS & HB & _); [by vm_compute|].
  exact (conj HS HB).
Defined.

(** The edge array after a call that was given one: row by row, the row
    passed or that row reversed. *)
Lemma inpoly_run_edge_buffer vert node es ftol out :
  inpoly_run vert node (Some es) ftol = Ok out →
  length (edge_buffer out) = length es ∧
  ∀ k e, edge_buffer out !! k = Some e →
    es !! k = Some e ∨ es !! k = Some (e.2, e.1).
Proof.
  unfold inpoly_run.
  destruct (preprocess vert node (Some es)) as [p|] eqn:Hp; simpl; [|done].
  destruct (_inpoly _ _ _ _ _) as [sb|]; simpl; [|done].
  intros [= <-]. simpl.
  destruct (preprocess_Ok _ _ _ _ Hp) as (bb & edge0 & flip & _ & He & H).
  injection He as <-. by destruct H as (_ & _ & _ & _ & _ & Hlen & Hrows & _).
Qed.

(** ** Exceptions *)

Lemma fails_bind {A B} (m : result A) (f : A → result B) :
  fails m ∨ (∀ a, m = Ok a → fails (f a)) → fails (m ≫= f).
Proof.
  intros [[e ->]|H]; [by exists e|].
  destruct m as [a|e]; simpl; [by apply H|by exists e].
Qed.

Lemma fails_fmap {A B} (m : result A) (f : A → B) :
  fails m → fails (f <$> m).
Proof. intros [e ->]. by exists e. Qed.

Lemma py_index_out M k : ¬ index_ok M k → py_index M k = Raise IndexError.
Proof.
  unfold index_ok, py_index. intros H. by rewrite !decide_False by lia.
Qed.

Lemma py_index_in M k : index_ok M k → ∃ i, py_index M k = Ok i ∧ i < M.
Proof.
  unfold index_ok, py_index. intros H.
  destruct (decide (0 ≤ k)%Z).
  - rewrite decide_True by lia. eexists. split; [done|lia].
  - rewrite decide_False by lia. rewrite decide_True by lia.
    eexists. split; [done|lia].
Qed.

Lemma preprocess_fails_inpoly vert node edge ftol :
  fails (preprocess vert node edge) → fails (inpoly vert node edge ftol).
Proof.
  intros H. unfold inpoly, inpoly_run. apply fails_fmap, fails_bind. by left.
Qed.

Lemma preprocess_no_node vert edge : fails (preprocess vert [] edge).
Proof.
  unfold preprocess. destruct edge as [es|].
  - by exists ValueError.
  - assert (default_edge 0 = Raise IndexError) as Hd by done.
    cbn [length]. rewrite Hd. by exists IndexError.
Qed.

Lemma preprocess_no_survivor vert node edge :
  (∀ bb, node_bbox node = Ok bb → compress (in_bbox bb <$> vert) vert = []) →
  fails (preprocess vert node edge).
Proof.
  intros H. unfold preprocess.
  apply fails_bind. right. intros edge0 _.
  apply fails_bind. right. intros bb Hbb.
  rewrite (H bb Hbb). by exists ValueError.
Qed.

Lemma preprocess_bad_index vert node es e :
  e ∈ es → ¬ (index_ok (length node) e.1 ∧ index_ok (length node) e.2) →
  fails (preprocess vert node (Some es)).
Proof.
  intros Hin Hbad. unfold preprocess. simpl.
  apply fails_bind. right. intros bb _.
  apply fails_bind. right. intros vmin0 _.
  apply fails_bind. right. intros vmin1 _.
  apply fails_bind. right. intros vmax0 _.
  apply fails_bind. right. intros vmax1 _.
  set (node' := if (_ <? _)%float then swap_xy <$> node else node).
  assert (length node' = length node) as Hlen.
  { subst node'. destruct (_ <? _)%float; by rewrite ?length_fmap. }
  destruct (decide (index_ok (length node) e.2)) as [H2|H2].
  - assert (¬ index_ok (length node) e.1) as H1 by tauto.
    apply fails_bind. right. intros ytwo _.
    apply fails_bind. left.
    apply (mapM_fails _ _ e Hin). unfold node_at.
    rewrite Hlen, py_index_out by done. by exists IndexError.
  - apply fails_bind. left.
    apply (mapM_fails _ _ e Hin). unfold node_at.
    rewrite Hlen, py_index_out by done. by exists IndexError.
Qed.

Lemma node_bbox_Raise node e : node_bbox node = Raise e → e = ValueError.
Proof. destruct node; [by intros [= <-]|done]. Qed.

Lemma reduce_Raise f l e : reduce f l = Raise e → e = ValueError.
Proof. destruct l; [by intros [= <-]|done]. Qed.

Lemma mapM_node_at_Raise node (g : Z * Z → Z) es e :
  mapM (λ x : Z * Z, snd <$> node_at node (g x)) es = Raise e → e = IndexError.
Proof.
  intros (x & _ & Hx)%mapM_Raise_inv.
  destruct (node_at node (g x)) eqn:Hn; simpl in Hx; [done|].
  injection Hx as <-. by eapply node_at_Raise.
Qed.

(** What the preprocessing raises is an exception of NumPy. *)
Lemma preprocess_Raise vert node edge e :
  preprocess vert node edge = Raise e → e = ValueError ∨ e = IndexError.
Proof.
  unfold preprocess.
  destruct (match edge with None => _ | Some e => _ end) as [edge0|e0] eqn:He;
    simpl.
  2:{ intros [= <-]. right. destruct edge as [es|]; [done|].
      unfold default_edge in He.
      destruct (py_index (length node) (-1)) eqn:Hi; simpl in He; [done|].
      injection He as <-. by eapply py_index_Raise. }
  destruct (node_bbox node) as [bb|e1] eqn:Hbb; simpl.
  2:{ intros [= <-]. left. by eapply node_bbox_Raise. }
  set (cv := compress (in_bbox bb <$> vert) vert).
  unfold amin, amax.
  destruct (reduce np_minimum cv.*1) as [vmin0|] eqn:R1; simpl.
  2:{ intros [= <-]. left. by eapply reduce_Raise. }
  destruct (reduce np_minimum cv.*2) as [vmin1|] eqn:R2; simpl.
  2:{ intros [= <-]. left. by eapply reduce_Raise. }
  destruct (reduce np_maximum cv.*1) as [vmax0|] eqn:R3; simpl.
  2:{ intros [= <-]. left. by eapply reduce_Raise. }
  destruct (reduce np_maximum cv.*2) as [vmax1|] eqn:R4; simpl.
  2:{ intros [= <-]. left. by eapply reduce_Raise. }
  destruct (mapM (λ e : Z * Z, snd <$> node_at _ e.2) edge0) as [ytwo|]
    eqn:H2; simpl.
  2:{ intros [= <-]. right. by eapply (mapM_node_at_Raise _ snd). }
  destruct (mapM (λ e : Z * Z, snd <$> node_at _ e.1) edge0) as [yone|]
    eqn:H1; simpl; [done|].
  intros [= <-]. right. by eapply (mapM_node_at_Raise _ fst).
Qed.

Lemma preprocess_fails_raises vert node edge ftol :
  fails (preprocess vert node edge) →
  raises (preprocess vert node edge) ∧ raises (inpoly vert node edge ftol).
Proof.
  intros [e He]. unfold raises, inpoly, inpoly_run. rewrite He. simpl.
  destruct (preprocess_Raise _ _ _ _ He) as [-> | ->]; auto.
Qed.

(** C1, as the code has it: there is no validation of the arguments and no
    error of its own.  A call raises (NumPy's [IndexError] or [ValueError])
    in the preprocessing, before the kernel, and returns nothing, when there
    is no node, when there is no query point, or when an index of the edge
    array passed is out of [-M, M). *)
Theorem malformed_input_raises
    (vert node : list point) (edge : option (list (Z * Z))) (ftol : float) :
  length node = 0 ∨ length vert = 0 ∨
  (∃ es e, edge = Some es ∧ e ∈ es ∧
     ¬ (index_ok (length node) e.1 ∧ index_ok (length node) e.2)) →
  raises (preprocess vert node edge) ∧ raises (inpoly vert node edge ftol).
Proof.
  intros H. apply preprocess_fails_raises.
  destruct H as [H|[H|(es & e & -> & Hin & Hbad)]].
  - destruct node; [|done]. apply preprocess_no_node.
  - destruct vert; [|done]. by apply preprocess_no_survivor.
  - by eapply preprocess_bad_index.
Qed.

Lemma malformed_input_raises_witness :
  raises (inpoly [(0, 0.5)%float] [(0, 0); (0, 1)]%float
            (Some [(2, 0)%Z]) ftol_default).
Proof.
  refine (proj2 (malformed_input_raises _ _ _ _ _)).
  right; right. exists [(2, 0)%Z], (2, 0)%Z.
  split; [reflexivity|]. split; [left|].
  unfold index_ok; simpl. lia.
Defined.

(** A single node is accepted, and so is an edge index in [-M, 0): the
    statement of C1 fails on both calls. *)
Lemma single_node_and_negative_index_accepted :
  spec_invalid [(0, 0)%float] [(0, 0)%float] None ∧
  inpoly [(0, 0)%float] [(0, 0)%float] None ftol_default
    = Ok ([true], [true]) ∧
  spec_invalid [(0, 0.5)%float] [(0, 0); (0, 1)]%float (Some [(-1, 0)%Z]) ∧
  inpoly [(0, 0.5)%float] [(0, 0); (0, 1)]%float (Some [(-1, 0)%Z]) ftol_default
    = Ok ([true], [true]).
Proof.
  split; [left; simpl; lia|]. split; [by vm_compute|].
  split; [|by vm_compute].
  right; left. exists [(-1, 0)%Z], (-1, 0)%Z.
  split; [done|]. split; [left|]. simpl. lia.
Qed.

(** ** The calls of the examples *)

(** C5: the unit square with the default edges and tolerance. *)
Theorem unit_square_example :
  inpoly unit_square_queries unit_square None ftol_default
    = Ok ([true; true; false; true], [false; true; false; true]).
Proof. by vm_compute. Qed.

(** C3, at two calls with valid inputs.  With a single retained point the
    bounding box of the retained points has zero extent, [lbar] is [0], and
    the call returns.  With every query point outside the bounding box of
    the nodes nothing is retained, and the reduction over the empty array
    of retained points raises [ValueError]. *)
Theorem zero_extent_returns_no_survivor_raises :
  (2 ≤ length unit_square) ∧
  p_lbar <$> preprocess [(0.5, 0.5)%float] unit_square None = Ok 0%float ∧
  inpoly [(0.5, 0.5)%float] unit_square None ftol_default
    = Ok ([true], [false]) ∧
  inpoly [(2, 2)%float] unit_square None ftol_default = Raise ValueError ∧
  inpoly [(2, 2)%float] unit_square
    (Some [(0, 1); (1, 2); (2, 3); (3, 0)]%Z) ftol_default = Raise ValueError.
Proof. split; [simpl; lia|]. repeat split; by vm_compute. Qed.

(** C4, at a call with an edge array whose row is not oriented: after the
    call the array holds the row reversed. *)
Theorem edge_array_reoriented_in_place :
  edge_buffer <$> inpoly_run [(0, 0.5)%float] [(0, 0); (0, 1)]%float
                    (Some [(1, 0)%Z]) ftol_default
    = Ok [(0, 1)%Z].
Proof. by vm_compute. Qed.

(** ** Calls that return *)

Lemma reduce_Ok f l : l ≠ [] → ∃ x, reduce f l = Ok x.
Proof. destruct l as [|y l]; [done|]. intros _. by eexists. Qed.

Lemma node_at_Ok node k : index_ok (length node) k → ∃ q, node_at node k = Ok q.
Proof.
  intros (i & Hi & _)%py_index_in. unfold node_at. rewrite Hi. by eexists.
Qed.

Lemma make_row_returns vert node veps e :
  index_ok (length node) e.1 → index_ok (length node) e.2 →
  ∃ r, make_row vert node veps e = Ok r.
Proof.
  intros [one H1]%node_unchecked_in [two H2]%node_unchecked_in.
  unfold make_row. rewrite H1, H2. by eexists.
Qed.

Lemma cyclic_chain_index_ok M e :
  e ∈ cyclic_chain M → index_ok M e.1 ∧ index_ok M e.2.
Proof.
  unfold cyclic_chain. intros (i & -> & Hi%elem_of_seq)%list_elem_of_fmap.
  unfold index_ok; simpl.
  pose proof (Nat.mod_upper_bound (i + 1) M). lia.
Qed.

Lemma node_bbox_Ok_length node bb : node_bbox node = Ok bb → 1 ≤ length node.
Proof. destruct node; [done|simpl; lia]. Qed.

(** With a node, a query point in the bounding box of the nodes, and edge
    indices that NumPy takes, the preprocessing returns. *)
Lemma preprocess_returns vert node edge bb :
  node_bbox node = Ok bb →
  (∃ q, q ∈ vert ∧ in_bbox bb q = true) →
  match edge with
  | None => (Z.of_nat (length node) ≤ 2 ^ 31)%Z
  | Some es =>
      ∀ e, e ∈ es → index_ok (length node) e.1 ∧ index_ok (length node) e.2
  end →
  ∃ p, preprocess vert node edge = Ok p ∧
    ∀ e, e ∈ p_edge p →
      index_ok (length (p_node p)) e.1 ∧ index_ok (length (p_node p)) e.2.
Proof.
  intros Hbb (q & [i Hq]%list_elem_of_lookup & Hin) Hedge.
  assert (∃ edge0,
    match edge with
    | None => default_edge (length node)
    | Some e => Ok e
    end = Ok edge0 ∧
    ∀ e, e ∈ edge0 → index_ok (length node) e.1 ∧ index_ok (length node) e.2)
    as (edge0 & He0 & Hok).
  { destruct edge as [es|]; [by exists es|].
    exists (cyclic_chain (length node)). split.
    - apply default_edge_chain; [by eapply node_bbox_Ok_length|done].
    - apply cyclic_chain_index_ok. }
  unfold preprocess. rewrite He0, Hbb. simpl.
  set (cv := compress (in_bbox bb <$> vert) vert).
  assert (cv ≠ []) as Hcv.
  { assert (q ∈ cv) as Hqc; [|by destruct cv; [inversion Hqc|]].
    apply (compress_elem _ _ i).
    - by rewrite length_fmap.
    - by rewrite list_lookup_fmap, Hq; simpl; rewrite Hin.
    - done. }
  assert (cv.*1 ≠ [] ∧ cv.*2 ≠ []) as [Hc1 Hc2] by (by destruct cv).
  unfold amin, amax.
  destruct (reduce_Ok np_minimum _ Hc1) as [vmin0 ->].
  destruct (reduce_Ok np_minimum _ Hc2) as [vmin1 ->].
  destruct (reduce_Ok np_maximum _ Hc1) as [vmax0 ->].
  destruct (reduce_Ok np_maximum _ Hc2) as [vmax1 ->]. simpl.
  set (flip := (vmax1 - vmin1 <? vmax0 - vmin0)%float).
  set (node' := if flip then swap_xy <$> node else node).
  assert (length node' = length node) as Hlen.
  { subst node'. destruct flip; by rewrite ?length_fmap. }
  assert (∀ e, e ∈ edge0 →
            index_ok (length node') e.1 ∧ index_ok (length node') e.2) as Hok'.
  { rewrite Hlen. apply Hok. }
  destruct (mapM_total (λ e : Z * Z, snd <$> node_at node' e.2) edge0)
    as [ytwo H2].
  { intros e [_ [r Hr]%node_at_Ok]%Hok'. rewrite Hr. by eexists. }
  destruct (mapM_total (λ e : Z * Z, snd <$> node_at node' e.1) edge0)
    as [yone H1].
  { intros e [[r Hr]%node_at_Ok _]%Hok'. rewrite Hr. by eexists. }
  rewrite H2. simpl. rewrite H1. simpl. eexists. split; [done|]. simpl.
  intros e [k Hk]%list_elem_of_lookup. rewrite Hlen.
  rewrite lookup_zip_with in Hk.
  destruct (zip_with _ ytwo yone !! k) as [s|]; simpl in Hk; [|done].
  destruct (edge0 !! k) as [e0|] eqn:Hk0; simpl in Hk; [|done].
  apply list_elem_of_lookup_2, Hok in Hk0 as [? ?].
  destruct s; injection Hk as <-; simpl; auto.
Qed.

(** A call with a node, a query point in the bounding box of the nodes and
    edge indices that NumPy takes returns its two arrays. *)
Lemma inpoly_returns vert node edge ftol bb :
  node_bbox node = Ok bb →
  (∃ q, q ∈ vert ∧ in_bbox bb q = true) →
  match edge with
  | None => (Z.of_nat (length node) ≤ 2 ^ 31)%Z
  | Some es =>
      ∀ e, e ∈ es → index_ok (length node) e.1 ∧ index_ok (length node) e.2
  end →
  ∃ STAT BNDS, inpoly vert node edge ftol = Ok (STAT, BNDS).
Proof.
  intros Hbb Hq Hedge.
  destruct (preprocess_returns _ _ _ _ Hbb Hq Hedge) as (p & Hp & Hok).
  unfold inpoly, inpoly_run, _inpoly. rewrite Hp. simpl.
  destruct (kernel_rows_returns (p_vert p) (p_node p)
              (ftol * p_lbar p)%float (p_edge p) Hok) as [rows ->].
  simpl. by eexists _, _.
Qed.

(** ** The query points the kernel receives are sorted *)

Section argsort_sorted.
Variable ys : list float.
Hypothesis ys_not_nan : ∀ y, y ∈ ys → is_nan y = false.

Let key (i : nat) : float := ys !!! i.
Let R (a b : nat) : Prop := (key a <=? key b)%float = true.

Lemma key_not_nan i : i < length ys → is_nan (key i) = false.
Proof.
  intros Hi. apply ys_not_nan. unfold key.
  apply list_elem_of_lookup. exists i. by apply list_lookup_lookup_total_lt.
Qed.

Lemma insert_index_sorted i l :
  i < length ys → Forall (λ j, j < length ys) l →
  StronglySorted R l → StronglySorted R (insert_index key i l).
Proof.
  intros Hi Hl Hs. induction Hs as [|j l Hs IH Hj]; simpl.
  { repeat constructor. }
  apply Forall_cons in Hl as [Hjl Hl].
  pose proof (key_not_nan i Hi) as Hni.
  pose proof (key_not_nan j Hjl) as Hnj.
  unfold np_less. rewrite Hni, Hnj. simpl. rewrite orb_false_r.
  destruct (key j <? key i)%float eqn:Hlt.
  - constructor; [by apply IH|].
    rewrite insert_index_perm. constructor; [|done].
    by apply FloatOrder.ltb_leb.
  - assert (R i j) as Hij.
    { unfold R. rewrite FloatOrder.ltb_negb_leb in Hlt by done.
      by destruct (key i <=? key j)%float. }
    constructor; [by constructor|]. constructor; [done|].
    eapply Forall_impl; [exact Hj|]. intros x Hx.
    by eapply FloatOrder.leb_trans.
Qed.

Lemma argsort_sorted : StronglySorted R (argsort ys).
Proof.
  unfold argsort.
  assert (Forall (λ j, j < length ys) (seq 0 (length ys))) as Hall.
  { apply Forall_forall. intros j Hj%elem_of_seq. lia. }
  revert Hall. generalize (seq 0 (length ys)) as l.
  induction l as [|i l IH]; intros Hall; simpl; [constructor|].
  apply Forall_cons in Hall as [Hi Hall].
  apply insert_index_sorted; [done| |by apply IH].
  clear IH. induction l as [|j l IH]; simpl; [done|].
  apply Forall_cons in Hall as [Hj Hall].
  rewrite insert_index_perm. constructor; [done|by apply IH].
Qed.

Lemma sorted_keys_y_sorted l :
  Forall (λ j, j < length ys) l → StronglySorted R l →
  y_sorted (key <$> l) = true.
Proof.
  intros Hl Hs. induction Hs as [|j l Hs IH Hj]; [done|].
  apply Forall_cons in Hl as [Hjl Hl].
  rewrite fmap_cons. cbn [y_sorted].
  rewrite (FloatOrder.leb_refl _ (key_not_nan j Hjl)), IH by done.
  rewrite andb_true_r, andb_true_l. apply forallb_forall.
  intros y (x & -> & Hx)%list_elem_of_In%list_elem_of_fmap.
  rewrite Forall_forall in Hj. by apply Hj.
Qed.

Lemma argsort_y_sorted : y_sorted (key <$> argsort ys) = true.
Proof.
  apply sorted_keys_y_sorted; [|apply argsort_sorted].
  apply Forall_forall. intros j. apply argsort_elem.
Qed.
End argsort_sorted.

Lemma compress_mask_true {A} (f : A → bool) (l : list A) x :
  x ∈ compress (f <$> l) l → f x = true.
Proof.
  induction l as [|y l IH]; simpl; [by inversion 1|].
  destruct (f y) eqn:Hy; [|done].
  intros [->|H]%elem_of_cons; auto.
Qed.

Lemma in_bbox_not_nan bb q :
  in_bbox bb q = true → is_nan q.1 = false ∧ is_nan q.2 = false.
Proof.
  destruct bb as [[[x0 y0] x1] y1]. unfold in_bbox.
  intros [[[H1 H2]%andb_prop _]%andb_prop _]%andb_prop.
  split; by eapply FloatOrder.leb_not_nan_r.
Qed.

(** The array of query points [inpoly] passes to the kernel is sorted by its
    column 1 and holds no NaN there. *)
Lemma preprocess_y_sorted vert node edge p :
  preprocess vert node edge = Ok p → y_sorted (p_vert p).*2 = true.
Proof.
  intros (bb & ? & flip & _ & _ & H)%preprocess_Ok.
  destruct H as (_ & _ & _ & -> & _).
  set (cv := compress (in_bbox bb <$> vert) vert).
  set (pv := if flip then swap_xy <$> cv else cv).
  assert (∀ y, y ∈ pv.*2 → is_nan y = false) as Hnan.
  { intros y (q & -> & Hq)%list_elem_of_fmap. subst pv.
    destruct flip.
    - apply list_elem_of_fmap in Hq as (q' & -> & Hq').
      by apply compress_mask_true, in_bbox_not_nan in Hq' as [? ?].
    - by apply compress_mask_true, in_bbox_not_nan in Hq as [? ?]. }
  rewrite <- (argsort_y_sorted pv.*2 Hnan).
  rewrite <- list_fmap_compose. f_equal. apply list_fmap_ext.
  intros k i Hi%list_elem_of_lookup_2%argsort_elem. simpl.
  rewrite length_fmap in Hi. symmetry. by apply list_lookup_total_fmap.
Qed.

(** ** Further properties of the kernel *)

(** X1: with edge indices in [-M, M) the kernel builds its rows, and
    whatever the query array holds, sorted or not, the two bounds of every
    window are at most the number of query points: every index the inner
    loop visits is a position of [vert], [stat] and [bnds].  (The kernel is
    compiled without bounds checks.) *)
Theorem candidates_in_bounds
    (vert node : list point) (veps : float) (edge : list (Z * Z)) :
  (∀ e, e ∈ edge →
     index_ok (length node) e.1 ∧ index_ok (length node) e.2) →
  ∃ rows,
    kernel_rows vert node veps edge = Ok rows ∧
    length rows = length edge ∧
    ∀ r, r ∈ rows →
      ione r ≤ length vert ∧ itwo r ≤ length vert ∧
      ∀ j, j ∈ candidates r → j < length vert.
Proof.
  intros Hok.
  destruct (kernel_rows_returns vert node veps edge Hok) as [rows Hrows].
  exists rows. split; [done|].
  split; [by apply kernel_rows_inv in Hrows as (? & ? & _ & _ & ? & _)|].
  intros r [k Hr]%list_elem_of_lookup.
  destruct (kernel_rows_lookup_inv _ _ _ _ _ _ _ Hrows Hr) as [e He].
  destruct (kernel_rows_lookup _ _ _ _ _ _ _ Hrows He)
    as (one & two & r' & _ & _ & Hr' & _ & _ & _ & _ & _ & _ & _ & _
        & Hb1 & Hb2).
  assert (r' = r) as -> by congruence.
  split; [done|]. split; [done|].
  intros j. unfold candidates. rewrite elem_of_seq. lia.
Qed.

Lemma candidates_in_bounds_witness :
  ∃ rows,
    kernel_rows [(0, 0); (0, 1); (0, 0.5)]%float unit_square 0.25
      [(0, 1); (1, 2)]%Z = Ok rows ∧
    length rows = 2 ∧
    ∀ r, r ∈ rows →
      ione r ≤ 3 ∧ itwo r ≤ 3 ∧ ∀ j, j ∈ candidates r → j < 3.
Proof.
  apply (candidates_in_bounds [(0, 0); (0, 1); (0, 0.5)]%float unit_square
           0.25 [(0, 1); (1, 2)]%Z).
  intros e He. unfold index_ok.
  repeat (apply elem_of_cons in He as [->|He]; [simpl; lia|]).
  by apply elem_of_nil in He.
Defined.

(** ** The kernel in closed form *)

Section point_steps.
Variables (feps : float) (p : point) (j : nat).

Let latch (r : edge_row) : bool := in_window r j && is_latch (classify feps r p).
Let cross (r : edge_row) : bool := in_window r j && is_toggle (classify feps r p).

Lemma point_steps_latched_fix rows :
  foldl (point_step feps p j) (true, true) rows = (true, true).
Proof.
  induction rows as [|r rows IH]; [done|]. cbn [foldl].
  unfold point_step at 2. by destruct (in_window r j).
Qed.

Lemma point_steps_closed rows s :
  foldl (point_step feps p j) (s, false) rows =
    if existsb latch rows then (true, true)
    else (xorb s (Nat.odd (length (filter (λ r, cross r = true) rows))), false).
Proof.
  revert s. induction rows as [|r rows IH]; intros s.
  { simpl. by destruct s. }
  cbn [foldl existsb].
  assert (latch r = in_window r j && is_latch (classify feps r p)) as Hl by done.
  assert (cross r = in_window r j && is_toggle (classify feps r p)) as Hc
    by done.
  unfold point_step at 2.
  destruct (in_window r j); simpl in Hl, Hc.
  - unfold apply_action. simpl.
    destruct (classify feps r p); simpl in Hl, Hc; rewrite Hl; simpl.
    + apply point_steps_latched_fix.
    + rewrite IH, filter_cons_True by done.
      destruct (existsb latch rows); [done|]. cbn [length].
      rewrite Nat.odd_succ, <- Nat.negb_odd. f_equal.
      by destruct s, (Nat.odd _).
    + rewrite IH, filter_cons_False; [done|]. by rewrite Hc.
  - rewrite Hl, IH, filter_cons_False; [done|]. by rewrite Hc.
Qed.
End point_steps.

Lemma make_row_window vert node veps e r j p :
  y_sorted vert.*2 = true →
  make_row vert node veps e = Ok r →
  vert !! j = Some p →
  in_window r j = y_window veps r p.2.
Proof.
  intros Hs (one & two & _ & _ & _ & _ & Hy1 & Hy2 & Hi1 & Hi2)%make_row_Ok Hj.
  assert (vert.*2 !! j = Some p.2) as Hy by (by rewrite list_lookup_fmap, Hj).
  destruct (searchsorted_left_spec vert.*2 (one.2 - veps)%float Hs) as [_ Hl].
  destruct (searchsorted_right_spec vert.*2 (two.2 + veps)%float Hs) as [_ Hr].
  specialize (Hl j p.2 Hy). specialize (Hr j p.2 Hy).
  unfold in_window, y_window. rewrite Hy1, Hy2, Hi1, Hi2.
  destruct (one.2 - veps <=? p.2)%float, (two.2 + veps <? p.2)%float; simpl.
  - apply bool_decide_eq_false_2. intros [_ ?].
    assert (searchsorted_right vert.*2 (two.2 + veps)%float ≤ j) by by apply Hr.
    lia.
  - apply bool_decide_eq_true_2. split; [by apply Hl|].
    apply Nat.lt_nge. intros H%Hr. done.
  - apply bool_decide_eq_false_2. intros [H%Hl _]. done.
  - apply bool_decide_eq_false_2. intros [H%Hl _]. done.
Qed.

Lemma point_flags_steps feps veps vert node edge rows j p :
  y_sorted vert.*2 = true →
  mapM (make_row vert node veps) edge = Ok rows →
  vert !! j = Some p →
  foldl (point_step feps p j) (false, false) rows
    = point_flags feps veps rows p.
Proof.
  intros Hs Hrows Hj. rewrite point_steps_closed. unfold point_flags.
  assert (∀ r, r ∈ rows → in_window r j = y_window veps r p.2) as Hw.
  { intros r [k Hk]%list_elem_of_lookup.
    apply mapM_Ok_Forall2 in Hrows.
    destruct (Forall2_lookup_r _ _ _ _ _ Hrows Hk) as (e & _ & He).
    by eapply make_row_window. }
  clear Hrows. induction rows as [|r rows IH]; [done|].
  assert (∀ r, r ∈ rows → in_window r j = y_window veps r p.2) as Hw'.
  { intros r' Hr'. apply Hw. by right. }
  specialize (IH Hw'). cbn [existsb]. rewrite (Hw r) by left.
  destruct (y_window veps r p.2 && is_latch (classify feps r p)); [done|].
  cbn [orb].
  destruct (y_window veps r p.2 && is_toggle (classify feps r p)) eqn:Ht.
  - rewrite !filter_cons_True by (by rewrite ?(Hw r) by left).
    destruct (existsb _ rows), (existsb _ rows); try done.
    cbn [length]. rewrite !Nat.odd_succ, <- !Nat.negb_odd.
    simpl in IH |- *. injection IH as IH. by rewrite IH.
  - rewrite !filter_cons_False by (rewrite ?(Hw r) by left; by rewrite Ht).
    done.
Qed.

Lemma kernel_closed_form_aux
    (vert node : list point) (edge : list (Z * Z)) (ftol lbar : float)
    (stat bnds : list bool) :
  y_sorted vert.*2 = true →
  _inpoly vert node edge ftol lbar = Ok (stat, bnds) →
  ∃ rows,
    mapM (make_row vert node (ftol * lbar)%float) edge = Ok rows ∧
    ∀ j p, vert !! j = Some p →
      stat !! j = Some
        (point_flags (ftol * (lbar * lbar))%float (ftol * lbar)%float rows p).1 ∧
      bnds !! j = Some
        (point_flags (ftol * (lbar * lbar))%float (ftol * lbar)%float rows p).2.
Proof.
  intros Hs Hk. rewrite (_inpoly_rowwise _ _ _ _ _ Hs) in Hk.
  destruct (mapM _ edge) as [rows|] eqn:Hrows; simpl in Hk; [|done].
  injection Hk as Hk. exists rows. split; [done|]. intros j p Hj.
  set (feps := (ftol * (lbar * lbar))%float) in *.
  set (st := (replicate (length vert) false, replicate (length vert) false))
    in *.
  assert (j < length vert) as Hlt by (by eapply lookup_lt_Some).
  destruct (edge_loops_length feps vert rows st) as [L1 L2].
  pose proof (edge_loops_cell feps vert rows st j) as Hc.
  rewrite Hk in Hc, L1, L2. unfold st at 1 2 in Hc. simpl length in Hc.
  simpl in L1, L2. rewrite !length_replicate in Hc, L1, L2.
  specialize (Hc Hlt Hlt).
  rewrite (list_lookup_total_correct _ _ _ Hj) in Hc.
  assert (cell st j = (false, false)) as Hst.
  { unfold cell, st; simpl. by rewrite lookup_total_replicate_2. }
  rewrite Hst, (point_flags_steps _ _ _ _ _ _ _ _ Hs Hrows Hj) in Hc.
  rewrite <- Hc. unfold cell; simpl.
  split; apply list_lookup_lookup_total_lt; lia.
Qed.


(** The flags a row gives are those of the rule on the endpoints of its
    edge. *)
Lemma row_touches feps veps (r : edge_row) (one two : point) q :
  xone r = one.1 → xtwo r = two.1 → yone r = one.2 → ytwo r = two.2 →
  xmin r = np_minimum one.1 two.1 →
  xmax r = (np_maximum one.1 two.1 + veps)%float →
  ydel r = (two.2 - one.2)%float → xdel r = (two.1 - one.1)%float →
  y_window veps r q.2 && is_latch (classify feps r q)
    = touches feps veps (one, two) q ∧
  y_window veps r q.2 && is_toggle (classify feps r q)
    = crosses feps veps (one, two) q.
Proof.
  intros Hx1 Hx2 Hy1 Hy2 Hmin Hmax Hyd Hxd.
  unfold crosses, touches, in_band, in_span, at_point, mul1, mul2,
    y_window, classify.
  rewrite Hx1, Hx2, Hy1, Hy2, Hmin, Hmax, Hyd, Hxd. simpl.
  destruct (one.2 - veps <=? q.2)%float; [|by split].
  destruct (two.2 + veps <? q.2)%float; [by split|]. simpl.
  destruct (np_minimum one.1 two.1 <=? q.1)%float; simpl.
  - destruct (q.1 <=? np_maximum one.1 two.1 + veps)%float; simpl;
      [|split; [done|by rewrite !andb_false_r]].
    destruct (abs _ <=? feps)%float; simpl; [by split|].
    destruct ((q.2 =? one.2)%float && (q.1 =? one.1)%float); simpl;
      [by split|].
    destruct ((q.2 =? two.2)%float && (q.1 =? two.1)%float); simpl;
      [by split|].
    destruct (_ <? _)%float, (one.2 <=? q.2)%float, (q.2 <? two.2)%float;
      by split.
  - destruct (one.2 <=? q.2)%float, (q.2 <? two.2)%float; by split.
Qed.

Lemma make_row_endpoints vert node veps e r :
  make_row vert node veps e = Ok r →
  ∃ s, endpoints node e = Ok s ∧
    ∀ feps q,
      y_window veps r q.2 && is_latch (classify feps r q)
        = touches feps veps s q ∧
      y_window veps r q.2 && is_toggle (classify feps r q)
        = crosses feps veps s q.
Proof.
  unfold make_row, endpoints.
  destruct (node_unchecked node e.1) as [one|] eqn:H1; simpl; [|done].
  destruct (node_unchecked node e.2) as [two|] eqn:H2; simpl; [|done].
  apply node_unchecked_Ok in H1, H2. rewrite H1, H2. simpl.
  intros [= <-]. exists (one, two). split; [done|].
  intros feps q. by apply row_touches.
Qed.

Lemma rows_endpoints vert node veps edge rows :
  mapM (make_row vert node veps) edge = Ok rows →
  ∃ segs, mapM (endpoints node) edge = Ok segs ∧
    ∀ feps q, point_flags feps veps rows q = crossing_flags feps veps segs q.
Proof.
  revert rows. induction edge as [|e edge IH]; intros rows.
  { intros [= <-]. by exists []. }
  intros (r & rows' & Hr & Hrows & ->)%mapM_cons_Ok.
  destruct (IH _ Hrows) as (segs & Hsegs & Hflags).
  destruct (make_row_endpoints _ _ _ _ _ Hr) as (s & Hs & Hrule).
  exists (s :: segs). split.
  { apply mapM_cons_Ok. by exists s, segs. }
  intros feps q. specialize (Hflags feps q).
  destruct (Hrule feps q) as [Ht Hc].
  unfold point_flags, crossing_flags in *. cbn [existsb]. rewrite Ht.
  destruct (touches feps veps s q); [done|]. cbn [orb].
  destruct (crosses feps veps s q) eqn:Hcr.
  - rewrite !filter_cons_True by (by rewrite ?Hc).
    destruct (existsb _ rows'), (existsb _ segs); try done.
    cbn [length]. rewrite !Nat.odd_succ, <- !Nat.negb_odd.
    injection Hflags as ->. done.
  - rewrite !filter_cons_False by (rewrite ?Hc; by rewrite ?Hcr). done.
Qed.

(** X2: what the kernel computes.  On y-sorted query points and with edge
    indices in [-M, M) the kernel returns, and the two flags of a point are
    those the crossing-number rule gives for the coordinates of the point
    against the endpoints of the edges: both are set when the point touches
    an edge; otherwise the point is not on the boundary, and it is inside
    when the number of edges it crosses is odd. *)
Theorem kernel_closed_form
    (vert node : list point) (edge : list (Z * Z)) (ftol lbar : float) :
  y_sorted vert.*2 = true →
  (∀ e, e ∈ edge →
     index_ok (length node) e.1 ∧ index_ok (length node) e.2) →
  ∃ segs stat bnds,
    mapM (endpoints node) edge = Ok segs ∧
    _inpoly vert node edge ftol lbar = Ok (stat, bnds) ∧
    ∀ j p, vert !! j = Some p →
      stat !! j = Some
        (crossing_flags (ftol * (lbar * lbar))%float (ftol * lbar)%float
           segs p).1 ∧
      bnds !! j = Some
        (crossing_flags (ftol * (lbar * lbar))%float (ftol * lbar)%float
           segs p).2.
Proof.
  intros Hs Hok.
  destruct (kernel_rows_returns vert node (ftol * lbar)%float edge Hok)
    as [rows0 Hrows0].
  destruct (_inpoly vert node edge ftol lbar) as [[stat bnds]|] eqn:Hk;
    [|by unfold _inpoly in Hk; rewrite Hrows0 in Hk].
  destruct (kernel_closed_form_aux _ _ _ _ _ _ _ Hs Hk) as (rows & Hrows & Hcf).
  destruct (rows_endpoints _ _ _ _ _ Hrows) as (segs & Hsegs & Hflags).
  exists segs, stat, bnds. split; [done|]. split; [done|].
  intros j p Hj. rewrite <- Hflags. by apply Hcf.
Qed.

Lemma kernel_closed_form_witness :
  ∃ segs stat bnds,
    mapM (endpoints unit_square) [(0, 1); (1, 2)]%Z = Ok segs ∧
    _inpoly unit_square_sorted unit_square [(0, 1); (1, 2)]%Z 0.25 0.5
      = Ok (stat, bnds) ∧
    stat !! 1 = Some (crossing_flags (0.25 * (0.5 * 0.5))%float
                        (0.25 * 0.5)%float segs (0.5, 0.5)%float).1.
Proof.
  destruct (kernel_closed_form unit_square_sorted unit_square
              [(0, 1); (1, 2)]%Z 0.25 0.5) as (segs & stat & bnds & H1 & H2 & H).
  - reflexivity.
  - intros e He. unfold index_ok.
    repeat (apply elem_of_cons in He as [->|He]; [simpl; lia|]).
    by apply elem_of_nil in He.
  - exists segs, stat, bnds. split; [done|]. split; [done|].
    by destruct (H 1 (0.5, 0.5)%float eq_refl).
Defined.

(** ** The result of a call, query by query *)

Lemma origin_vert_flip vert node edge p :
  preprocess vert node edge = Ok p →
  ∃ bb edge0 (flip : bool),
    node_bbox node = Ok bb ∧
    p_mask p = in_bbox bb <$> vert ∧
    p_node p = (if flip then swap_xy <$> node else node) ∧
    (∀ k i, origin p !! k = Some i →
      ∃ q, vert !! i = Some q ∧
        p_vert p !! k = Some (if flip then swap_xy q else q)) ∧
    match edge with
    | None => default_edge (length node)
    | Some e => Ok e
    end = Ok edge0 ∧
    (∃ vmin0 vmin1 vmax0 vmax1,
       let cv := compress (in_bbox bb <$> vert) vert in
       amin cv.*1 = Ok vmin0 ∧ amin cv.*2 = Ok vmin1 ∧
       amax cv.*1 = Ok vmax0 ∧ amax cv.*2 = Ok vmax1 ∧
       flip = (vmax1 - vmin1 <? vmax0 - vmin0)%float ∧
       p_lbar p = ((vmax0 - vmin0 + (vmax1 - vmin1)) / 2)%float) ∧
    orient_rows (p_node p) edge0 = Ok (p_edge p).
Proof.
  intros Hp.
  destruct (preprocess_Ok _ _ _ _ Hp) as (bb & edge0 & flip & Hbb & He & H).
  destruct H as (_ & Hm & Hiv & Hv & Hn & _ & _ & Hext & Hor).
  exists bb, edge0, flip. do 3 (split; [done|]).
  split; [|done].
  intros k i (k' & Hk & Hi)%(origin_lookup _ _ _ _ Hp).
  set (cv := compress (in_bbox bb <$> vert) vert) in *.
  assert (cv !! k' = vert !! i) as Hcv.
  { unfold cv. rewrite <- Hm.
    rewrite (compress_lookup_index _ _ 0 k' i), Nat.sub_0_r;
      [done|by eapply mask_length|done]. }
  assert (k' < length cv) as Hlt.
  { unfold cv. rewrite <- Hm, <- (mask_indices_length _ vert)
      by (by eapply mask_length). by eapply lookup_lt_Some. }
  destruct (lookup_lt_is_Some_2 cv k' Hlt) as [q Hq].
  exists q. split; [congruence|].
  rewrite Hv, <- Hiv, list_lookup_fmap, Hk. simpl. f_equal.
  destruct flip.
  - apply list_lookup_total_correct. by rewrite list_lookup_fmap, Hq.
  - by apply list_lookup_total_correct.
Qed.

Lemma inpoly_pointwise_base vert node edge ftol STAT BNDS :
  inpoly vert node edge ftol = Ok (STAT, BNDS) →
  ∃ bb p segs (flip : bool) edge0,
    node_bbox node = Ok bb ∧
    preprocess vert node edge = Ok p ∧
    p_node p = (if flip then swap_xy <$> node else node) ∧
    mapM (endpoints (p_node p)) (p_edge p) = Ok segs ∧
    (∀ i q, vert !! i = Some q →
      let c := crossing_flags (ftol * (p_lbar p * p_lbar p))%float
                 (ftol * p_lbar p)%float segs
                 (if flip then swap_xy q else q) in
      STAT !! i = Some (in_bbox bb q && c.1) ∧
      BNDS !! i = Some (in_bbox bb q && c.2)) ∧
    match edge with
    | None => default_edge (length node)
    | Some e => Ok e
    end = Ok edge0 ∧
    (∃ vmin0 vmin1 vmax0 vmax1,
       let cv := compress (in_bbox bb <$> vert) vert in
       amin cv.*1 = Ok vmin0 ∧ amin cv.*2 = Ok vmin1 ∧
       amax cv.*1 = Ok vmax0 ∧ amax cv.*2 = Ok vmax1 ∧
       flip = (vmax1 - vmin1 <? vmax0 - vmin0)%float ∧
       p_lbar p = ((vmax0 - vmin0 + (vmax1 - vmin1)) / 2)%float) ∧
    orient_rows (p_node p) edge0 = Ok (p_edge p).
Proof.
  intros (p & stmp & btmp & Hp & Hk & Hres)%inpoly_Ok.
  unfold assemble in Hres. injection Hres as -> ->.
  destruct (origin_vert_flip _ _ _ _ Hp)
    as (bb & edge0 & flip & Hbb & Hm & Hn & Ho & Hextra).
  pose proof (preprocess_y_sorted _ _ _ _ Hp) as Hs.
  destruct (kernel_closed_form_aux _ _ _ _ _ _ _ Hs Hk) as (rows & Hrows & Hcf).
  destruct (rows_endpoints _ _ _ _ _ Hrows) as (segs & Hsegs & Hflags).
  destruct (_inpoly_Ok _ _ _ _ _ _ _ Hk) as (Ls & Lb & _).
  exists bb, p, segs, flip, edge0. do 4 (split; [done|]).
  split; [|done].
  intros i q Hq. simpl. rewrite <- Hflags.
  assert (p_mask p !! i = Some (in_bbox bb q)) as Hmi.
  { by rewrite Hm, list_lookup_fmap, Hq. }
  destruct (in_bbox bb q) eqn:Hin; simpl.
  - assert (i ∈ origin p) as [k Hk']%list_elem_of_lookup.
    { by rewrite (origin_elem _ _ _ _ Hp). }
    rewrite (scatter_lookup _ _ _ _ Hp stmp k i Ls Hk').
    rewrite (scatter_lookup _ _ _ _ Hp btmp k i Lb Hk').
    destruct (Ho k i Hk') as (q' & Hq' & Hv).
    assert (q' = q) as -> by congruence.
    by apply Hcf.
  - assert (i ∉ origin p) as Hnot.
    { rewrite (origin_elem _ _ _ _ Hp). congruence. }
    apply lookup_lt_Some in Hq.
    split; by eapply scatter_lookup_pruned.
Qed.

Lemma inpoly_pointwise_flags vert node edge ftol STAT BNDS :
  inpoly vert node edge ftol = Ok (STAT, BNDS) →
  ∃ bb p segs (flip : bool),
    node_bbox node = Ok bb ∧
    preprocess vert node edge = Ok p ∧
    p_node p = (if flip then swap_xy <$> node else node) ∧
    mapM (endpoints (p_node p)) (p_edge p) = Ok segs ∧
    ∀ i q, vert !! i = Some q →
      let c := crossing_flags (ftol * (p_lbar p * p_lbar p))%float
                 (ftol * p_lbar p)%float segs
                 (if flip then swap_xy q else q) in
      STAT !! i = Some (in_bbox bb q && c.1) ∧
      BNDS !! i = Some (in_bbox bb q && c.2).
Proof.
  intros (bb & p & segs & flip & edge0 & H1 & H2 & H3 & H4 & H5 & _)
    %inpoly_pointwise_base.
  by exists bb, p, segs, flip.
Qed.

(** X4: query points with the same coordinates get the same flags, wherever
    they stand in the query array. *)
Theorem equal_queries_equal_flags
    (vert node : list point) (edge : option (list (Z * Z))) (ftol : float)
    (STAT BNDS : list bool) (i i' : nat) (q : point) :
  inpoly vert node edge ftol = Ok (STAT, BNDS) →
  vert !! i = Some q → vert !! i' = Some q →
  STAT !! i = STAT !! i' ∧ BNDS !! i = BNDS !! i'.
Proof.
  intros (bb & p & segs & flip & _ & _ & _ & _ & H)%inpoly_pointwise_flags Hi Hi'.
  destruct (H i q Hi) as [-> ->]. destruct (H i' q Hi') as [-> ->]. done.
Qed.

Lemma equal_queries_equal_flags_witness :
  [true; true; true] !! 0 = [true; true; true] !! 2 ∧
  [false; true; false] !! 0 = [false; true; false] !! 2.
Proof.
  refine (equal_queries_equal_flags
            [(0.5, 0.5); (0, 0.5); (0.5, 0.5)]%float unit_square None
            ftol_default _ _ 0 2 (0.5, 0.5)%float _ _ _);
    by vm_compute.
Defined.

(** ** Edge cases of a call *)

(** X5: with an empty edge array nothing is inside: every query point has both
    flags false. *)
Theorem no_edge_nothing_inside
    (vert node : list point) (ftol : float) (STAT BNDS : list bool) :
  inpoly vert node (Some []) ftol = Ok (STAT, BNDS) →
  STAT = replicate (length vert) false ∧ BNDS = replicate (length vert) false.
Proof.
  intros H.
  destruct (inpoly_pointwise_flags _ _ _ _ _ _ H)
    as (bb & p & segs & flip & _ & Hp & _ & Hrows & Hq).
  destruct (preprocess_Ok _ _ _ _ Hp) as (bb' & e0 & flip' & _ & He0 & Hpe).
  injection He0 as <-.
  destruct Hpe as (_ & _ & _ & _ & _ & Hlen & _).
  destruct (p_edge p); [|done]. injection Hrows as <-.
  apply inpoly_Ok in H as (p' & stmp & btmp & Hp' & _ & Hres).
  unfold assemble in Hres. injection Hres as HS HB.
  assert (length STAT = length vert ∧ length BNDS = length vert) as [LS LB].
  { rewrite HS, HB. split; apply scatter_length. }
  split; apply (list_eq_same_length _ _ (length vert));
    rewrite ?length_replicate; try done;
    intros i x y Hi Hx [-> _]%lookup_replicate;
    destruct (lookup_lt_is_Some_2 vert i Hi) as [q Hv];
    destruct (Hq i q Hv) as [H1 H2]; simpl in H1, H2;
    rewrite andb_false_r in *; congruence.
Qed.

Lemma no_edge_nothing_inside_witness :
  [false; false; false; false] = replicate (length unit_square_queries) false.
Proof.
  refine (proj1 (no_edge_nothing_inside unit_square_queries unit_square
                   ftol_default _ [false; false; false; false] _)).
  by vm_compute.
Defined.

(** X6: a query point with a NaN coordinate is outside and not on the
    boundary. *)
Theorem nan_query_is_outside
    (vert node : list point) (edge : option (list (Z * Z))) (ftol : float)
    (STAT BNDS : list bool) (i : nat) (q : point) :
  inpoly vert node edge ftol = Ok (STAT, BNDS) →
  vert !! i = Some q →
  is_nan q.1 = true ∨ is_nan q.2 = true →
  STAT !! i = Some false ∧ BNDS !! i = Some false.
Proof.
  intros (bb & p & segs & flip & _ & _ & _ & _ & H)%inpoly_pointwise_flags Hi Hn.
  destruct (H i q Hi) as [-> ->].
  assert (in_bbox bb q = false) as ->; [|done].
  destruct (in_bbox bb q) eqn:Hin; [|done].
  apply in_bbox_not_nan in Hin as [? ?]. destruct Hn; congruence.
Qed.

Lemma nan_query_is_outside_witness :
  [true; false] !! 1 = Some false ∧ [false; false] !! 1 = Some false.
Proof.
  refine (nan_query_is_outside [(0.5, 0.5); (nan, 0.5)]%float unit_square None
            ftol_default _ _ 1 (nan, 0.5)%float _ _ _).
  - by vm_compute.
  - reflexivity.
  - by left.
Defined.

(** ** Which calls return, and what the others raise *)

Lemma compress_subseteq {A} (mask : list bool) (l : list A) x :
  x ∈ compress mask l → x ∈ l.
Proof.
  revert l. induction mask as [|b mask IH]; intros [|y l]; simpl;
    try by inversion 1.
  destruct b.
  - intros [->|H]%elem_of_cons; [left|right; auto].
  - intros H. right. auto.
Qed.

Lemma retained_iff vert bb :
  compress (in_bbox bb <$> vert) vert ≠ [] ↔
  ∃ q, q ∈ vert ∧ in_bbox bb q = true.
Proof.
  split.
  - destruct (compress _ vert) as [|q cv] eqn:Hcv; [done|]. intros _.
    assert (q ∈ compress (in_bbox bb <$> vert) vert) as Hq
      by (rewrite Hcv; left).
    exists q. split; [by eapply compress_subseteq|by eapply compress_mask_true].
  - intros (q & [i Hq]%list_elem_of_lookup & Hin) Hcv.
    assert (q ∈ compress (in_bbox bb <$> vert) vert) as Hqc.
    { apply (compress_elem _ _ i); [by rewrite length_fmap| |done].
      by rewrite list_lookup_fmap, Hq; simpl; rewrite Hin. }
    rewrite Hcv in Hqc. by inversion Hqc.
Qed.

Lemma inpoly_preprocess_Raise vert node edge ftol e :
  preprocess vert node edge = Raise e → inpoly vert node edge ftol = Raise e.
Proof. intros H. unfold inpoly, inpoly_run. by rewrite H. Qed.

Lemma preprocess_nothing_retained vert node es :
  (∀ bb, node_bbox node = Ok bb → compress (in_bbox bb <$> vert) vert = []) →
  preprocess vert node (Some es) = Raise ValueError.
Proof.
  intros H. unfold preprocess. simpl.
  destruct (node_bbox node) as [bb|e] eqn:Hbb; simpl.
  - by rewrite (H bb eq_refl).
  - by apply node_bbox_Raise in Hbb as ->.
Qed.

Lemma preprocess_bad_index_IndexError vert node es bb :
  node_bbox node = Ok bb →
  compress (in_bbox bb <$> vert) vert ≠ [] →
  ¬ (∀ e, e ∈ es → index_ok (length node) e.1 ∧ index_ok (length node) e.2) →
  preprocess vert node (Some es) = Raise IndexError.
Proof.
  intros Hbb Hcv Hbad.
  assert (∃ e, e ∈ es ∧
            ¬ (index_ok (length node) e.1 ∧ index_ok (length node) e.2))
    as (e & Hin & He).
  { apply Exists_exists, not_Forall_Exists; [|by rewrite Forall_forall].
    intros x. unfold index_ok. apply _. }
  destruct (preprocess_bad_index vert node es e Hin He) as [err Herr].
  rewrite Herr. f_equal.
  unfold preprocess in Herr. simpl in Herr. rewrite Hbb in Herr. simpl in Herr.
  set (cv := compress (in_bbox bb <$> vert) vert) in *.
  assert (cv.*1 ≠ [] ∧ cv.*2 ≠ []) as [Hc1 Hc2] by (by destruct cv).
  unfold amin, amax in Herr.
  destruct (reduce_Ok np_minimum _ Hc1) as [vmin0 H1]. rewrite H1 in Herr.
  destruct (reduce_Ok np_minimum _ Hc2) as [vmin1 H2]. rewrite H2 in Herr.
  destruct (reduce_Ok np_maximum _ Hc1) as [vmax0 H3]. rewrite H3 in Herr.
  destruct (reduce_Ok np_maximum _ Hc2) as [vmax1 H4]. rewrite H4 in Herr.
  simpl in Herr.
  match type of Herr with
  | context [mapM (λ e : Z * Z, snd <$> node_at ?n e.2) es] =>
      destruct (mapM (λ e : Z * Z, snd <$> node_at n e.2) es) as [ytwo|e2]
        eqn:Hy2; simpl in Herr;
      [destruct (mapM (λ e : Z * Z, snd <$> node_at n e.1) es) as [yone|e1]
         eqn:Hy1; simpl in Herr|]
  end.
  - done.
  - injection Herr as <-. by eapply (mapM_node_at_Raise _ fst).
  - injection Herr as <-. by eapply (mapM_node_at_Raise _ snd).
Qed.

#[local] Instance index_ok_dec M k : Decision (index_ok M k).
Proof. unfold index_ok. apply _. Defined.

Lemma inpoly_trichotomy vert node es ftol :
  let retained :=
    ∃ bb q, node_bbox node = Ok bb ∧ q ∈ vert ∧ in_bbox bb q = true in
  let indexed :=
    ∀ e, e ∈ es → index_ok (length node) e.1 ∧ index_ok (length node) e.2 in
  (retained ∧ indexed ∧
     ∃ STAT BNDS, inpoly vert node (Some es) ftol = Ok (STAT, BNDS)) ∨
  (¬ retained ∧ inpoly vert node (Some es) ftol = Raise ValueError) ∨
  (retained ∧ ¬ indexed ∧ inpoly vert node (Some es) ftol = Raise IndexError).
Proof.
  intros retained indexed.
  destruct (node_bbox node) as [bb|err] eqn:Hbb.
  - destruct (compress (in_bbox bb <$> vert) vert) as [|q0 cv] eqn:Hcv.
    + right; left. split.
      * intros (bb' & q & Hbb' & Hq & Hin).
        assert (bb' = bb) as -> by congruence.
        assert (compress (in_bbox bb <$> vert) vert ≠ []) as Hne
          by (apply retained_iff; eauto).
        done.
      * apply inpoly_preprocess_Raise, preprocess_nothing_retained.
        intros bb' Hbb'. congruence.
    + assert (compress (in_bbox bb <$> vert) vert ≠ []) as Hne
        by (by rewrite Hcv).
      assert (retained) as Hret.
      { apply retained_iff in Hne as (q & ? & ?). by exists bb, q. }
      destruct (decide (Forall (λ e : Z * Z,
                  index_ok (length node) e.1 ∧ index_ok (length node) e.2) es))
        as [Hok|Hbad].
      * left. rewrite Forall_forall in Hok. do 2 (split; [done|]).
        apply (inpoly_returns _ _ _ _ bb Hbb); [|done].
        by apply retained_iff.
      * right; right. rewrite Forall_forall in Hbad. do 2 (split; [done|]).
        by eapply inpoly_preprocess_Raise, preprocess_bad_index_IndexError.
  - right; left. split.
    + intros (bb' & q & Hbb' & _). congruence.
    + apply inpoly_preprocess_Raise, preprocess_nothing_retained.
      intros bb' Hbb'. congruence.
Qed.

(** X7: a call with an edge array returns exactly when some query point lies in
    the bounding box of the nodes (so that there is a node) and every edge
    index is in [-M, M).  It raises [ValueError] exactly when no query point
    is retained, and [IndexError] exactly when one is and an index is out of
    range. *)
Theorem inpoly_outcome
    (vert node : list point) (es : list (Z * Z)) (ftol : float) :
  let retained :=
    ∃ bb q, node_bbox node = Ok bb ∧ q ∈ vert ∧ in_bbox bb q = true in
  let indexed :=
    ∀ e, e ∈ es → index_ok (length node) e.1 ∧ index_ok (length node) e.2 in
  ((∃ STAT BNDS, inpoly vert node (Some es) ftol = Ok (STAT, BNDS))
     ↔ retained ∧ indexed) ∧
  (inpoly vert node (Some es) ftol = Raise ValueError ↔ ¬ retained) ∧
  (inpoly vert node (Some es) ftol = Raise IndexError
     ↔ retained ∧ ¬ indexed).
Proof.
  intros retained indexed.
  destruct (inpoly_trichotomy vert node es ftol)
    as [(Hr & Hi & S & B & H)|[(Hr & H)|(Hr & Hi & H)]];
    fold retained in Hr; rewrite H.
  - split; [|split].
    + split; [done|]. intros _. by exists S, B.
    + split; [done|]. intros Hn. by destruct Hn.
    + split; [done|]. intros [_ Hn]. by destruct Hn.
  - split; [|split].
    + split; [by intros (? & ? & ?)|]. intros [Hn _]. by destruct Hr.
    + done.
    + split; [done|]. intros [Hn _]. by destruct Hr.
  - split; [|split].
    + split; [by intros (? & ? & ?)|]. intros [_ Hn]. by destruct Hi.
    + split; [done|]. intros Hn. by destruct Hn.
    + done.
Qed.

(** ** Calls whose query points are all outside the bounding box *)

Lemma compress_all_false {A} (f : A → bool) (l : list A) :
  (∀ x, x ∈ l → f x = false) → compress (f <$> l) l = [].
Proof.
  induction l as [|x l IH]; intros H; [done|]. simpl.
  rewrite (H x) by left. apply IH. intros y Hy. apply H. by right.
Qed.

Lemma default_edge_Ok M : 1 ≤ M → ∃ es, default_edge M = Ok es.
Proof.
  intros HM. unfold default_edge, py_index.
  rewrite decide_False by lia. rewrite decide_True by lia. by eexists.
Qed.

(** C6, at the calls whose query points are all strictly outside the
    bounding box of the nodes: no point is retained, the reduction of line
    96 over the empty array of retained points raises [ValueError], and the
    points get no flags at all.  ([bbox_pruning] is what holds of the calls
    that return.) *)
Theorem outside_points_alone_raise
    (vert node : list point) (edge : option (list (Z * Z))) (ftol : float)
    (bb : float * float * float * float) :
  node_bbox node = Ok bb →
  (∀ q, q ∈ vert → strictly_outside bb q = true) →
  inpoly vert node edge ftol = Raise ValueError.
Proof.
  intros Hbb Hout. apply inpoly_preprocess_Raise. unfold preprocess.
  assert (∃ es, match edge with
                | None => default_edge (length node)
                | Some e => Ok e
                end = Ok es) as [es ->].
  { destruct edge as [es|]; [by exists es|].
    apply default_edge_Ok. by eapply node_bbox_Ok_length. }
  simpl. rewrite Hbb. simpl.
  rewrite compress_all_false; [done|].
  intros q Hq. by apply strictly_outside_not_in_bbox, Hout.
Qed.

Lemma outside_points_alone_raise_witness :
  strictly_outside (0, 0, 1, 1)%float (2, 2)%float = true ∧
  inpoly [(2, 2)%float] unit_square None ftol_default = Raise ValueError.
Proof.
  split; [reflexivity|].
  apply (outside_points_alone_raise _ _ _ _ (0, 0, 1, 1)%float).
  - reflexivity.
  - intros q ->%list_elem_of_singleton. reflexivity.
Defined.

(** ** The orientation of the edges *)

Lemma preprocess_split vert node es :
  preprocess vert node (Some es) =
    p0 ← preprocess vert node (Some []);
    pe ← orient_rows (p_node p0) es;
    Ok (set_edge p0 pe).
Proof.
  unfold preprocess. simpl.
  destruct (node_bbox node) as [bb|]; simpl; [|done].
  set (cv := compress (in_bbox bb <$> vert) vert).
  destruct (amin cv.*1) as [vmin0|]; simpl; [|done].
  destruct (amin cv.*2) as [vmin1|]; simpl; [|done].
  destruct (amax cv.*1) as [vmax0|]; simpl; [|done].
  destruct (amax cv.*2) as [vmax1|]; simpl; [|done].
  unfold orient_rows.
  destruct (mapM (λ e : Z * Z, snd <$> node_at _ e.2) es) as [ytwo|]; simpl;
    [|done].
  destruct (mapM (λ e : Z * Z, snd <$> node_at _ e.1) es) as [yone|]; simpl;
    done.
Qed.

Lemma orient_rows_nil node : orient_rows node [] = Ok [].
Proof. done. Qed.

Lemma orient_rows_cons_Ok node e0 es pe :
  orient_rows node (e0 :: es) = Ok pe ↔
  ∃ one two pe',
    node_at node e0.1 = Ok one ∧ node_at node e0.2 = Ok two ∧
    orient_rows node es = Ok pe' ∧
    pe = (if (two.2 <? one.2)%float then (e0.2, e0.1) else e0) :: pe'.
Proof.
  unfold orient_rows. cbn [mapM]. unfold mbind, result_bind, mret, result_ret.
  destruct (node_at node e0.2) as [two|]; simpl.
  2:{ split; [done|]. by intros (? & ? & ? & _ & [=] & _). }
  destruct (mapM (λ e : Z * Z, snd <$> node_at node e.2) es) as [ytwo|]; simpl.
  2:{ split; [done|]. by intros (? & ? & ? & _ & _ & [=] & _). }
  destruct (node_at node e0.1) as [one|]; simpl.
  2:{ split; [done|]. by intros (? & ? & ? & [=] & _). }
  destruct (mapM (λ e : Z * Z, snd <$> node_at node e.1) es) as [yone|]; simpl.
  2:{ split; [done|]. by intros (? & ? & ? & _ & _ & [=] & _). }
  split.
  - intros [= <-]. eexists one, two, _. by repeat split.
  - by intros (? & ? & ? & [= <-] & [= <-] & [= <-] & ->).
Qed.

Lemma orient_rows_Raise node es e :
  orient_rows node es = Raise e → e = IndexError.
Proof.
  unfold orient_rows.
  destruct (mapM (λ e : Z * Z, snd <$> node_at node e.2) es) as [ytwo|e2]
    eqn:H2; simpl.
  - destruct (mapM (λ e : Z * Z, snd <$> node_at node e.1) es) as [yone|e1]
      eqn:H1; simpl; [done|].
    intros [= <-]. by eapply (mapM_node_at_Raise _ fst).
  - intros [= <-]. by eapply (mapM_node_at_Raise _ snd).
Qed.

Lemma ltb_asym x y : (x <? y)%float = true → (y <? x)%float = false.
Proof.
  intros H. apply FloatOrder.leb_not_ltb. by apply FloatOrder.ltb_leb.
Qed.

Lemma orient_rows_oriented node es pe :
  orient_rows node es = Ok pe →
  Forall (λ e : Z * Z, ∃ one two,
            node_at node e.1 = Ok one ∧ node_at node e.2 = Ok two ∧
            (two.2 <? one.2)%float = false) pe.
Proof.
  revert pe. induction es as [|e0 es IH]; intros pe.
  { intros [= <-]. constructor. }
  intros (one & two & pe' & H1 & H2 & Hpe & ->)%orient_rows_cons_Ok.
  constructor; [|by apply IH].
  destruct (two.2 <? one.2)%float eqn:Hlt; simpl.
  - exists two, one. by rewrite (ltb_asym _ _ Hlt).
  - by exists one, two.
Qed.

Lemma orient_rows_fixpoint node pe :
  Forall (λ e : Z * Z, ∃ one two,
            node_at node e.1 = Ok one ∧ node_at node e.2 = Ok two ∧
            (two.2 <? one.2)%float = false) pe →
  orient_rows node pe = Ok pe.
Proof.
  induction 1 as [|e pe (one & two & H1 & H2 & Hlt) _ IH]; [done|].
  apply orient_rows_cons_Ok. exists one, two, pe. by rewrite Hlt.
Qed.

Lemma preprocess_Some_Ok vert node es p :
  preprocess vert node (Some es) = Ok p →
  ∃ p0, preprocess vert node (Some []) = Ok p0 ∧
    orient_rows (p_node p0) es = Ok (p_edge p) ∧
    p_node p = p_node p0 ∧ p = set_edge p0 (p_edge p).
Proof.
  rewrite preprocess_split.
  destruct (preprocess vert node (Some [])) as [p0|] eqn:H0; simpl; [|done].
  destruct (orient_rows (p_node p0) es) as [pe|] eqn:Ho; simpl; [|done].
  intros [= <-]. by exists p0.
Qed.

(** X8: after the preprocessing every edge is oriented: in the coordinates the
    kernel works in, the second endpoint of an edge is never below the
    first.  This holds for the default edges as well. *)
Theorem preprocessed_edges_are_oriented
    (vert node : list point) (edge : option (list (Z * Z))) (p : prepared)
    (e : Z * Z) :
  preprocess vert node edge = Ok p →
  e ∈ p_edge p →
  ∃ one two,
    node_at (p_node p) e.1 = Ok one ∧ node_at (p_node p) e.2 = Ok two ∧
    (two.2 <? one.2)%float = false.
Proof.
  intros Hp He.
  assert (∃ es, preprocess vert node (Some es) = Ok p) as [es Hes].
  { destruct edge as [es|]; [by exists es|].
    unfold preprocess in Hp.
    destruct (default_edge (length node)) as [es|] eqn:Hd; [|done].
    exists es. by unfold preprocess. }
  apply preprocess_Some_Ok in Hes as (p0 & _ & Ho & Hn & _).
  rewrite Hn. apply orient_rows_oriented in Ho.
  rewrite Forall_forall in Ho. by apply Ho.
Qed.

Lemma preprocessed_edges_are_oriented_witness :
  ∃ one two,
    node_at unit_square 0 = Ok one ∧ node_at unit_square 3 = Ok two ∧
    (two.2 <? one.2)%float = false.
Proof.
  destruct (preprocess unit_square_queries unit_square None) as [p|] eqn:Hp;
    [|by vm_compute in Hp].
  assert (p_edge p = [(0, 1); (1, 2); (2, 3); (0, 3)]%Z ∧
          p_node p = unit_square) as [He Hn].
  { vm_compute in Hp. injection Hp as <-. done. }
  rewrite <- Hn.
  refine (preprocessed_edges_are_oriented _ _ _ p (0, 3)%Z Hp _).
  rewrite He. by repeat constructor.
Defined.

(** X9: a second call with the edge array the first one left behind returns the
    same arrays and leaves the edge array as it is: the reorientation is
    done once. *)
Theorem second_call_keeps_edge_array
    (vert node : list point) (es : list (Z * Z)) (ftol : float) (out : outcome) :
  inpoly_run vert node (Some es) ftol = Ok out →
  inpoly_run vert node (Some (edge_buffer out)) ftol = Ok out.
Proof.
  unfold inpoly_run.
  destruct (preprocess vert node (Some es)) as [p|] eqn:Hp; simpl; [|done].
  destruct (_inpoly _ _ _ _ _) as [sb|] eqn:Hk; simpl; [|done].
  intros [= <-]. simpl.
  assert (preprocess vert node (Some (p_edge p)) = Ok p) as ->.
  { apply preprocess_Some_Ok in Hp as (p0 & Hp0 & Ho & Hn & Hp).
    rewrite preprocess_split, Hp0. simpl.
    rewrite (orient_rows_fixpoint _ _ (orient_rows_oriented _ _ _ Ho)).
    simpl. by rewrite <- Hp. }
  simpl. by rewrite Hk.
Qed.

Lemma second_call_keeps_edge_array_witness :
  inpoly_run [(0, 0.5)%float] [(0, 0); (0, 1)]%float (Some [(0, 1)%Z])
    ftol_default
  = Ok {| returned := ([true], [true]); edge_buffer := [(0, 1)%Z] |}.
Proof.
  refine (second_call_keeps_edge_array [(0, 0.5)%float]
            [(0, 0); (0, 1)]%float [(1, 0)%Z] ftol_default
            {| returned := ([true], [true]); edge_buffer := [(0, 1)%Z] |} _).
  by vm_compute.
Defined.

(** ** What a call computes, from its arguments *)

Lemma py_index_Ok_lt len k i : py_index len k = Ok i → i < len.
Proof.
  unfold py_index. repeat case_decide; intros [= <-]; lia.
Qed.

Lemma node_at_swap node k :
  node_at (swap_xy <$> node) k = swap_xy <$> node_at node k.
Proof.
  unfold node_at. rewrite length_fmap.
  destruct (py_index (length node) k) as [i|] eqn:Hi; simpl; [|done].
  f_equal. apply py_index_Ok_lt in Hi.
  exact (list_lookup_total_fmap swap_xy node i Hi).
Qed.

Lemma endpoints_flip (flip : bool) (node : list point) (e : Z * Z) :
  endpoints (if flip then swap_xy <$> node else node) e
  = (λ s : point * point,
       (if flip then swap_xy s.1 else s.1, if flip then swap_xy s.2 else s.2))
      <$> endpoints node e.
Proof.
  destruct flip.
  - unfold endpoints. rewrite !node_at_swap.
    destruct (node_at node e.1); simpl; [|done].
    by destruct (node_at node e.2).
  - by destruct (endpoints node e) as [[one two]|].
Qed.

Lemma mapM_endpoints_flip (flip : bool) (node : list point)
    (es : list (Z * Z)) (segs : list (point * point)) :
  mapM (endpoints (if flip then swap_xy <$> node else node)) es = Ok segs →
  ∃ segs0 : list (point * point),
    mapM (endpoints node) es = Ok segs0 ∧
    segs = (λ s : point * point,
              (if flip then swap_xy s.1 else s.1,
               if flip then swap_xy s.2 else s.2)) <$> segs0.
Proof.
  revert segs. induction es as [|e es IH]; intros segs.
  { intros [= <-]. by exists []. }
  intros (s & segs' & Hs & Hsegs & ->)%mapM_cons_Ok.
  destruct (IH _ Hsegs) as (segs0 & H0 & ->).
  rewrite endpoints_flip in Hs.
  destruct (endpoints node e) as [s0|] eqn:He; simpl in Hs; [|done].
  injection Hs as <-. exists (s0 :: segs0). split; [|done].
  apply mapM_cons_Ok. by exists s0, segs0.
Qed.

Lemma orient_rows_endpoints (node : list point) (es pe : list (Z * Z)) :
  orient_rows node es = Ok pe →
  ∃ segs : list (point * point),
    mapM (endpoints node) es = Ok segs ∧
    mapM (endpoints node) pe = Ok (oriented <$> segs).
Proof.
  revert pe. induction es as [|e es IH]; intros pe.
  { intros [= <-]. by exists []. }
  intros (one & two & pe' & H1 & H2 & Hpe & ->)%orient_rows_cons_Ok.
  destruct (IH _ Hpe) as (segs & Hs & Hs').
  exists ((one, two) :: segs). split.
  - apply mapM_cons_Ok. exists (one, two), segs.
    split; [|done]. unfold endpoints. by rewrite H1, H2.
  - apply mapM_cons_Ok. exists (oriented (one, two)), (oriented <$> segs).
    split; [|done]. unfold oriented, endpoints. simpl.
    destruct (two.2 <? one.2)%float; simpl; by rewrite H1, H2.
Qed.

(** X3: what a call with an edge array computes, from its arguments alone.
    With [kept] the query points that pass the bounding-box test, [lbar]
    half the sum of the two extents of [kept], and [flip] set when the x
    extent exceeds the y extent: a query point that fails the bounding-box
    test has both flags false; any other point has the flags the
    crossing-number rule gives for its coordinates against the edges, each
    edge taken as the pair of the nodes it names, in the order that puts
    the lower one first, with the tolerances [ftol * lbar ** 2] and
    [ftol * lbar]; when [flip] is set the rule is applied with x and y
    exchanged throughout.  The place of a point in the query array plays
    no role. *)
Theorem inpoly_pointwise
    (vert node : list point) (es : list (Z * Z)) (ftol : float)
    (STAT BNDS : list bool) :
  inpoly vert node (Some es) ftol = Ok (STAT, BNDS) →
  ∃ bb x0 y0 x1 y1 (segs0 : list (point * point)),
    node_bbox node = Ok bb ∧
    let kept := filter (λ q, in_bbox bb q = true) vert in
    amin kept.*1 = Ok x0 ∧ amin kept.*2 = Ok y0 ∧
    amax kept.*1 = Ok x1 ∧ amax kept.*2 = Ok y1 ∧
    mapM (endpoints node) es = Ok segs0 ∧
    let lbar := ((x1 - x0 + (y1 - y0)) / 2)%float in
    let flip := (y1 - y0 <? x1 - x0)%float in
    let turn (q : point) := if flip then swap_xy q else q in
    let segs := (λ s : point * point, oriented (turn s.1, turn s.2))
                  <$> segs0 in
    ∀ i q, vert !! i = Some q →
      let c := crossing_flags (ftol * (lbar * lbar))%float
                 (ftol * lbar)%float segs (turn q) in
      STAT !! i = Some (in_bbox bb q && c.1) ∧
      BNDS !! i = Some (in_bbox bb q && c.2).
Proof.
  intros (bb & p & segs & flip & edge0 & Hbb & Hp & Hn & Hsegs & Hq & He
          & (x0 & y0 & x1 & y1 & A1 & A2 & A3 & A4 & Hflip & Hlbar) & Hor)
    %inpoly_pointwise_base.
  injection He as <-.
  destruct (orient_rows_endpoints _ _ _ Hor) as (segs' & Hs' & Hs'').
  assert (segs = oriented <$> segs') as -> by congruence.
  rewrite Hn in Hs'.
  apply mapM_endpoints_flip in Hs' as (segs0 & Hs0 & ->).
  rewrite compress_filter in A1, A2, A3, A4.
  exists bb, x0, y0, x1, y1, segs0. do 6 (split; [done|]).
  cbv zeta. rewrite Hlbar in Hq. subst flip.
  rewrite <- list_fmap_compose in Hq. exact Hq.
Qed.

Lemma inpoly_pointwise_witness :
  ∃ segs,
    segs = [((0, 0), (1, 0)); ((1, 0), (1, 1)); ((1, 1), (0, 1));
            ((0, 0), (0, 1))]%float ∧
    [true; true; false; true] !! 1
      = Some (in_bbox (0, 0, 1, 1)%float (0, 0.5)%float &&
              (crossing_flags (ftol_default * (0.5 * 0.5))%float
                 (ftol_default * 0.5)%float segs (0, 0.5)%float).1) ∧
    [false; true; false; true] !! 1
      = Some (in_bbox (0, 0, 1, 1)%float (0, 0.5)%float &&
              (crossing_flags (ftol_default * (0.5 * 0.5))%float
                 (ftol_default * 0.5)%float segs (0, 0.5)%float).2).
Proof.
  destruct (inpoly_pointwise unit_square_queries unit_square
              [(0, 1); (1, 2); (2, 3); (3, 0)]%Z ftol_default
              [true; true; false; true] [false; true; false; true])
    as (bb & x0 & y0 & x1 & y1 & segs0 & Hbb & A1 & A2 & A3 & A4 & Hs & H).
  - by vm_compute.
  - injection Hbb as <-. vm_compute in A1, A2, A3, A4, Hs.
    injection A1 as <-. injection A2 as <-. injection A3 as <-.
    injection A4 as <-. injection Hs as <-.
    eexists. split; [reflexivity|].
    exact (H 1 (0, 0.5)%float eq_refl).
Defined.

(** ** Negative edge indices *)

Lemma py_index_norm M k : py_index M (norm_index M k) = py_index M k.
Proof.
  unfold norm_index, py_index. repeat case_decide; done || lia.
Qed.

Lemma node_at_norm node k :
  node_at node (norm_index (length node) k) = node_at node k.
Proof. unfold node_at. by rewrite py_index_norm. Qed.

Lemma mapM_fmap_ext {A B C} (f : B → result C) (g : A → B) (h : A → result C)
    (l : list A) :
  (∀ x, f (g x) = h x) → mapM f (g <$> l) = mapM h l.
Proof.
  intros H. induction l as [|x l IH]; [done|].
  rewrite fmap_cons. cbn [mapM]. by rewrite H, IH.
Qed.

Lemma zip_with_orient_fmap (g : Z * Z → Z * Z) (fl : list bool) es :
  (∀ e, g (e.2, e.1) = ((g e).2, (g e).1)) →
  zip_with (λ (s : bool) (e : Z * Z), if s then (e.2, e.1) else e) fl (g <$> es)
  = g <$> zip_with (λ (s : bool) (e : Z * Z), if s then (e.2, e.1) else e) fl es.
Proof.
  intros Hg. revert fl. induction es as [|e es IH]; intros [|s fl]; try done.
  rewrite fmap_cons. cbn [zip_with]. rewrite fmap_cons, IH.
  f_equal. destruct s; [by rewrite Hg|done].
Qed.

Lemma orient_rows_norm (node : list point) (es : list (Z * Z)) :
  orient_rows node (norm_row (length node) <$> es)
  = (λ pe : list (Z * Z), norm_row (length node) <$> pe)
      <$> orient_rows node es.
Proof.
  unfold orient_rows.
  rewrite (mapM_fmap_ext (λ e : Z * Z, snd <$> node_at node e.2) _
             (λ e : Z * Z, snd <$> node_at node e.2))
    by (intros e; unfold norm_row; simpl; by rewrite node_at_norm).
  rewrite (mapM_fmap_ext (λ e : Z * Z, snd <$> node_at node e.1) _
             (λ e : Z * Z, snd <$> node_at node e.1))
    by (intros e; unfold norm_row; simpl; by rewrite node_at_norm).
  destruct (mapM (λ e : Z * Z, snd <$> node_at node e.2) es) as [ytwo|];
    simpl; [|done].
  destruct (mapM (λ e : Z * Z, snd <$> node_at node e.1) es) as [yone|];
    simpl; [|done].
  by rewrite zip_with_orient_fmap.
Qed.

Lemma node_unchecked_norm node k :
  node_unchecked node (norm_index (length node) k) = node_unchecked node k.
Proof. unfold node_unchecked. by rewrite py_index_norm. Qed.

Lemma kernel_rows_norm vert node veps es :
  kernel_rows vert node veps (norm_row (length node) <$> es)
  = kernel_rows vert node veps es.
Proof.
  unfold kernel_rows.
  rewrite (mapM_fmap_ext (λ e : Z * Z, node_unchecked node e.1) _
             (λ e : Z * Z, node_unchecked node e.1))
    by (intros e; unfold norm_row; simpl; by rewrite node_unchecked_norm).
  rewrite (mapM_fmap_ext (λ e : Z * Z, node_unchecked node e.2) _
             (λ e : Z * Z, node_unchecked node e.2))
    by (intros e; unfold norm_row; simpl; by rewrite node_unchecked_norm).
  by rewrite length_fmap.
Qed.

Lemma _inpoly_norm vert node es ftol lbar :
  _inpoly vert node (norm_row (length node) <$> es) ftol lbar
  = _inpoly vert node es ftol lbar.
Proof. unfold _inpoly. by rewrite kernel_rows_norm. Qed.

Lemma preprocess_node_length vert node edge p :
  preprocess vert node edge = Ok p → length (p_node p) = length node.
Proof.
  intros (bb & ? & flip & _ & _ & H)%preprocess_Ok.
  destruct H as (_ & _ & _ & _ & -> & _). destruct flip; by rewrite ?length_fmap.
Qed.

(** X10: a negative edge index counts nodes from the end: writing every index [k]
    of [-M, 0) as [k + M] changes nothing in what the call returns or
    raises. *)
Theorem negative_indices_count_from_the_end
    (vert node : list point) (es : list (Z * Z)) (ftol : float) :
  inpoly vert node (Some (norm_row (length node) <$> es)) ftol
  = inpoly vert node (Some es) ftol.
Proof.
  unfold inpoly, inpoly_run.
  rewrite (preprocess_split vert node es),
    (preprocess_split vert node (norm_row (length node) <$> es)).
  destruct (preprocess vert node (Some [])) as [p0|] eqn:Hp0; simpl; [|done].
  rewrite <- (preprocess_node_length _ _ _ _ Hp0), orient_rows_norm.
  destruct (orient_rows (p_node p0) es) as [pe|]; simpl; [|done].
  rewrite _inpoly_norm.
  by destruct (_inpoly _ _ pe _ _).
Qed.

(** ** The kernel is reached with checked indices *)

Lemma preprocess_kernel_returns vert node edge ftol p :
  preprocess vert node edge = Ok p →
  ∃ sb, _inpoly (p_vert p) (p_node p) (p_edge p) ftol (p_lbar p) = Ok sb.
Proof.
  intros Hp.
  destruct (preprocess_Ok _ _ _ _ Hp) as (bb & edge0 & flip & _ & _ & H).
  destruct H as (_ & _ & _ & _ & _ & _ & _ & _ & Hor).
  apply orient_rows_oriented in Hor. rewrite Forall_forall in Hor.
  unfold _inpoly.
  destruct (kernel_rows _ _ _ (p_edge p)) as [rows|e] eqn:Hk; [by eexists|].
  apply kernel_rows_Raise in Hk as (_ & ed & Hin & Hed).
  destruct (Hor ed Hin) as (one & two & H1 & H2 & _).
  apply node_unchecked_Ok in H1, H2. destruct Hed; congruence.
Qed.

(** X19: whatever the arguments, an exception of a call is a [ValueError]
    or an [IndexError] that NumPy raises in the preprocessing, before the
    kernel.  Once the preprocessing has returned, the kernel returns: its
    reads of [node], which are not checked, use only indices that line 107
    has accepted. *)
Theorem inpoly_raises_before_kernel
    (vert node : list point) (edge : option (list (Z * Z))) (ftol : float)
    (e : exn) :
  inpoly vert node edge ftol = Raise e →
  (e = ValueError ∨ e = IndexError) ∧ preprocess vert node edge = Raise e.
Proof.
  unfold inpoly, inpoly_run.
  destruct (preprocess vert node edge) as [p|e'] eqn:Hp; simpl.
  - by destruct (preprocess_kernel_returns _ _ _ ftol _ Hp) as [sb ->].
  - intros [= <-]. split; [by eapply preprocess_Raise|done].
Qed.

Lemma inpoly_raises_before_kernel_witness :
  (IndexError = ValueError ∨ IndexError = IndexError) ∧
  preprocess [(0, 0.5)%float] [(0, 0); (0, 1)]%float (Some [(2, 0)%Z])
    = Raise IndexError.
Proof.
  apply (inpoly_raises_before_kernel _ _ _ ftol_default). by vm_compute.
Defined.

(** ** Pruning, sorting and their inverses *)

(** X11: the query points the kernel receives are the points of the query array
    that pass the bounding-box test, each once (with the coordinates
    exchanged if the axes were flipped), in ascending order of their
    y-coordinate, none of which is a NaN. *)
Theorem kernel_receives_retained_points_sorted
    (vert node : list point) (edge : option (list (Z * Z))) (p : prepared) :
  preprocess vert node edge = Ok p →
  ∃ bb (flip : bool),
    node_bbox node = Ok bb ∧
    p_vert p ≡ₚ (λ q, if flip then swap_xy q else q)
                  <$> filter (λ q, in_bbox bb q = true) vert ∧
    y_sorted (p_vert p).*2 = true.
Proof.
  intros Hp. pose proof (preprocess_y_sorted _ _ _ _ Hp) as Hs.
  destruct (preprocess_Ok _ _ _ _ Hp) as (bb & ? & flip & Hbb & _ & H).
  destruct H as (_ & _ & _ & Hv & _).
  exists bb, flip. split; [done|]. split; [|done].
  rewrite Hv, compress_filter.
  set (cv := filter (λ q, in_bbox bb q = true) vert).
  set (pv := if flip then swap_xy <$> cv else cv).
  assert ((λ q, if flip then swap_xy q else q) <$> cv = pv) as ->.
  { subst pv. destruct flip; [done|]. by rewrite list_fmap_id. }
  rewrite argsort_perm, length_fmap. by rewrite fmap_lookup_total_seq.
Qed.

Lemma kernel_receives_retained_points_sorted_witness :
  ∃ p, preprocess unit_square_queries unit_square None = Ok p ∧
    y_sorted (p_vert p).*2 = true.
Proof.
  destruct (preprocess unit_square_queries unit_square None) as [p|] eqn:Hp;
    [|by vm_compute in Hp].
  exists p. split; [done|].
  by destruct (kernel_receives_retained_points_sorted _ _ _ _ Hp)
    as (? & ? & _ & _ & ?).
Defined.

(** X12: the reassembly undoes the preprocessing: selecting from a returned array
    with the bounding-box mask and reading the selection in the sorted order
    gives back the array of the kernel. *)
Theorem reassembly_inverts_pruning_and_sort
    (vert node : list point) (edge : option (list (Z * Z))) (ftol : float)
    (STAT BNDS : list bool) :
  inpoly vert node edge ftol = Ok (STAT, BNDS) →
  ∃ p stmp btmp,
    preprocess vert node edge = Ok p ∧
    _inpoly (p_vert p) (p_node p) (p_edge p) ftol (p_lbar p)
      = Ok (stmp, btmp) ∧
    (λ k, compress (p_mask p) STAT !!! k) <$> p_ivec p = stmp ∧
    (λ k, compress (p_mask p) BNDS !!! k) <$> p_ivec p = btmp.
Proof.
  intros (p & stmp & btmp & Hp & Hk & Hres)%inpoly_Ok.
  exists p, stmp, btmp. do 2 (split; [done|]).
  destruct (_inpoly_Ok _ _ _ _ _ _ _ Hk) as (Ls & Lb & _).
  unfold assemble in Hres. injection Hres as -> ->.
  pose proof (vert_length _ _ _ _ Hp) as Hlen.
  assert (∀ tmp : list bool, length tmp = length (p_vert p) →
    (λ k, compress (p_mask p)
            (put_mask (p_mask p)
               (put_index (p_ivec p) tmp
                  (replicate (length (p_vert p)) false))
               (replicate (length vert) false)) !!! k) <$> p_ivec p = tmp)
    as Hround; [|by split; apply Hround].
  intros tmp Ltmp.
  apply (list_eq_same_length _ _ (length tmp)); [done| |].
  { rewrite length_fmap. congruence. }
  intros k x y Hk' Hx Hy.
  rewrite list_lookup_fmap in Hx.
  destruct (p_ivec p !! k) as [k'|] eqn:Hiv; simpl in Hx; [|done].
  injection Hx as <-.
  assert (origin p !! k = Some (mask_indices (p_mask p) !!! k')) as Ho.
  { unfold origin. by rewrite list_lookup_fmap, Hiv. }
  destruct (origin_lookup _ _ _ _ Hp _ _ Ho) as (k'' & Hk'' & Hmi).
  assert (k'' = k') as -> by congruence.
  rewrite <- (scatter_lookup _ _ _ _ Hp tmp k _ Ltmp Ho) in Hy.
  apply list_lookup_total_correct.
  rewrite (compress_lookup_index _ _ 0 k' (mask_indices (p_mask p) !!! k')),
    Nat.sub_0_r; [done| |done].
  by rewrite scatter_length, (mask_length _ _ _ _ Hp).
Qed.

Lemma reassembly_inverts_pruning_and_sort_witness :
  ∃ p stmp btmp,
    preprocess unit_square_queries unit_square None = Ok p ∧
    _inpoly (p_vert p) (p_node p) (p_edge p) ftol_default (p_lbar p)
      = Ok (stmp, btmp) ∧
    (λ k, compress (p_mask p) [true; true; false; true] !!! k) <$> p_ivec p
      = stmp ∧
    (λ k, compress (p_mask p) [false; true; false; true] !!! k) <$> p_ivec p
      = btmp.
Proof.
  apply (reassembly_inverts_pruning_and_sort unit_square_queries unit_square
           None ftol_default).
  by vm_compute.
Defined.

(** X13: leaving [edge] out is passing the closed chain over the nodes. *)
Theorem omitted_edge_is_closed_chain
    (vert node : list point) (ftol : float) :
  1 ≤ length node → (Z.of_nat (length node) ≤ 2 ^ 31)%Z →
  inpoly vert node None ftol
  = inpoly vert node (Some (cyclic_chain (length node))) ftol.
Proof.
  intros HM H32. unfold inpoly, inpoly_run, preprocess.
  by rewrite (default_edge_chain _ HM H32).
Qed.

Lemma omitted_edge_is_closed_chain_witness :
  inpoly unit_square_queries unit_square None ftol_default
  = inpoly unit_square_queries unit_square
      (Some (cyclic_chain (length unit_square))) ftol_default.
Proof.
  apply omitted_edge_is_closed_chain; [simpl; lia|done].
Defined.

(** ** The order of equal keys in the sort

    [inpoly] is [inpoly_with] at the sort of the embedding; any other sort
    gives the same result. *)

Lemma preprocess_with_argsort vert node edge :
  preprocess_with argsort vert node edge = preprocess vert node edge.
Proof. reflexivity. Qed.

Lemma inpoly_with_argsort vert node edge ftol :
  inpoly_with argsort vert node edge ftol = inpoly vert node edge ftol.
Proof.
  unfold inpoly_with, inpoly, inpoly_run. rewrite preprocess_with_argsort.
  destruct (preprocess vert node edge) as [p|]; simpl; [|done].
  by destruct (_inpoly _ _ _ _ _).
Qed.

Lemma argsort_sorts_floats : sorts_floats argsort.
Proof.
  intros ys Hnan. split; [apply argsort_perm|by apply argsort_y_sorted].
Qed.


Section any_sort.
Variable sorter : list float → list nat.
Hypothesis sorter_sorts : sorts_floats sorter.

Variables (vert : list point) (bb : float * float * float * float).
Variable flip : bool.

Let mask := in_bbox bb <$> vert.
Let cv := compress mask vert.
Let pv := if flip then swap_xy <$> cv else cv.
Let ivec := sorter pv.*2.
Let pvert := (λ i, pv !!! i) <$> ivec.

Lemma pv_not_nan y : y ∈ pv.*2 → is_nan y = false.
Proof.
  intros (q & -> & Hq)%list_elem_of_fmap. unfold pv in Hq. destruct flip.
  - apply list_elem_of_fmap in Hq as (q' & -> & Hq').
    by apply compress_mask_true, in_bbox_not_nan in Hq' as [? ?].
  - by apply compress_mask_true, in_bbox_not_nan in Hq as [? ?].
Qed.

Lemma pv_length : length pv = length (mask_indices mask).
Proof.
  rewrite (mask_indices_length mask vert) by (unfold mask; by rewrite length_fmap).
  unfold pv, cv. destruct flip; by rewrite ?length_fmap.
Qed.

Lemma any_ivec_perm : ivec ≡ₚ seq 0 (length pv).
Proof.
  destruct (sorter_sorts pv.*2 pv_not_nan) as [Hp _].
  unfold ivec. by rewrite Hp, length_fmap.
Qed.

Lemma any_pvert_sorted : y_sorted pvert.*2 = true.
Proof.
  destruct (sorter_sorts pv.*2 pv_not_nan) as [Hp Hs].
  rewrite <- Hs. unfold pvert. rewrite <- list_fmap_compose.
  f_equal. apply list_fmap_ext.
  intros k i Hi%list_elem_of_lookup_2. simpl.
  fold ivec in Hi. rewrite any_ivec_perm in Hi. apply elem_of_seq in Hi.
  symmetry. apply (list_lookup_total_fmap snd pv i). lia.
Qed.

Lemma any_pvert_length : length pvert = length pv.
Proof.
  unfold pvert. by rewrite length_fmap, any_ivec_perm, length_seq.
Qed.

Lemma any_scatter node edge ftol lbar stmp btmp :
  _inpoly pvert node edge ftol lbar = Ok (stmp, btmp) →
  ∃ segs, mapM (endpoints node) edge = Ok segs ∧
  let flags q :=
    crossing_flags (ftol * (lbar * lbar))%float (ftol * lbar)%float segs
      (if flip then swap_xy q else q) in
  put_mask mask (put_index ivec stmp (replicate (length pvert) false))
    (replicate (length vert) false)
  = (λ q, in_bbox bb q && (flags q).1) <$> vert ∧
  put_mask mask (put_index ivec btmp (replicate (length pvert) false))
    (replicate (length vert) false)
  = (λ q, in_bbox bb q && (flags q).2) <$> vert.
Proof.
  intros Hk.
  destruct (_inpoly_Ok _ _ _ _ _ _ _ Hk) as (Ls & Lb & _).
  destruct (kernel_closed_form_aux _ _ _ _ _ _ _ any_pvert_sorted Hk)
    as (rows & Hrows & Hcf).
  destruct (rows_endpoints _ _ _ _ _ Hrows) as (segs & Hsegs & Hflags).
  exists segs. split; [done|]. intros flags.
  assert (length mask = length vert) as Lm by (unfold mask; by rewrite length_fmap).
  assert (∀ (tmp : list bool) (pr : bool * bool → bool),
    length tmp = length pvert →
    (∀ j p, pvert !! j = Some p →
       tmp !! j = Some (pr (point_flags (ftol * (lbar * lbar))%float
                              (ftol * lbar)%float rows p))) →
    put_mask mask (put_index ivec tmp (replicate (length pvert) false))
      (replicate (length vert) false)
    = (λ q, in_bbox bb q && pr (flags q)) <$> vert) as Hgen.
  { intros tmp pr Ltmp Htmp.
    apply (list_eq_same_length _ _ (length vert)).
    { by rewrite length_fmap. }
    { by rewrite put_mask_length, length_replicate. }
    intros i x y Hi Hx Hy.
    rewrite list_lookup_fmap in Hy.
    destruct (vert !! i) as [q|] eqn:Hq; simpl in Hy; [|done].
    injection Hy as <-.
    assert (mask !! i = Some (in_bbox bb q)) as Hmi.
    { unfold mask. by rewrite list_lookup_fmap, Hq. }
    destruct (in_bbox bb q) eqn:Hin; simpl.
    - apply mask_indices_elem, list_elem_of_lookup in Hmi as [k' Hk'].
      assert (k' < length pv) as Lk'.
      { rewrite pv_length. by eapply lookup_lt_Some. }
      assert (k' ∈ ivec) as [k Hk'']%list_elem_of_lookup.
      { rewrite any_ivec_perm. apply elem_of_seq. lia. }
      rewrite <- (Nat.sub_0_r i) in Hx.
      rewrite (put_mask_lookup_true _ _ _ 0 k') in Hx;
        [|by rewrite length_replicate|done
         |by rewrite put_index_length, length_replicate, any_pvert_length].
      rewrite (put_index_lookup _ _ _ k) in Hx;
        [|rewrite any_ivec_perm; apply NoDup_seq
         |by rewrite Ltmp; unfold pvert; rewrite length_fmap
         |done
         |by rewrite length_replicate, any_pvert_length].
      assert (pvert !! k = Some (if flip then swap_xy q else q)) as Hpv.
      { unfold pvert. rewrite list_lookup_fmap, Hk''. simpl. f_equal.
        assert (cv !! k' = Some q) as Hcv.
        { unfold cv. rewrite (compress_lookup_index _ _ 0 k' i), Nat.sub_0_r;
            done. }
        apply list_lookup_total_correct. unfold pv.
        destruct flip; [by rewrite list_lookup_fmap, Hcv|done]. }
      rewrite (Htmp _ _ Hpv) in Hx. injection Hx as <-.
      unfold flags. by rewrite <- Hflags.
    - rewrite put_mask_lookup_false in Hx by congruence.
      apply lookup_replicate in Hx as [-> _]. done. }
  split.
  - apply (Hgen stmp fst Ls). intros j p Hj. by apply Hcf.
  - apply (Hgen btmp snd Lb). intros j p Hj. by apply Hcf.
Qed.
End any_sort.

(** Whether the kernel returns does not depend on the query points. *)
Lemma kernel_status_any_vert vert vert' node edge ftol lbar :
  match _inpoly vert node edge ftol lbar with
  | Ok _ => ∃ sb, _inpoly vert' node edge ftol lbar = Ok sb
  | Raise err => _inpoly vert' node edge ftol lbar = Raise err
  end.
Proof.
  unfold _inpoly, kernel_rows.
  destruct (mapM (λ e : Z * Z, node_unchecked node e.1) edge); simpl; [|done].
  destruct (mapM (λ e : Z * Z, node_unchecked node e.2) edge); simpl; [|done].
  by eexists.
Qed.

Lemma inpoly_with_any_two sorter1 sorter2 vert node edge ftol :
  sorts_floats sorter1 → sorts_floats sorter2 →
  inpoly_with sorter1 vert node edge ftol
  = inpoly_with sorter2 vert node edge ftol.
Proof.
  intros H1 H2. unfold inpoly_with, preprocess_with.
  destruct (match edge with None => _ | Some e => _ end) as [es|]; simpl; [|done].
  destruct (node_bbox node) as [bb|]; simpl; [|done].
  set (cv := compress (in_bbox bb <$> vert) vert).
  destruct (amin cv.*1) as [vmin0|]; simpl; [|done].
  destruct (amin cv.*2) as [vmin1|]; simpl; [|done].
  destruct (amax cv.*1) as [vmax0|]; simpl; [|done].
  destruct (amax cv.*2) as [vmax1|]; simpl; [|done].
  set (flip := (vmax1 - vmin1 <? vmax0 - vmin0)%float).
  set (lbar := ((vmax0 - vmin0 + (vmax1 - vmin1)) / 2)%float).
  set (node' := if flip then swap_xy <$> node else node).
  destruct (mapM (λ e : Z * Z, snd <$> node_at node' e.2) es) as [ytwo|];
    simpl; [|done].
  destruct (mapM (λ e : Z * Z, snd <$> node_at node' e.1) es) as [yone|];
    simpl; [|done].
  set (edge' := zip_with _ _ es). subst cv.
  pose proof (any_scatter sorter1 H1 vert bb flip node' edge' ftol lbar) as S1.
  pose proof (any_scatter sorter2 H2 vert bb flip node' edge' ftol lbar) as S2.
  match goal with
  | |- _inpoly ?v1 _ _ _ _ ≫= _ = _inpoly ?v2 _ _ _ _ ≫= _ =>
      pose proof (kernel_status_any_vert v1 v2 node' edge' ftol lbar) as K;
      destruct (_inpoly v1 node' edge' ftol lbar) as [[s1 b1]|err1] eqn:R1;
      [destruct K as [[s2 b2] R2]|]; rewrite ?K, ?R2
  end; simpl; [|done].
  destruct (S1 s1 b1 R1) as (segs & Hsegs & E1 & E1').
  destruct (S2 s2 b2 R2) as (segs' & Hsegs' & E2 & E2').
  assert (segs' = segs) as -> by congruence.
  unfold assemble. apply (f_equal Ok), (f_equal2 pair).
  - exact (eq_trans E1 (eq_sym E2)).
  - exact (eq_trans E1' (eq_sym E2')).
Qed.

Lemma insert_index_last_perm key i l : insert_index_last key i l ≡ₚ i :: l.
Proof.
  induction l as [|j l IH]; simpl; [done|].
  destruct (np_less _ _); [done|].
  rewrite IH. apply perm_swap.
Qed.

Lemma argsort_last_perm ys : argsort_last ys ≡ₚ seq 0 (length ys).
Proof.
  unfold argsort_last. generalize (seq 0 (length ys)) as l.
  induction l as [|i l IH]; simpl; [done|].
  by rewrite insert_index_last_perm, IH.
Qed.

Section argsort_last_sorted.
Variable ys : list float.
Hypothesis ys_not_nan : ∀ y, y ∈ ys → is_nan y = false.

Let key (i : nat) : float := ys !!! i.
Let R (a b : nat) : Prop := (key a <=? key b)%float = true.

Lemma insert_index_last_sorted i l :
  i < length ys → Forall (λ j, j < length ys) l →
  StronglySorted R l → StronglySorted R (insert_index_last key i l).
Proof.
  intros Hi Hl Hs. induction Hs as [|j l Hs IH Hj]; simpl.
  { repeat constructor. }
  apply Forall_cons in Hl as [Hjl Hl].
  pose proof (key_not_nan ys ys_not_nan i Hi) as Hni.
  pose proof (key_not_nan ys ys_not_nan j Hjl) as Hnj.
  fold key in Hni, Hnj.
  unfold np_less. rewrite Hni, Hnj. simpl. rewrite orb_false_r.
  destruct (key i <? key j)%float eqn:Hlt.
  - assert (R i j) as Hij by (by apply FloatOrder.ltb_leb).
    constructor; [by constructor|]. constructor; [done|].
    eapply Forall_impl; [exact Hj|]. intros x Hx.
    by eapply FloatOrder.leb_trans.
  - constructor; [by apply IH|].
    rewrite insert_index_last_perm. constructor; [|done].
    unfold R. rewrite FloatOrder.ltb_negb_leb in Hlt by done.
    by destruct (key j <=? key i)%float.
Qed.

Lemma argsort_last_sorted : StronglySorted R (argsort_last ys).
Proof.
  unfold argsort_last.
  assert (Forall (λ j, j < length ys) (seq 0 (length ys))) as Hall.
  { apply Forall_forall. intros j Hj%elem_of_seq. lia. }
  revert Hall. generalize (seq 0 (length ys)) as l.
  induction l as [|i l IH]; intros Hall; simpl; [constructor|].
  apply Forall_cons in Hall as [Hi Hall].
  apply insert_index_last_sorted; [done| |by apply IH].
  clear IH. induction l as [|j l IH]; simpl; [done|].
  apply Forall_cons in Hall as [Hj Hall].
  rewrite insert_index_last_perm. constructor; [done|by apply IH].
Qed.
End argsort_last_sorted.

Lemma argsort_last_sorts_floats : sorts_floats argsort_last.
Proof.
  intros ys Hnan. split; [apply argsort_last_perm|].
  apply (sorted_keys_y_sorted ys Hnan); [|by apply argsort_last_sorted].
  apply Forall_forall. intros j. rewrite argsort_last_perm, elem_of_seq. lia.
Qed.

(** X14: NumPy's default sort is not stable, so the order [np.argsort]
    gives to query points of equal y is not fixed.  It does not matter:
    with any order of the indices that sorts the y column in place of the
    order of [argsort], the call raises the same exception or returns the
    same [STAT] and [BNDS]. *)
Theorem sort_ties_do_not_matter sorter vert node edge ftol :
  sorts_floats sorter →
  inpoly_with sorter vert node edge ftol = inpoly vert node edge ftol.
Proof.
  intros Hsort. rewrite <- inpoly_with_argsort.
  apply inpoly_with_any_two; [done|apply argsort_sorts_floats].
Qed.

Lemma sort_ties_do_not_matter_witness :
  argsort_last [0.5; 0.5; 0.25]%float ≠ argsort [0.5; 0.5; 0.25]%float ∧
  inpoly_with argsort_last [(0.5, 0.5); (0, 0.5); (0.25, 0.25)]%float
    unit_square None ftol_default
  = inpoly [(0.5, 0.5); (0, 0.5); (0.25, 0.25)]%float
      unit_square None ftol_default.
Proof.
  split; [by vm_compute|].
  apply (sort_ties_do_not_matter argsort_last), argsort_last_sorts_floats.
Defined.

(** * oceanmesh.clean *)

(** ** Sorting integer keys *)

Lemma ascending_StronglySorted {A} (R : A → A → Prop) (l : list A) :
  StronglySorted R l → ascending R l.
Proof.
  induction 1 as [|a l _ IH Ha]; intros x y u v Hxy Hx Hy; [done|].
  destruct x as [|x], y as [|y]; simpl in *; try lia.
  - injection Hx as <-. rewrite Forall_forall in Ha.
    by eapply Ha, list_elem_of_lookup_2.
  - eapply (IH x y); [lia|done..].
Qed.

Lemma ascending_cons_inv {A} (R : A → A → Prop) a (l : list A) :
  ascending R (a :: l) → ascending R l.
Proof. intros H x y u v Hxy Hx Hy. apply (H (S x) (S y)); [lia|done..]. Qed.

Lemma insert_key_perm key i l : insert_key key i l ≡ₚ i :: l.
Proof.
  induction l as [|j l IH]; simpl; [done|].
  destruct (_ <? _)%Z; [|done]. rewrite IH. apply perm_swap.
Qed.

Lemma argsort_stable_perm keys : argsort_stable keys ≡ₚ seq 0 (length keys).
Proof.
  unfold argsort_stable. generalize (seq 0 (length keys)) as l.
  induction l as [|i l IH]; simpl; [done|].
  by rewrite insert_key_perm, IH.
Qed.

Lemma insert_key_stable key i l :
  Forall (λ x, i < x) l →
  StronglySorted (stable_order key) l →
  StronglySorted (stable_order key) (insert_key key i l).
Proof.
  intros Hgt Hs. induction Hs as [|j l Hs IH Hj]; simpl.
  { repeat constructor. }
  apply Forall_cons in Hgt as [Hij Hgt].
  destruct (key j <? key i)%Z eqn:Hlt.
  - apply Z.ltb_lt in Hlt. constructor; [by apply IH|].
    rewrite insert_key_perm. constructor; [by left|done].
  - apply Z.ltb_ge in Hlt.
    assert (stable_order key i j) as Hord.
    { unfold stable_order. destruct (decide (key i = key j)); [right|left]; lia. }
    constructor; [by constructor|]. constructor; [done|].
    rewrite Forall_forall in Hj, Hgt |- *. intros x Hx.
    specialize (Hj x Hx). specialize (Hgt x Hx).
    unfold stable_order in *. lia.
Qed.

Lemma argsort_stable_sorted keys :
  StronglySorted (stable_order (λ i, keys !!! i)) (argsort_stable keys).
Proof.
  unfold argsort_stable. generalize 0 as s. generalize (length keys) as n.
  induction n as [|n IH]; intros s; simpl; [constructor|].
  apply insert_key_stable; [|apply IH].
  apply Forall_forall. intros x Hx.
  assert (x ∈ seq (S s) n) as Hin.
  { revert Hx. generalize (seq (S s) n) as l. clear.
    induction l as [|j l IHl]; simpl; [done|].
    rewrite insert_key_perm. intros [->|?]%elem_of_cons; [left|right; auto]. }
  apply elem_of_seq in Hin. lia.
Qed.

Lemma argsort_stable_sorts keys : sorts keys (argsort_stable keys).
Proof.
  split; [apply argsort_stable_perm|].
  pose proof (ascending_StronglySorted _ _ (argsort_stable_sorted keys)) as H.
  intros x y a b Hxy Hx Hy. specialize (H x y a b Hxy Hx Hy).
  unfold stable_order in H. lia.
Qed.

Lemma sorts_elem keys idx i : sorts keys idx → i ∈ idx ↔ i < length keys.
Proof. intros [Hp _]. rewrite Hp, elem_of_seq. lia. Qed.

Lemma sorts_length keys idx : sorts keys idx → length idx = length keys.
Proof. intros [Hp _]. by rewrite Hp, length_seq. Qed.

Lemma sorts_NoDup keys idx : sorts keys idx → NoDup idx.
Proof. intros [Hp _]. rewrite Hp. apply NoDup_seq. Qed.

Lemma gather_perm `{Inhabited A} (l : list A) (idx : list nat) :
  idx ≡ₚ seq 0 (length l) → (λ k, l !!! k) <$> idx ≡ₚ l.
Proof. intros ->. by rewrite fmap_lookup_total_seq. Qed.

(** ** [_arg_sortrows] *)

Section sortrows.
Variables (sort1 : list Z → list nat) (arr : list (Z * Z)).
Hypothesis sort1_sorts : sorts arr.*2 (sort1 arr.*2).

Lemma _arg_sortrows_perm : _arg_sortrows sort1 arr ≡ₚ seq 0 (length arr).
Proof.
  unfold _arg_sortrows. destruct sort1_sorts as [Hp _].
  rewrite gather_perm, Hp; [by rewrite length_fmap|].
  by rewrite argsort_stable_perm, length_fmap.
Qed.

Lemma _arg_sortrows_ascending :
  ascending (λ a b, lex_le (arr !!! a) (arr !!! b)) (_arg_sortrows sort1 arr).
Proof.
  unfold _arg_sortrows.
  set (i := sort1 arr.*2).
  set (keys0 := (λ k, (arr !!! k).1) <$> i).
  pose proof (ascending_StronglySorted _ _ (argsort_stable_sorted keys0)) as Hj.
  pose proof (argsort_stable_perm keys0) as Hjp.
  destruct sort1_sorts as [Hip Hi]. fold i in Hip, Hi.
  intros x y a b Hxy Hx Hy. rewrite list_lookup_fmap in Hx, Hy.
  destruct (argsort_stable keys0 !! x) as [jx|] eqn:Hjx; [|done].
  destruct (argsort_stable keys0 !! y) as [jy|] eqn:Hjy; [|done].
  simpl in Hx, Hy. injection Hx as <-. injection Hy as <-.
  assert (∀ k jk, argsort_stable keys0 !! k = Some jk → jk < length i) as Hlt.
  { intros k jk Hk%list_elem_of_lookup_2. rewrite Hjp in Hk.
    apply elem_of_seq in Hk. unfold keys0 in Hk. rewrite length_fmap in Hk.
    lia. }
  pose proof (Hlt _ _ Hjx) as Lx. pose proof (Hlt _ _ Hjy) as Ly.
  assert (∀ k, k < length i → keys0 !!! k = (arr !!! (i !!! k)).1) as Hk0.
  { intros k Hk. unfold keys0.
    exact (list_lookup_total_fmap (λ k, (arr !!! k).1) i k Hk). }
  specialize (Hj x y jx jy Hxy Hjx Hjy). unfold stable_order in Hj.
  rewrite !Hk0 in Hj by done.
  destruct Hj as [Hj|[Hj Hjlt]]; [by left|right]. split; [done|].
  assert (∀ k, k < length i → i !!! k < length arr) as Hin.
  { intros k Hk. assert (i !!! k ∈ i) as Hel.
    { apply list_elem_of_lookup. exists k.
      by apply list_lookup_lookup_total_lt. }
    apply (sorts_elem _ _ _ sort1_sorts) in Hel.
    by rewrite length_fmap in Hel. }
  assert (∀ a, a < length arr → arr.*2 !!! a = (arr !!! a).2) as Hsnd.
  { intros a Ha. exact (list_lookup_total_fmap snd arr a Ha). }
  rewrite <- !Hsnd by auto.
  apply (Hi jx jy (i !!! jx) (i !!! jy) Hjlt);
    by apply list_lookup_lookup_total_lt.
Qed.
End sortrows.

(** X15: [_arg_sortrows] returns an order of the rows, each row number once, in
    which the rows are sorted by column 0 and, among equal entries of
    column 0, by column 1; whichever order the first, unstable sort
    returns. *)
Theorem arg_sortrows_sorts_rows
    (sort1 : list Z → list nat) (arr : list (Z * Z)) :
  sorts arr.*2 (sort1 arr.*2) →
  _arg_sortrows sort1 arr ≡ₚ seq 0 (length arr) ∧
  ascending (λ a b, lex_le (arr !!! a) (arr !!! b)) (_arg_sortrows sort1 arr).
Proof.
  intros H. split.
  - by apply _arg_sortrows_perm.
  - by apply _arg_sortrows_ascending.
Qed.

Lemma arg_sortrows_sorts_rows_witness :
  _arg_sortrows argsort_stable [(3, 1); (1, 2); (3, 0); (1, 1)]%Z
    ≡ₚ seq 0 4.
Proof.
  refine (proj1 (arg_sortrows_sorts_rows argsort_stable
                   [(3, 1); (1, 2); (3, 0); (1, 1)]%Z _)).
  apply argsort_stable_sorts.
Defined.

(** ** [cell_to_cell] *)

Lemma sort_row_sorted r :
  ((sort_row r).1.1 ≤ (sort_row r).1.2 ≤ (sort_row r).2)%Z.
Proof.
  destruct r as [[a b] c]. unfold sort_row.
  destruct (b <? a)%Z eqn:H1; [apply Z.ltb_lt in H1|apply Z.ltb_ge in H1].
  - destruct (c <? a)%Z eqn:H2; [apply Z.ltb_lt in H2|apply Z.ltb_ge in H2].
    + destruct (c <? b)%Z eqn:H3; [apply Z.ltb_lt in H3|apply Z.ltb_ge in H3];
        simpl; lia.
    + destruct (a <? b)%Z eqn:H3; [apply Z.ltb_lt in H3|apply Z.ltb_ge in H3];
        simpl; lia.
  - destruct (c <? b)%Z eqn:H2; [apply Z.ltb_lt in H2|apply Z.ltb_ge in H2].
    + destruct (c <? a)%Z eqn:H3; [apply Z.ltb_lt in H3|apply Z.ltb_ge in H3];
        simpl; lia.
    + destruct (b <? a)%Z eqn:H3; [apply Z.ltb_lt in H3|apply Z.ltb_ge in H3];
        simpl; lia.
Qed.

Lemma sort_row_proper r : proper_cell r → proper_cell (sort_row r).
Proof.
  destruct r as [[a b] c]. unfold sort_row, proper_cell. simpl.
  intros (H1 & H2 & H3).
  destruct (b <? a)%Z; [destruct (c <? a)%Z|destruct (c <? b)%Z];
    [destruct (c <? b)%Z|destruct (a <? b)%Z
    |destruct (c <? a)%Z|destruct (b <? a)%Z]; simpl; lia.
Qed.

Lemma pair_eqb_eq (a b : Z * Z) : pair_eqb a b = true ↔ a = b.
Proof.
  destruct a as [a1 a2], b as [b1 b2]. unfold pair_eqb. simpl.
  rewrite andb_true_iff, !Z.eqb_eq. split; [by intros [-> ->]|].
  by intros [= -> ->].
Qed.

Lemma adjacent_where_elem `{Inhabited A} (P : A → A → bool) (l : list A) r :
  r ∈ adjacent_where P l ↔
  r + 1 < length l ∧ P (l !!! r) (l !!! (r + 1)) = true.
Proof.
  unfold adjacent_where. rewrite list_elem_of_filter, elem_of_seq.
  split; intros [? ?]; split; done || lia.
Qed.

Lemma filter_seq_ascending (Q : nat → Prop) `{∀ r, Decision (Q r)} s n :
  ascending lt (filter Q (seq s n)).
Proof.
  revert s. induction n as [|n IH]; intros s; simpl; [by intros ? ? ? ? ? ?|].
  rewrite filter_cons. case_decide; [|apply IH].
  intros x y a b Hxy Hx Hy. destruct x as [|x], y as [|y]; simpl in *; try lia.
  - injection Hx as <-.
    apply list_elem_of_lookup_2, list_elem_of_filter in Hy as [_ Hy].
    apply elem_of_seq in Hy. lia.
  - apply (IH (S s) x y); [lia|done..].
Qed.

Lemma adjacent_where_ascending `{Inhabited A} (P : A → A → bool) (l : list A) :
  ascending lt (adjacent_where P l).
Proof. apply filter_seq_ascending. Qed.

Lemma slot_row_edges s r : slot s r ∈ row_edges r.
Proof.
  unfold row_edges. destruct s as [|[|s]]; simpl.
  - left.
  - right; left.
  - right; right; left.
Qed.

Lemma slot_injective s1 s2 r :
  proper_cell r → s1 < 3 → s2 < 3 → slot s1 r = slot s2 r → s1 = s2.
Proof.
  destruct r as [[a b] c]. unfold proper_cell. simpl. intros (H1 & H2 & H3).
  destruct s1 as [|[|[|s1]]], s2 as [|[|[|s2]]]; simpl; intros ? ? [=];
    congruence || lia.
Qed.

Section cell_table.
Variables (sort1 sort2 : list Z → list nat) (t : list (Z * Z * Z)).
Hypothesis sort1_ok : ∀ keys, sorts keys (sort1 keys).
Hypothesis sort2_ok : ∀ keys, sorts keys (sort2 keys).

Let nt := length t.
Let ts := sort_row <$> t.
Let e0 : list (Z * Z) :=
  ((λ r : Z * Z * Z, (r.1.1, r.1.2)) <$> ts)
  ++ ((λ r : Z * Z * Z, (r.1.1, r.2)) <$> ts)
  ++ ((λ r : Z * Z * Z, (r.1.2, r.2)) <$> ts).
Let tri0 := seq 0 nt ++ seq 0 nt ++ seq 0 nt.
Let j := _arg_sortrows sort1 e0.
Let e := (λ k, e0 !!! k) <$> j.
Let trinum := (λ k, tri0 !!! k) <$> j.
Let k := adjacent_where pair_eqb e.
Let ctoc0 := (λ r, (trinum !!! r, trinum !!! (r + 1))) <$> k.
Let ctoc1 := ctoc0 ++ ((λ c : nat * nat, (c.2, c.1)) <$> ctoc0).
Let ctoc := (λ k, ctoc1 !!! k) <$> sort2 (Z.of_nat <$> ctoc1.*1).

Lemma cell_to_cell_eq :
  cell_to_cell sort1 sort2 t
  = (ctoc,
     (0 :: adjacent_where (λ a b : nat * nat, negb (a.1 =? b.1)) ctoc)
       ++ [length ctoc]).
Proof. reflexivity. Qed.

Lemma e0_length : length e0 = 3 * nt.
Proof. unfold e0, ts, nt. rewrite !length_app, !length_fmap. lia. Qed.

Lemma tri0_length : length tri0 = 3 * nt.
Proof. unfold tri0. rewrite !length_app, !length_seq. lia. Qed.

Lemma row_lookup m :
  m < 3 * nt →
  ∃ s a r, s < 3 ∧ a < nt ∧ m = a + nt * s ∧ t !! a = Some r ∧
    e0 !! m = Some (slot s (sort_row r)) ∧ tri0 !! m = Some a.
Proof.
  intros Hm. unfold e0, tri0, ts.
  assert (length t = nt) as Lt by done.
  destruct (decide (m < nt)) as [H1|H1];
    [|destruct (decide (m < 2 * nt)) as [H2|H2]].
  - destruct (lookup_lt_is_Some_2 t m) as [r Hr]; [lia|].
    exists 0, m, r. do 2 (split; [lia|]). split; [lia|]. split; [done|].
    split.
    + rewrite lookup_app_l by (rewrite length_fmap, length_fmap; lia).
      by rewrite !list_lookup_fmap, Hr.
    + rewrite lookup_app_l by (rewrite length_seq; lia).
      by rewrite lookup_seq_lt by lia.
  - destruct (lookup_lt_is_Some_2 t (m - nt)) as [r Hr]; [lia|].
    exists 1, (m - nt), r. do 2 (split; [lia|]). split; [lia|]. split; [done|].
    split.
    + rewrite lookup_app_r by (rewrite length_fmap, length_fmap; lia).
      rewrite !length_fmap, Lt.
      rewrite lookup_app_l by (rewrite length_fmap, length_fmap; lia).
      by rewrite !list_lookup_fmap, Hr.
    + rewrite lookup_app_r by (rewrite length_seq; lia).
      rewrite length_seq.
      rewrite lookup_app_l by (rewrite length_seq; lia).
      by rewrite lookup_seq_lt by lia.
  - destruct (lookup_lt_is_Some_2 t (m - nt - nt)) as [r Hr]; [lia|].
    exists 2, (m - nt - nt), r. do 2 (split; [lia|]). split; [lia|].
    split; [done|]. split.
    + rewrite lookup_app_r by (rewrite length_fmap, length_fmap; lia).
      rewrite !length_fmap, Lt.
      rewrite lookup_app_r by (rewrite length_fmap, length_fmap; lia).
      rewrite !length_fmap, Lt.
      by rewrite !list_lookup_fmap, Hr.
    + rewrite lookup_app_r by (rewrite length_seq; lia).
      rewrite length_seq.
      rewrite lookup_app_r by (rewrite length_seq; lia).
      rewrite length_seq.
      by rewrite lookup_seq_lt by lia.
Qed.

Lemma j_perm : j ≡ₚ seq 0 (3 * nt).
Proof.
  unfold j. rewrite _arg_sortrows_perm by apply sort1_ok. by rewrite e0_length.
Qed.

Lemma j_lookup r m : j !! r = Some m → m < 3 * nt.
Proof.
  intros H%list_elem_of_lookup_2. rewrite j_perm in H.
  apply elem_of_seq in H. lia.
Qed.

Lemma j_length : length j = 3 * nt.
Proof. by rewrite j_perm, length_seq. Qed.

Lemma j_NoDup : NoDup j.
Proof. rewrite j_perm. apply NoDup_seq. Qed.

Lemma e_length : length e = 3 * nt.
Proof. unfold e. by rewrite length_fmap, j_length. Qed.

Lemma e_lookup r m :
  j !! r = Some m → e !!! r = e0 !!! m ∧ trinum !!! r = tri0 !!! m.
Proof.
  intros Hr. unfold e, trinum.
  split; apply list_lookup_total_correct; by rewrite list_lookup_fmap, Hr.
Qed.

Lemma ctoc0_elem a b :
  (a, b) ∈ ctoc0 ↔
  ∃ r m1 m2, j !! r = Some m1 ∧ j !! (r + 1) = Some m2 ∧
    e0 !!! m1 = e0 !!! m2 ∧ a = tri0 !!! m1 ∧ b = tri0 !!! m2.
Proof.
  unfold ctoc0, k. rewrite list_elem_of_fmap. split.
  - intros (r & [= -> ->] & [Hr Heq]%adjacent_where_elem).
    rewrite e_length in Hr. apply pair_eqb_eq in Heq.
    destruct (lookup_lt_is_Some_2 j r) as [m1 H1]; [rewrite j_length; lia|].
    destruct (lookup_lt_is_Some_2 j (r + 1)) as [m2 H2];
      [rewrite j_length; lia|].
    destruct (e_lookup _ _ H1) as [He1 Ht1].
    destruct (e_lookup _ _ H2) as [He2 Ht2].
    exists r, m1, m2. rewrite <- He1, <- He2. done.
  - intros (r & m1 & m2 & H1 & H2 & Heq & -> & ->).
    destruct (e_lookup _ _ H1) as [He1 Ht1].
    destruct (e_lookup _ _ H2) as [He2 Ht2].
    exists r. split; [by rewrite Ht1, Ht2|].
    apply adjacent_where_elem. split.
    + rewrite e_length, <- j_length. by eapply lookup_lt_Some.
    + apply pair_eqb_eq. by rewrite He1, He2.
Qed.

Lemma ctoc_perm : ctoc ≡ₚ ctoc1.
Proof.
  unfold ctoc. apply gather_perm.
  destruct (sort2_ok (Z.of_nat <$> ctoc1.*1)) as [Hp _].
  by rewrite !length_fmap in Hp.
Qed.

Lemma ctoc_elem a b : (a, b) ∈ ctoc ↔ (a, b) ∈ ctoc0 ∨ (b, a) ∈ ctoc0.
Proof.
  rewrite ctoc_perm. unfold ctoc1. rewrite elem_of_app, list_elem_of_fmap.
  split; (intros [?|H]; [by left|right]).
  - destruct H as ([a' b'] & [= -> ->] & ?). done.
  - by exists (b, a).
Qed.

Lemma ctoc0_sound a b :
  (a, b) ∈ ctoc0 →
  a < nt ∧ b < nt ∧
  ∃ ra rb ed, t !! a = Some ra ∧ t !! b = Some rb ∧
    ed ∈ row_edges (sort_row ra) ∧ ed ∈ row_edges (sort_row rb) ∧
    (proper_cell ra → a ≠ b).
Proof.
  intros (r & m1 & m2 & H1 & H2 & Heq & -> & ->)%ctoc0_elem.
  assert (m1 ≠ m2) as Hne.
  { intros ->. pose proof (NoDup_lookup _ _ _ _ j_NoDup H1 H2). lia. }
  destruct (row_lookup m1 (j_lookup _ _ H1))
    as (s1 & a1 & r1 & Hs1 & Ha1 & Hm1 & Ht1 & He1 & Hr1).
  destruct (row_lookup m2 (j_lookup _ _ H2))
    as (s2 & a2 & r2 & Hs2 & Ha2 & Hm2 & Ht2 & He2 & Hr2).
  rewrite (list_lookup_total_correct _ _ _ Hr1).
  rewrite (list_lookup_total_correct _ _ _ Hr2).
  rewrite (list_lookup_total_correct _ _ _ He1) in Heq.
  rewrite (list_lookup_total_correct _ _ _ He2) in Heq.
  do 2 (split; [done|]).
  exists r1, r2, (slot s1 (sort_row r1)). do 2 (split; [done|]).
  split; [apply slot_row_edges|]. split; [rewrite Heq; apply slot_row_edges|].
  intros Hp ->. assert (r2 = r1) as -> by congruence.
  apply Hne. rewrite Hm1, Hm2. f_equal. f_equal.
  eapply slot_injective; [by apply sort_row_proper|done..].
Qed.

Lemma ctoc_ascending : ascending (λ x y : nat * nat, x.1 ≤ y.1) ctoc.
Proof.
  set (keys := Z.of_nat <$> ctoc1.*1).
  destruct (sort2_ok keys) as [Hp Hs].
  intros x y a b Hxy Hx Hy. unfold ctoc in Hx, Hy. fold keys in Hx, Hy.
  rewrite list_lookup_fmap in Hx, Hy.
  destruct (sort2 keys !! x) as [ix|] eqn:Hix; [|done].
  destruct (sort2 keys !! y) as [iy|] eqn:Hiy; [|done].
  simpl in Hx, Hy. injection Hx as <-. injection Hy as <-.
  specialize (Hs x y ix iy Hxy Hix Hiy). cbv beta in Hs.
  assert (∀ i, i ∈ sort2 keys → keys !!! i = Z.of_nat (ctoc1 !!! i).1) as Hk.
  { intros i Hi. rewrite Hp in Hi. apply elem_of_seq in Hi.
    unfold keys in Hi |- *. rewrite !length_fmap in Hi.
    rewrite (list_lookup_total_fmap Z.of_nat ctoc1.*1 i)
      by (rewrite length_fmap; lia).
    f_equal. apply (list_lookup_total_fmap fst ctoc1 i). lia. }
  rewrite !Hk in Hs by (by eapply list_elem_of_lookup_2).
  cbv beta. apply Nat2Z.inj_le. exact Hs.
Qed.

Lemma row_lookup_at a s r :
  t !! a = Some r → s < 3 →
  a + nt * s < 3 * nt ∧
  e0 !! (a + nt * s) = Some (slot s (sort_row r)) ∧
  tri0 !! (a + nt * s) = Some a.
Proof.
  intros Ha Hs.
  assert (a < nt) as Hlt by (by eapply lookup_lt_Some).
  assert (a + nt * s < 3 * nt) as Hm by (destruct s as [|[|[|?]]]; lia).
  split; [done|].
  destruct (row_lookup _ Hm) as (s' & a' & r' & Hs' & Ha' & Hm' & Ht' & He & Hr).
  assert (s' = s ∧ a' = a) as [-> ->].
  { destruct s as [|[|[|?]]], s' as [|[|[|?]]]; lia. }
  assert (r' = r) as -> by congruence. done.
Qed.

Lemma lex_le_antisym p q : lex_le p q → lex_le q p → p = q.
Proof.
  destruct p as [p1 p2], q as [q1 q2]. unfold lex_le. simpl.
  intros [?|[? ?]] [?|[? ?]]; try lia. f_equal; lia.
Qed.

Lemma shared_rows_adjacent pa pb m1 m2 ed :
  pa < pb → j !! pa = Some m1 → j !! pb = Some m2 →
  e0 !! m1 = Some ed → e0 !! m2 = Some ed →
  (∀ m, e0 !! m = Some ed → m = m1 ∨ m = m2) →
  pb = pa + 1.
Proof.
  intros Hlt H1 H2 He1 He2 Honly.
  destruct (decide (pb = pa + 1)) as [|Hne]; [done|exfalso].
  assert (pa + 1 < length j) as Hmid.
  { apply lookup_lt_Some in H2. lia. }
  destruct (lookup_lt_is_Some_2 j (pa + 1) Hmid) as [m Hm].
  pose proof (_arg_sortrows_ascending sort1 e0 (sort1_ok _)) as Hasc.
  fold j in Hasc.
  pose proof (Hasc pa (pa + 1) m1 m ltac:(lia) H1 Hm) as Hle1.
  pose proof (Hasc (pa + 1) pb m m2 ltac:(lia) Hm H2) as Hle2.
  cbv beta in Hle1, Hle2.
  rewrite (list_lookup_total_correct _ _ _ He1) in Hle1.
  rewrite (list_lookup_total_correct _ _ _ He2) in Hle2.
  pose proof (lex_le_antisym _ _ Hle1 Hle2) as Heq.
  assert (e0 !! m = Some ed) as He.
  { rewrite Heq. apply list_lookup_lookup_total_lt.
    rewrite e0_length. by eapply j_lookup. }
  destruct (Honly m He) as [->| ->].
  - pose proof (NoDup_lookup _ _ _ _ j_NoDup H1 Hm). lia.
  - pose proof (NoDup_lookup _ _ _ _ j_NoDup H2 Hm). lia.
Qed.

Lemma ctoc_complete a b ra rb ed :
  a ≠ b → t !! a = Some ra → t !! b = Some rb →
  proper_cell ra → proper_cell rb →
  ed ∈ row_edges (sort_row ra) → ed ∈ row_edges (sort_row rb) →
  (∀ c rc, t !! c = Some rc → ed ∈ row_edges (sort_row rc) → c = a ∨ c = b) →
  (a, b) ∈ ctoc.
Proof.
  intros Hab Ha Hb Hpa Hpb Hea Heb Honly.
  assert (∀ r, ed ∈ row_edges r → ∃ s, s < 3 ∧ ed = slot s r) as Hslot.
  { intros r. unfold row_edges. rewrite !elem_of_cons, elem_of_nil.
    intros [->|[->|[->|[]]]]; [exists 0|exists 1|exists 2];
      (split; [lia|done]). }
  destruct (Hslot _ Hea) as (sa & Hsa & Hed_a).
  destruct (Hslot _ Heb) as (sb & Hsb & Hed_b).
  destruct (row_lookup_at a sa ra Ha Hsa) as (Lma & Hma & Hta).
  destruct (row_lookup_at b sb rb Hb Hsb) as (Lmb & Hmb & Htb).
  rewrite <- Hed_a in Hma. rewrite <- Hed_b in Hmb.
  set (ma := a + nt * sa) in *. set (mb := b + nt * sb) in *.
  assert (∀ m, e0 !! m = Some ed → m = ma ∨ m = mb) as Hrows.
  { intros m Hm.
    assert (m < 3 * nt) as Lm.
    { rewrite <- e0_length. by eapply lookup_lt_Some. }
    destruct (row_lookup m Lm)
      as (s & c & rc & Hs & Hc & -> & Htc & Hec & Hrc).
    assert (ed = slot s (sort_row rc)) as Hed by congruence.
    destruct (Honly c rc Htc) as [->| ->].
    { rewrite Hed. apply slot_row_edges. }
    - left. assert (rc = ra) as -> by congruence.
      assert (s = sa) as ->; [|done].
      apply (slot_injective s sa (sort_row ra));
        [by apply sort_row_proper|done..|by rewrite <- Hed, <- Hed_a].
    - right. assert (rc = rb) as -> by congruence.
      assert (s = sb) as ->; [|done].
      apply (slot_injective s sb (sort_row rb));
        [by apply sort_row_proper|done..|by rewrite <- Hed, <- Hed_b]. }
  assert (ma ≠ mb) as Hne.
  { intros Heq. assert (Some a = Some b) as [=]; [|done].
    by rewrite <- Hta, <- Htb, Heq. }
  assert (∀ m, m < 3 * nt → ∃ p, j !! p = Some m) as Hpos.
  { intros m Hm. apply list_elem_of_lookup. rewrite j_perm.
    apply elem_of_seq. lia. }
  destruct (Hpos ma Lma) as [pa Hpa']. destruct (Hpos mb Lmb) as [pb Hpb'].
  assert (pa ≠ pb) as Hpne by (intros ->; congruence).
  apply ctoc_elem.
  destruct (decide (pa < pb)) as [Hlt|Hge].
  - left. apply ctoc0_elem. exists pa, ma, mb.
    rewrite <- (shared_rows_adjacent pa pb ma mb ed) by done.
    rewrite (list_lookup_total_correct _ _ _ Hma).
    rewrite (list_lookup_total_correct _ _ _ Hmb).
    rewrite (list_lookup_total_correct _ _ _ Hta).
    by rewrite (list_lookup_total_correct _ _ _ Htb).
  - right. apply ctoc0_elem. exists pb, mb, ma.
    rewrite <- (shared_rows_adjacent pb pa mb ma ed);
      [|lia|done..|intros m Hm; destruct (Hrows m Hm); auto].
    rewrite (list_lookup_total_correct _ _ _ Hma).
    rewrite (list_lookup_total_correct _ _ _ Hmb).
    rewrite (list_lookup_total_correct _ _ _ Hta).
    by rewrite (list_lookup_total_correct _ _ _ Htb).
Qed.

Lemma breaks_elem r :
  r ∈ adjacent_where (λ a b : nat * nat, negb (a.1 =? b.1)) ctoc ↔
  r + 1 < length ctoc ∧ (ctoc !!! r).1 < (ctoc !!! (r + 1)).1.
Proof.
  rewrite adjacent_where_elem.
  split; intros [Hr Hd]; (split; [done|]).
  - apply negb_true_iff, Nat.eqb_neq in Hd.
    assert (r < length ctoc) as Hr' by lia.
    pose proof (ctoc_ascending r (r + 1) (ctoc !!! r) (ctoc !!! (r + 1))
                  ltac:(lia)
                  (list_lookup_lookup_total_lt ctoc r Hr')
                  (list_lookup_lookup_total_lt ctoc (r + 1) Hr)) as Hle.
    cbv beta in Hle. lia.
  - apply negb_true_iff, Nat.eqb_neq. lia.
Qed.
End cell_table.

(** X16: every row of the table is a pair of cells with a common edge, and the
    table holds every pair in both directions; a cell of three different
    vertices is never paired with itself.  This holds whichever orders the
    two unstable sorts return. *)
Theorem cell_to_cell_pairs_share_an_edge
    (sort1 sort2 : list Z → list nat) (t : list (Z * Z * Z))
    (ctoc : list (nat * nat)) (idx : list nat) (a b : nat) :
  (∀ keys, sorts keys (sort1 keys)) →
  (∀ keys, sorts keys (sort2 keys)) →
  cell_to_cell sort1 sort2 t = (ctoc, idx) →
  (a, b) ∈ ctoc →
  (b, a) ∈ ctoc ∧ a < length t ∧ b < length t ∧
  ∃ ra rb ed, t !! a = Some ra ∧ t !! b = Some rb ∧
    ed ∈ row_edges (sort_row ra) ∧ ed ∈ row_edges (sort_row rb) ∧
    (proper_cell ra → a ≠ b).
Proof.
  intros H1 H2 Hc Hab. rewrite cell_to_cell_eq in Hc. injection Hc as <- _.
  apply (ctoc_elem sort1 sort2 t H2) in Hab. split.
  { apply (ctoc_elem sort1 sort2 t H2). tauto. }
  destruct Hab as [Hab|Hba].
  - by apply (ctoc0_sound sort1 t H1) in Hab.
  - apply (ctoc0_sound sort1 t H1) in Hba
      as (Hb & Ha & rb & ra & ed & Hrb & Hra & Heb & Hea & Hne).
    do 2 (split; [done|]). exists ra, rb, ed. do 4 (split; [done|]).
    intros Hp ->. assert (rb = ra) as -> by congruence. by apply Hne.
Qed.

Lemma cell_to_cell_pairs_share_an_edge_witness :
  (1, 0) ∈ [(0, 1); (1, 0)].
Proof.
  refine (proj1 (cell_to_cell_pairs_share_an_edge argsort_stable argsort_stable
                   two_triangles [(0, 1); (1, 0)] [0; 0; 2] 0 1 _ _ _ _)).
  - apply argsort_stable_sorts.
  - apply argsort_stable_sorts.
  - by vm_compute.
  - left.
Defined.

(** X17: two different cells of three different vertices each, with a common edge
    that no third cell has, are paired in the table. *)
Theorem cell_to_cell_lists_every_shared_edge
    (sort1 sort2 : list Z → list nat) (t : list (Z * Z * Z))
    (ctoc : list (nat * nat)) (idx : list nat) (a b : nat)
    (ra rb : Z * Z * Z) (ed : Z * Z) :
  (∀ keys, sorts keys (sort1 keys)) →
  (∀ keys, sorts keys (sort2 keys)) →
  cell_to_cell sort1 sort2 t = (ctoc, idx) →
  a ≠ b → t !! a = Some ra → t !! b = Some rb →
  proper_cell ra → proper_cell rb →
  ed ∈ row_edges (sort_row ra) → ed ∈ row_edges (sort_row rb) →
  (∀ c rc, t !! c = Some rc → ed ∈ row_edges (sort_row rc) → c = a ∨ c = b) →
  (a, b) ∈ ctoc ∧ (b, a) ∈ ctoc.
Proof.
  intros H1 H2 Hc Hab Ha Hb Hpa Hpb Hea Heb Honly.
  rewrite cell_to_cell_eq in Hc. injection Hc as <- _.
  assert ((a, b) ∈ fst (cell_to_cell sort1 sort2 t)) as Hin.
  { rewrite cell_to_cell_eq. simpl.
    by apply (ctoc_complete sort1 sort2 t H1 H2 a b ra rb ed). }
  rewrite cell_to_cell_eq in Hin. simpl in Hin. split; [done|].
  apply (ctoc_elem sort1 sort2 t H2). apply (ctoc_elem sort1 sort2 t H2) in Hin. tauto.
Qed.

Lemma cell_to_cell_lists_every_shared_edge_witness :
  (0, 1) ∈ [(0, 1); (1, 0)] ∧ (1, 0) ∈ [(0, 1); (1, 0)].
Proof.
  refine (cell_to_cell_lists_every_shared_edge argsort_stable argsort_stable
            two_triangles [(0, 1); (1, 0)] [0; 0; 2] 0 1
            (0, 1, 2)%Z (2, 1, 3)%Z (1, 2)%Z _ _ _ _ _ _ _ _ _ _ _).
  - apply argsort_stable_sorts.
  - apply argsort_stable_sorts.
  - by vm_compute.
  - lia.
  - reflexivity.
  - reflexivity.
  - unfold proper_cell; simpl; lia.
  - unfold proper_cell; simpl; lia.
  - vm_compute. right; right; left.
  - vm_compute. left.
  - intros [|[|[|c]]] rc; simpl; intros [= <-]; auto.
    unfold row_edges. simpl. rewrite !elem_of_cons, elem_of_nil.
    intros [[=]|[[=]|[[=]|[]]]].
Defined.

(** X18: the table is sorted by its first column.  The index array starts with
    0 and ends with the number of rows; between them it holds, in ascending
    order, the rows [r] at which the first column changes between row [r]
    and row [r + 1]. *)
Theorem cell_to_cell_index
    (sort1 sort2 : list Z → list nat) (t : list (Z * Z * Z))
    (ctoc : list (nat * nat)) (idx : list nat) :
  (∀ keys, sorts keys (sort2 keys)) →
  cell_to_cell sort1 sort2 t = (ctoc, idx) →
  ascending (λ x y : nat * nat, x.1 ≤ y.1) ctoc ∧
  ∃ breaks,
    idx = 0 :: breaks ++ [length ctoc] ∧
    ascending lt breaks ∧
    ∀ r, r ∈ breaks ↔
      r + 1 < length ctoc ∧ (ctoc !!! r).1 < (ctoc !!! (r + 1)).1.
Proof.
  intros H2 Hc. rewrite cell_to_cell_eq in Hc. injection Hc as <- <-.
  split; [by apply ctoc_ascending|]. eexists. split; [done|].
  split; [apply adjacent_where_ascending|].
  by apply breaks_elem.
Qed.

Lemma cell_to_cell_index_witness :
  ascending (λ x y : nat * nat, x.1 ≤ y.1) [(0, 1); (1, 0)].
Proof.
  refine (proj1 (cell_to_cell_index argsort_stable argsort_stable
                   two_triangles [(0, 1); (1, 0)] [0; 0; 2] _ _)).
  - apply argsort_stable_sorts.
  - by vm_compute.
Defined.

